(** * openclaw-plugin-graph: the graph store and the link-expansion searcher

    A shallow embedding of [lib/graph-store.js] (class [GraphStore]) and of
    the searcher (class [GraphSearcher]), with the properties their
    specification states about them.

    Conventions of the embedding.
    - A JavaScript string is a [string]: a sequence of code units below 256
      (the Latin-1 range).  [toLowerCase], [trim] and the regular expression
      class [\s] are written out on that range.
    - A value that may be [undefined] (an omitted argument or field) is an
      [option]; [a || d] on such a value is [js_or] (or [js_or_num],
      [js_or_int]): the default [d] also stands in for the empty string and
      for zero, which are falsy.
    - A table is the list of its rows in insertion (rowid) order.  A prepared
      statement is a function on the store; [ORDER BY] is a stable sort of
      the scanned rows, so that ties come out in table order.
    - SQLite [REAL] values and JavaScript numbers that hold confidences and
      scores are exact rationals ([Q]); sums are taken in the order in which
      the code adds.  Integers are [Z]. *)

From Stdlib Require Import String Ascii ZArith QArith Qminmax Lia Lqa Permutation.
From stdpp Require Import base list gmap strings sorting.

Set Warnings "-clear-no-such-hyp".

Local Open Scope string_scope.
Local Open Scope list_scope.
Local Open Scope Z_scope.

(** ** JavaScript strings *)

Module JsString.

Definition code (c : ascii) : N := N_of_ascii c.

(** Code units with a lowercase mapping below 256: A-Z, and the Latin-1
    capitals 0xC0-0xDE except the multiplication sign 0xD7. *)
Definition is_upper (c : ascii) : bool :=
  let n := code c in
  ((65 <=? n) && (n <=? 90) || (192 <=? n) && (n <=? 214)
   || (216 <=? n) && (n <=? 222))%N.

Definition lower_char (c : ascii) : ascii :=
  if is_upper c then ascii_of_N (code c + 32) else c.

(** [WhiteSpace] and [LineTerminator] below 256: TAB, LF, VT, FF, CR,
    space and the no-break space.  [String.prototype.trim] and the class
    [\s] use the same set. *)
Definition is_space (c : ascii) : bool :=
  let n := code c in
  ((9 <=? n) && (n <=? 13) || (n =? 32) || (n =? 160))%N.

Fixpoint toLowerCase (s : string) : string :=
  match s with
  | EmptyString => EmptyString
  | String c s' => String (lower_char c) (toLowerCase s')
  end.

Fixpoint trimStart (s : string) : string :=
  match s with
  | EmptyString => EmptyString
  | String c s' => if is_space c then trimStart s' else s
  end.

Definition is_empty (s : string) : bool :=
  match s with EmptyString => true | String _ _ => false end.

Fixpoint trimEnd (s : string) : string :=
  match s with
  | EmptyString => EmptyString
  | String c s' =>
      let r := trimEnd s' in
      if is_space c && is_empty r then EmptyString else String c r
  end.

Definition trim (s : string) : string := trimEnd (trimStart s).

(** [s.replace(/\s+/g, sep)]: every maximal run of white space becomes one
    [sep].  [in_run] tells that the previous code unit was white space. *)
Fixpoint replace_ws_runs (sep : ascii) (in_run : bool) (s : string) : string :=
  match s with
  | EmptyString => EmptyString
  | String c s' =>
      if is_space c then
        if in_run then replace_ws_runs sep true s'
        else String sep (replace_ws_runs sep true s')
      else String c (replace_ws_runs sep false s')
  end.

(** [a < b] on strings: comparison by code units. *)
Definition ltb (a b : string) : bool := String.ltb a b.
Definition leb (a b : string) : bool := String.leb a b.

(** The first [n] code units of [s]. *)
Definition prefix (n : nat) (s : string) : string := String.substring 0 n s.

(** Words of a string: the maximal runs of code units that are not white
    space, in order. *)
Definition starts_word (s : string) : bool :=
  match s with
  | EmptyString => false
  | String c _ => negb (is_space c)
  end.

Fixpoint words (s : string) : list string :=
  match s with
  | EmptyString => []
  | String c s' =>
      if is_space c then words s'
      else if starts_word s' then
        match words s' with
        | w :: r => String c w :: r
        | [] => [String c EmptyString]
        end
      else String c EmptyString :: words s'
  end.

Fixpoint all_chars (P : ascii -> bool) (s : string) : bool :=
  match s with
  | EmptyString => true
  | String c s' => P c && all_chars P s'
  end.

End JsString.

Import JsString.

(** [a || d] for a string that may be undefined: the empty string is falsy
    too. *)
Definition js_or (a : option string) (d : string) : string :=
  match a with
  | Some s => if is_empty s then d else s
  | None => d
  end.

(** ** [GraphStore.normalizeEntityId] *)

(** [name.toLowerCase().trim().replace(/\s+/g, '_')] *)
Definition normalizeEntityId (name : string) : string :=
  replace_ws_runs "_" false (trim (toLowerCase name)).

(** Code units that lowercasing leaves alone, and those that are not white
    space. *)
Definition is_lower_fixed (c : ascii) : bool := negb (is_upper c).
Definition not_space (c : ascii) : bool := negb (is_space c).

(** Case analysis on the 256 code units. *)
Ltac each_char c :=
  destruct c as [[] [] [] [] [] [] [] []]; try reflexivity; try discriminate.

(** ** A small relational engine: row scans, [ORDER BY], [LIMIT], [LIKE] *)

Module Sql.

Section order_by.
Context {A : Type} (le : A -> A -> bool).

Fixpoint insert_sorted (x : A) (l : list A) : list A :=
  match l with
  | [] => [x]
  | y :: l' => if le x y then x :: l else y :: insert_sorted x l'
  end.

(** A stable sort: [le a b] tells that [a] may stay before [b]. *)
Definition order_by (l : list A) : list A := foldr insert_sorted [] l.
End order_by.

(** [LIMIT n]: a negative [n] means no limit. *)
Definition limit {A} (n : Z) (l : list A) : list A :=
  if n <? 0 then l else take (Z.to_nat n) l.

(** ASCII case folding of [LIKE]: only A-Z and a-z are identified. *)
Definition fold_ascii (c : ascii) : ascii :=
  let n := N_of_ascii c in
  if ((65 <=? n) && (n <=? 90))%N then ascii_of_N (n + 32) else c.

Definition eqb_nocase (c d : ascii) : bool :=
  bool_decide (fold_ascii c = fold_ascii d).

(** [s LIKE pat] with SQLite's defaults: [%] matches any sequence, [_] any
    one character, every other character itself up to ASCII case; there is
    no escape character. *)
Fixpoint like (pat : string) : string -> bool :=
  match pat with
  | EmptyString => fun s => is_empty s
  | String p pat' =>
      if bool_decide (p = "%"%char) then
        fix any_suffix (s : string) : bool :=
          like pat' s ||
          match s with
          | EmptyString => false
          | String _ s' => any_suffix s'
          end
      else if bool_decide (p = "_"%char) then
        fun s => match s with
                 | EmptyString => false
                 | String _ s' => like pat' s'
                 end
      else
        fun s => match s with
                 | EmptyString => false
                 | String c s' => eqb_nocase p c && like pat' s'
                 end
  end.

(** The scalar [MAX(a, b)] on two reals. *)
Definition max (a b : Q) : Q := Qmax a b.

End Sql.

(** ** The schema *)

Module Triple.
Record t := mk {
  id : Z;                                (* INTEGER PRIMARY KEY AUTOINCREMENT *)
  subject : string;
  predicate : string;
  object : string;
  confidence : Q;
  source_exchange_id : option string;    (* nullable *)
  source_date : string;
  created_at : string;
  updated_at : string;
  agent_id : string;
  pending_resolution : Z
}.
End Triple.

Module Entity.
Record t := mk {
  id : string;                           (* TEXT PRIMARY KEY *)
  canonical_name : string;
  entity_type : string;
  first_seen : string;
  last_seen : string;
  mention_count : Z;
  aliases : string;
  metadata : option string;              (* nullable, never written *)
  agent_id : string
}.
End Entity.

Module Cooc.
Record t := mk {
  entity_a : string;                     (* PRIMARY KEY (entity_a, entity_b) *)
  entity_b : string;
  count : Z;
  last_seen : string
}.
End Cooc.

(** The database file: the three tables, and the AUTOINCREMENT counter of
    [triples] (the largest rowid ever handed out). *)
Record Store := mkStore {
  triples : list Triple.t;
  triples_seq : Z;
  entities : list Entity.t;
  cooccurrences : list Cooc.t
}.

Definition empty_store : Store := mkStore [] 0 [] [].

(** The primary keys, which the engine enforces on every database. *)
Record store_wf (s : Store) : Prop := {
  wf_triple_ids : NoDup (Triple.id <$> triples s);
  wf_triple_seq : Forall (fun t => Triple.id t <= triples_seq s) (triples s);
  wf_entity_ids : NoDup (Entity.id <$> entities s);
  wf_cooc_keys :
    NoDup ((fun c => (Cooc.entity_a c, Cooc.entity_b c)) <$> cooccurrences s)
}.

(** ** The prepared statements of the constructor

    Each takes the current time [now] where its SQL says [datetime('now')]. *)

Module Stmt.

Definition newer_first (a b : Triple.t) : bool :=
  JsString.leb (Triple.updated_at b) (Triple.updated_at a).

Definition triple_key (subject predicate object agent : string) (t : Triple.t) : Prop :=
  Triple.subject t = subject /\ Triple.predicate t = predicate /\
  Triple.object t = object /\ Triple.agent_id t = agent.

#[global] Instance triple_key_dec s p o a t : Decision (triple_key s p o a t).
Proof. unfold triple_key. apply _. Defined.

(** [INSERT INTO triples (...) VALUES (?, ?, ?, ?, ?, ?, ?, ?)]; gives
    [lastInsertRowid]. *)
Definition insertTriple (now : string)
    (subject predicate object : string) (confidence : Q)
    (source_exchange_id : option string) (source_date agent : string)
    (pending : Z) (s : Store) : Z * Store :=
  let id := triples_seq s + 1 in
  let row := Triple.mk id subject predicate object confidence
               source_exchange_id source_date now now agent pending in
  (id, mkStore (triples s ++ [row]) id (entities s) (cooccurrences s)).

(** [SELECT id FROM triples WHERE subject = ? AND predicate = ? AND
    object = ? AND agent_id = ? LIMIT 1] *)
Definition findTriple (subject predicate object agent : string) (s : Store)
    : option Z :=
  Triple.id <$> head (filter (triple_key subject predicate object agent) (triples s)).

(** [UPDATE triples SET confidence = MAX(confidence, ?),
    updated_at = datetime('now') WHERE id = ?] *)
Definition bump_confidence (now : string) (c : Q) (t : Triple.t) : Triple.t :=
  Triple.mk (Triple.id t) (Triple.subject t) (Triple.predicate t)
    (Triple.object t) (Sql.max (Triple.confidence t) c)
    (Triple.source_exchange_id t) (Triple.source_date t)
    (Triple.created_at t) now (Triple.agent_id t)
    (Triple.pending_resolution t).

Definition updateTripleConfidence (now : string) (c : Q) (id : Z) (s : Store)
    : Store :=
  mkStore
    ((fun t => if decide (Triple.id t = id) then bump_confidence now c t else t)
       <$> triples s)
    (triples_seq s) (entities s) (cooccurrences s).

(** [INSERT INTO entities (id, canonical_name, entity_type, agent_id,
    aliases) VALUES (?, ?, ?, ?, '[]') ON CONFLICT(id) DO UPDATE SET
    last_seen = datetime('now'), mention_count = mention_count + 1] *)
Definition mention (now : string) (e : Entity.t) : Entity.t :=
  Entity.mk (Entity.id e) (Entity.canonical_name e) (Entity.entity_type e)
    (Entity.first_seen e) now (Entity.mention_count e + 1)
    (Entity.aliases e) (Entity.metadata e) (Entity.agent_id e).

Definition upsertEntity (now : string) (id name type agent : string)
    (s : Store) : Store :=
  let es := entities s in
  let es' :=
    if decide (id ∈ Entity.id <$> es) then
      (fun e => if decide (Entity.id e = id) then mention now e else e) <$> es
    else es ++ [Entity.mk id name type now now 1 "[]" None agent] in
  mkStore (triples s) (triples_seq s) es' (cooccurrences s).

(** [SELECT * FROM entities WHERE id = ?] *)
Definition getEntity (id : string) (s : Store) : option Entity.t :=
  head (filter (fun e => Entity.id e = id) (entities s)).

(** [SELECT * FROM entities WHERE canonical_name = ? AND agent_id = ?
    LIMIT 1] *)
Definition getEntityByName (name agent : string) (s : Store) : option Entity.t :=
  head (filter (fun e => Entity.canonical_name e = name /\ Entity.agent_id e = agent)
          (entities s)).

(** [SELECT * FROM entities WHERE canonical_name LIKE ? AND agent_id = ?
    LIMIT 10] *)
Definition findEntitiesByPrefix (pattern agent : string) (s : Store)
    : list Entity.t :=
  Sql.limit 10
    (filter (fun e => Sql.like pattern (Entity.canonical_name e) = true /\
                      Entity.agent_id e = agent) (entities s)).

(** [INSERT INTO cooccurrences (entity_a, entity_b, count, last_seen)
    VALUES (?, ?, 1, datetime('now')) ON CONFLICT(entity_a, entity_b)
    DO UPDATE SET count = count + 1, last_seen = datetime('now')] *)
Definition cooc_key (c : Cooc.t) : string * string :=
  (Cooc.entity_a c, Cooc.entity_b c).

Definition upsertCooccurrence (now : string) (a b : string) (s : Store) : Store :=
  let cs := cooccurrences s in
  let cs' :=
    if decide ((a, b) ∈ cooc_key <$> cs) then
      (fun c => if decide (cooc_key c = (a, b))
                then Cooc.mk a b (Cooc.count c + 1) now else c) <$> cs
    else cs ++ [Cooc.mk a b 1 now] in
  mkStore (triples s) (triples_seq s) (entities s) cs'.

Definition more_first (a b : Cooc.t) : bool := Cooc.count b <=? Cooc.count a.

(** [SELECT * FROM cooccurrences WHERE entity_a = ? OR entity_b = ?
    ORDER BY count DESC LIMIT ?] *)
Definition getCooccurrences (a b : string) (lim : Z) (s : Store) : list Cooc.t :=
  Sql.limit lim
    (Sql.order_by more_first
       (filter (fun c => Cooc.entity_a c = a \/ Cooc.entity_b c = b)
          (cooccurrences s))).

(** [SELECT * FROM triples WHERE subject = ? AND agent_id = ?
    ORDER BY updated_at DESC LIMIT ?] *)
Definition getTriplesForSubject (id agent : string) (lim : Z) (s : Store)
    : list Triple.t :=
  Sql.limit lim
    (Sql.order_by newer_first
       (filter (fun t => Triple.subject t = id /\ Triple.agent_id t = agent)
          (triples s))).

(** [SELECT * FROM triples WHERE object = ? AND agent_id = ?
    ORDER BY updated_at DESC LIMIT ?] *)
Definition getTriplesForObject (id agent : string) (lim : Z) (s : Store)
    : list Triple.t :=
  Sql.limit lim
    (Sql.order_by newer_first
       (filter (fun t => Triple.object t = id /\ Triple.agent_id t = agent)
          (triples s))).

(** [SELECT COUNT( * ) as count FROM entities WHERE agent_id = ?] *)
Definition countEntities (agent : string) (s : Store) : Z :=
  Z.of_nat (length (filter (fun e => Entity.agent_id e = agent) (entities s))).

(** [SELECT COUNT( * ) as count FROM triples WHERE agent_id = ?] *)
Definition countTriples (agent : string) (s : Store) : Z :=
  Z.of_nat (length (filter (fun t => Triple.agent_id t = agent) (triples s))).

Definition seen_later_first (a b : Entity.t) : bool :=
  JsString.leb (Entity.last_seen b) (Entity.last_seen a).

(** [SELECT * FROM entities WHERE agent_id = ? ORDER BY last_seen DESC
    LIMIT ?] *)
Definition recentEntities (agent : string) (lim : Z) (s : Store)
    : list Entity.t :=
  Sql.limit lim
    (Sql.order_by seen_later_first
       (filter (fun e => Entity.agent_id e = agent) (entities s))).

(** [SELECT * FROM cooccurrences ORDER BY count DESC LIMIT ?] *)
Definition topCooccurrences (lim : Z) (s : Store) : list Cooc.t :=
  Sql.limit lim (Sql.order_by more_first (cooccurrences s)).

(** [DELETE FROM triples WHERE source_exchange_id = ?]; gives the number
    of rows deleted, the [changes] of the run. *)
Definition deleteTriplesByExchange (exchange : string) (s : Store) : Z * Store :=
  let gone := filter (fun t => Triple.source_exchange_id t = Some exchange) (triples s) in
  let kept := filter (fun t => Triple.source_exchange_id t <> Some exchange) (triples s) in
  (Z.of_nat (length gone),
   mkStore kept (triples_seq s) (entities s) (cooccurrences s)).

End Stmt.

(** ** Running statements: the clock, storage failures, exceptions

    A method of the store runs its statements one after the other against
    the database.  The environment gives, for the n-th statement run, the
    time that [datetime('now')] reads and whether the storage layer fails
    there (I/O error, lock timeout).  A failed statement throws and leaves
    the database as it is; a JavaScript exception ([TypeError]) leaves
    whatever the earlier statements wrote. *)

Inductive error := TypeError | SqliteError.

Record Env := mkEnv {
  clock : nat -> string;
  fault : nat -> bool
}.

Record World := mkWorld {
  db : Store;
  ticks : nat
}.

Definition M (A : Type) : Type := Env -> World -> (error + A) * World.

Definition ret {A} (a : A) : M A := fun _ w => (inr a, w).

Definition throw {A} (e : error) : M A := fun _ w => (inl e, w).

Definition bind {A B} (m : M A) (k : A -> M B) : M B :=
  fun env w =>
    match m env w with
    | (inr a, w') => k a env w'
    | (inl e, w') => (inl e, w')
    end.

Notation "x <- m ;; k" := (bind m (fun x => k))
  (at level 100, m at next level, right associativity).

(** [statement.run(...)], [.get(...)], [.all(...)] *)
Definition run {A} (stmt : string -> Store -> A * Store) : M A :=
  fun env w =>
    let w' := fun s => mkWorld s (S (ticks w)) in
    if fault env (ticks w) then (inl SqliteError, w' (db w))
    else let '(a, s) := stmt (clock env (ticks w)) (db w) in (inr a, w' s).

(** [new Date().toISOString().split('T')[0]]: the calendar date of the
    current time, the first ten characters of the time stamp. *)
Definition today : M string :=
  fun env w => (inr (JsString.prefix 10 (clock env (ticks w))), w).

(** [db.transaction(body)()] of better-sqlite3: [BEGIN], the body, then
    [COMMIT]; if the body throws, [ROLLBACK] and the exception goes on. *)
Definition transaction {A} (body : M A) : M A :=
  fun env w =>
    match body env w with
    | (inr a, w') => (inr a, w')
    | (inl e, w') => (inl e, mkWorld (db w) (ticks w'))
    end.

(** A method call on a value that must be a string: [name.toLowerCase()]
    throws on [undefined]. *)
Definition the_string (a : option string) : M string :=
  match a with
  | Some s => ret s
  | None => throw TypeError
  end.

Fixpoint for_each {A} (body : A -> M unit) (l : list A) : M unit :=
  match l with
  | [] => ret tt
  | x :: l' => _ <- body x ;; for_each body l'
  end.

(** A loop that pushes one result per element. *)
Fixpoint for_each_push {A B} (body : A -> M B) (l : list A) : M (list B) :=
  match l with
  | [] => ret []
  | x :: l' => y <- body x ;; ys <- for_each_push body l' ;; ret (y :: ys)
  end.

(** [c || 1.0] on a number that may be undefined: zero is falsy. *)
Definition js_or_num (c : option Q) (d : Q) : Q :=
  match c with
  | Some q => if Qeq_bool q 0 then d else q
  | None => d
  end.

(** [n || d] on an integer that may be undefined. *)
Definition js_or_int (n : option Z) (d : Z) : Z :=
  match n with
  | Some z => if z =? 0 then d else z
  | None => d
  end.

(** ** The methods of [GraphStore] *)

Module GraphStore.

(** [upsertEntity(name, type, agentId)] *)
Definition upsertEntity (name type agentId : option string) : M string :=
  n <- the_string name ;;
  let id := normalizeEntityId n in
  _ <- run (fun now s =>
         (tt, Stmt.upsertEntity now id n (js_or type "CONCEPT")
                (js_or agentId "main") s)) ;;
  ret id.

(** [getEntity(id)] *)
Definition getEntity (id : string) (s : Store) : option Entity.t :=
  Stmt.getEntity id s.

(** [getEntityByName(name, agentId)] *)
Definition getEntityByName (name : string) (agentId : option string)
    (s : Store) : option Entity.t :=
  Stmt.getEntityByName name (js_or agentId "main") s.

(** [findEntitiesByPrefix(prefix, agentId)] *)
Definition findEntitiesByPrefix (prefix : string) (agentId : option string)
    (s : Store) : list Entity.t :=
  Stmt.findEntitiesByPrefix (prefix +:+ "%") (js_or agentId "main") s.

(** [resolveEntity(name, type, agentId)]: [(id, isNew)] *)
Definition resolveEntity (name type agentId : option string) : M (string * bool) :=
  n <- the_string name ;;
  let id := normalizeEntityId n in
  existing <- run (fun _ s => (Stmt.getEntity id s, s)) ;;
  _ <- upsertEntity name type agentId ;;
  ret (id, bool_decide (existing = None)).

Record TripleArgs := mkTripleArgs {
  subject : option string;
  predicate : string;
  object : option string;
  confidence : option Q;
  sourceExchangeId : option string;
  sourceDate : option string;
  agentId : option string;
  pendingResolution : bool
}.

(** [a || null] for the nullable column. *)
Definition or_null (a : option string) : option string :=
  match a with
  | Some s => if is_empty s then None else Some s
  | None => None
  end.

(** [addTriple({subject, predicate, object, confidence, sourceExchangeId,
    sourceDate, agentId, pendingResolution})] *)
Definition addTriple (a : TripleArgs) : M Z :=
  subjectId <- (s <- the_string (subject a) ;; ret (normalizeEntityId s)) ;;
  objectId <- (o <- the_string (object a) ;; ret (normalizeEntityId o)) ;;
  let aid := js_or (agentId a) "main" in
  existing <- run (fun _ s =>
                (Stmt.findTriple subjectId (predicate a) objectId aid s, s)) ;;
  match existing with
  | Some id =>
      _ <- run (fun now s =>
             (tt, Stmt.updateTripleConfidence now
                    (js_or_num (confidence a) 1) id s)) ;;
      ret id
  | None =>
      date <- match sourceDate a with
              | Some d => if is_empty d then today else ret d
              | None => today
              end ;;
      run (fun now s =>
        Stmt.insertTriple now subjectId (predicate a) objectId
          (js_or_num (confidence a) 1) (or_null (sourceExchangeId a))
          date aid (if pendingResolution a then 1 else 0) s)
  end.

Record EntityIn := mkEntityIn {
  name : option string;
  type : option string
}.

Record TripleIn := mkTripleIn {
  t_subject : option string;
  t_predicate : string;
  t_object : option string;
  t_confidence : option Q
}.

Record Exchange := mkExchange {
  x_entities : option (list EntityIn);
  x_triples : option (list TripleIn);
  x_cooccurrences : option (list (option string * option string));
  x_agentId : option string;
  x_sourceExchangeId : option string;
  x_sourceDate : option string
}.

(** [[aId, bId].sort()]: the two strings in code-unit order. *)
Definition sort_pair (a b : string) : string * string :=
  if JsString.ltb b a then (b, a) else (a, b).

Definition register_entities (aid : string) (es : list EntityIn) : M unit :=
  for_each (fun e => _ <- upsertEntity (name e) (type e) (Some aid) ;; ret tt) es.

Definition write_triples (aid : string) (src : option string) (date : string)
    (ts : list TripleIn) : M (list Z) :=
  for_each_push (fun t =>
    addTriple (mkTripleArgs (t_subject t) (t_predicate t) (t_object t)
                 (t_confidence t) src (Some date) (Some aid) false)) ts.

Definition update_cooccurrences (cs : list (option string * option string))
    : M unit :=
  for_each (fun '(a, b) =>
    aId <- (s <- the_string a ;; ret (normalizeEntityId s)) ;;
    bId <- (s <- the_string b ;; ret (normalizeEntityId s)) ;;
    let sorted := sort_pair aId bId in
    run (fun now s =>
      (tt, Stmt.upsertCooccurrence now (fst sorted) (snd sorted) s))) cs.

(** [writeExchange({entities, triples, cooccurrences, agentId,
    sourceExchangeId, sourceDate})] *)
Definition writeExchange (x : Exchange) : M (list Z) :=
  let aid := js_or (x_agentId x) "main" in
  date <- match x_sourceDate x with
          | Some d => if is_empty d then today else ret d
          | None => today
          end ;;
  transaction (
    _ <- register_entities aid (default [] (x_entities x)) ;;
    tripleIds <- write_triples aid (x_sourceExchangeId x) date
                   (default [] (x_triples x)) ;;
    _ <- update_cooccurrences (default [] (x_cooccurrences x)) ;;
    ret tripleIds).

(** [getTriplesFor(entityName, agentId, limit)]; [seen] is the [Set] of
    ids already pushed. *)
Fixpoint dedup_by_id (seen : gset Z) (l : list Triple.t) : list Triple.t :=
  match l with
  | [] => []
  | t :: l' =>
      if decide (Triple.id t ∈ seen) then dedup_by_id seen l'
      else t :: dedup_by_id ({[Triple.id t]} ∪ seen) l'
  end.

Definition getTriplesFor (entityName : string) (agentId : option string)
    (limit : option Z) (s : Store) : list Triple.t :=
  let id := normalizeEntityId entityName in
  let aid := js_or agentId "main" in
  let lim := js_or_int limit 50 in
  let asSubject := Stmt.getTriplesForSubject id aid lim s in
  let asObject := Stmt.getTriplesForObject id aid lim s in
  dedup_by_id ∅ (asSubject ++ asObject).

(** [getCooccurrences(entityName, limit)] *)
Definition getCooccurrences (entityName : string) (limit : option Z)
    (s : Store) : list Cooc.t :=
  let id := normalizeEntityId entityName in
  Stmt.getCooccurrences id id (js_or_int limit 20) s.

Record Stats := mkStats {
  entityCount : Z;
  tripleCount : Z;
  recentEntities : list Entity.t;
  topCooccurrences : list Cooc.t
}.

(** [getStats(agentId)] *)
Definition getStats (agentId : option string) (s : Store) : Stats :=
  let aid := js_or agentId "main" in
  mkStats (Stmt.countEntities aid s) (Stmt.countTriples aid s)
    (Stmt.recentEntities aid 10 s) (Stmt.topCooccurrences 10 s).

Record Query := mkQuery {
  q_subject : option string;
  q_predicate : option string;
  q_object : option string;
  q_agentId : option string;
  q_limit : option Z
}.

(** A condition of the [WHERE] clause that is present only when the
    filter is truthy. *)
Definition where_eq (filter : option string) (norm : string -> string)
    (column : string) : Prop :=
  match filter with
  | Some v => if is_empty v then True else column = norm v
  | None => True
  end.

#[global] Instance where_eq_dec f n c : Decision (where_eq f n c).
Proof. unfold where_eq. destruct f as [v|]; [destruct (is_empty v)|]; apply _. Defined.

(** [queryTriples({subject, predicate, object, agentId, limit})] *)
Definition queryTriples (q : Query) (s : Store) : list Triple.t :=
  Sql.limit (js_or_int (q_limit q) 50)
    (Sql.order_by Stmt.newer_first
       (filter (fun t =>
                  where_eq (q_subject q) normalizeEntityId (Triple.subject t) /\
                  where_eq (q_predicate q) id (Triple.predicate t) /\
                  where_eq (q_object q) normalizeEntityId (Triple.object t) /\
                  where_eq (q_agentId q) id (Triple.agent_id t))
          (triples s))).

(** The info object that [statement.run] returns; its [lastInsertRowid] is
    left out. *)
Record RunInfo := mkRunInfo {
  changes : Z
}.

(** [deleteTriplesByExchange(exchangeId)] *)
Definition deleteTriplesByExchange (exchangeId : string) : M RunInfo :=
  run (fun _ s =>
         let '(n, s') := Stmt.deleteTriplesByExchange exchangeId s in
         (mkRunInfo n, s')).

End GraphStore.

(** ** The link-expansion searcher *)

Module GraphSearcher.

(** The retrieval section of the configuration; every field may be
    missing. *)
Record Config := mkConfig {
  cfg_maxResults : option Z;
  cfg_minSharedEntities : option Z;
  cfg_cooccurrenceBoost : option Q
}.

(** The fields the constructor sets. *)
Definition maxResults (c : Config) : Z := js_or_int (cfg_maxResults c) 20.
Definition minSharedEntities (c : Config) : Z :=
  js_or_int (cfg_minSharedEntities c) 1.
Definition cooccurrenceBoost (c : Config) : Q :=
  js_or_num (cfg_cooccurrenceBoost c) (1 # 10).

(** An entity mention of the query, as the extractor gives it. *)
Record QEntity := mkQEntity {
  name : string;
  type : string
}.

(** The value kept per exchange in the [exchangeScores] map; the
    [sharedEntities] set is the list of its members in insertion order. *)
Record Entry := mkEntry {
  e_id : string;
  e_score : Q;
  e_sharedEntities : list string;
  e_maxConfidence : Q;
  e_newestDate : option string
}.

Record Hit := mkHit {
  id : string;
  score : Q;
  sharedEntityCount : Z;
  sharedEntities : list string;
  maxConfidence : Q;
  date : option string
}.

Record Result := mkResult {
  exchanges : list Hit;
  entities : list QEntity
}.

(** Steps 1: the gazetteer matches whose lowercased name is not there yet
    are pushed after the extracted entities. *)
Fixpoint push_new (entityNames : gset string) (gazetteered : list QEntity)
    : list QEntity :=
  match gazetteered with
  | [] => []
  | g :: gs =>
      if decide (toLowerCase (name g) ∈ entityNames) then push_new entityNames gs
      else g :: push_new ({[toLowerCase (name g)]} ∪ entityNames) gs
  end.

Definition merge_entities (extracted gazetteered : list QEntity) : list QEntity :=
  extracted ++
  push_new (list_to_set ((fun e => toLowerCase (name e)) <$> extracted)) gazetteered.

(** [Set.prototype.add] on the insertion-ordered list of members. *)
Definition set_add (x : string) (l : list string) : list string :=
  if decide (x ∈ l) then l else l ++ [x].

Definition fresh_entry (exchangeId : string) : Entry :=
  mkEntry exchangeId 0 [] 0 None.

(** [if (!exchangeScores.has(id)) exchangeScores.set(id, fresh);
     entry = exchangeScores.get(id); ... entry is updated in place].
    The map is the list of its entries in insertion order. *)
Definition update_entry (exchangeId : string) (f : Entry -> Entry)
    (m : list Entry) : list Entry :=
  if decide (exchangeId ∈ e_id <$> m) then
    (fun e => if decide (e_id e = exchangeId) then f e else e) <$> m
  else m ++ [f (fresh_entry exchangeId)].

(** [if (!entry.newestDate || triple.source_date > entry.newestDate)
     entry.newestDate = triple.source_date] *)
Definition newer_date (source_date : string) (newest : option string)
    : option string :=
  match newest with
  | Some d =>
      if is_empty d || JsString.ltb d source_date then Some source_date
      else Some d
  | None => Some source_date
  end.

(** The body of the loop over the triples of a query entity. *)
Definition direct_hit (entityName : string) (t : Triple.t) (e : Entry) : Entry :=
  let c := js_or_num (Some (Triple.confidence t)) 1 in
  mkEntry (e_id e) (e_score e + c)
    (set_add (toLowerCase entityName) (e_sharedEntities e))
    (Qmax (e_maxConfidence e) c)
    (newer_date (Triple.source_date t) (e_newestDate e)).

(** The body of the loop over the triples of a co-occurring entity. *)
Definition cooc_hit (boost : Q) (count : Z) (t : Triple.t) (e : Entry) : Entry :=
  mkEntry (e_id e) (e_score e + boost * inject_Z (js_or_int (Some count) 1))
    (e_sharedEntities e) (e_maxConfidence e)
    (newer_date (Triple.source_date t) (e_newestDate e)).

(** [if (!triple.source_exchange_id) continue] *)
Definition exchange_of (t : Triple.t) : option string :=
  GraphStore.or_null (Triple.source_exchange_id t).

Definition score_triples (hit : Triple.t -> Entry -> Entry)
    (ts : list Triple.t) (m : list Entry) : list Entry :=
  fold_left (fun m t =>
               match exchange_of t with
               | Some x => update_entry x (hit t) m
               | None => m
               end) ts m.

(** [_getTriplesByNormalizedId(normalizedId, agentId, limit)]:
    [SELECT * FROM triples WHERE (subject = ? OR object = ?) AND
     agent_id = ? ORDER BY updated_at DESC LIMIT ?] *)
Definition getTriplesByNormalizedId (normalizedId : string)
    (agentId : option string) (limit : option Z) (s : Store) : list Triple.t :=
  let aid := js_or agentId "main" in
  let lim := js_or_int limit 50 in
  Sql.limit lim
    (Sql.order_by Stmt.newer_first
       (filter (fun t => (Triple.subject t = normalizedId \/
                          Triple.object t = normalizedId) /\
                         Triple.agent_id t = aid) (triples s))).

(** The co-occurring entity is whichever side is not the query entity. *)
Definition other_side (normalizedName : string) (c : Cooc.t) : string :=
  if decide (Cooc.entity_a c = normalizedName) then Cooc.entity_b c
  else Cooc.entity_a c.

(** Steps 2 and 3 for one query entity. *)
Definition expand_entity (cfg : Config) (aid : string) (s : Store)
    (m : list Entry) (entity : QEntity) : list Entry :=
  let triples := GraphStore.getTriplesFor (name entity) (Some aid) (Some 100) s in
  let m1 := score_triples (direct_hit (name entity)) triples m in
  let cooccurrences := GraphStore.getCooccurrences (name entity) (Some 5) s in
  fold_left (fun m cooc =>
               let normalizedName := normalizeEntityId (name entity) in
               let coocEntityId := other_side normalizedName cooc in
               let coocTriples :=
                 getTriplesByNormalizedId coocEntityId (Some aid) (Some 20) s in
               score_triples (cooc_hit (cooccurrenceBoost cfg) (Cooc.count cooc))
                 coocTriples m)
    cooccurrences m1.

Definition to_hit (e : Entry) : Hit :=
  mkHit (e_id e) (e_score e) (Z.of_nat (length (e_sharedEntities e)))
    (e_sharedEntities e) (e_maxConfidence e) (e_newestDate e).

(** [results.sort((a, b) => b.score - a.score)]: [a] stays before [b] when
    the comparator is not positive. *)
Definition by_score (a b : Hit) : bool := Qle_bool (score b) (score a).

(** [l.slice(0, n)] *)
Definition slice0 {A} (n : Z) (l : list A) : list A :=
  if n <? 0 then take (Z.to_nat (Z.of_nat (length l) + n)) l
  else take (Z.to_nat n) l.

(** Step 4 and 5: the entries with enough shared entities, by score. *)
Definition rank (cfg : Config) (m : list Entry) : list Hit :=
  Sql.order_by by_score
    (to_hit <$>
       filter (fun e => minSharedEntities cfg <= Z.of_nat (length (e_sharedEntities e))) m).

(** [search(query, agentId, options)].  The extractor is not part of this
    development: [extracted] stands for
    [extractor.extractEntities(query, ...)] and [gazetteered] for
    [extractor.matchGazetteer(query, options.knownEntities || [])];
    [limit] is [options.limit]. *)
Definition search (cfg : Config) (extracted gazetteered : list QEntity)
    (agentId : option string) (limit : option Z) (s : Store) : Result :=
  let aid := js_or agentId "main" in
  let lim := js_or_int limit (maxResults cfg) in
  let queryEntities := merge_entities extracted gazetteered in
  match queryEntities with
  | [] => mkResult [] []
  | _ =>
      let exchangeScores := fold_left (expand_entity cfg aid s) queryEntities [] in
      mkResult (slice0 lim (rank cfg exchangeScores)) queryEntities
  end.

End GraphSearcher.

(** ** Sample data for the examples *)

Module Sample.

(** A clock that advances by one second per statement, and a storage
    layer that never fails. *)
Definition second (n : nat) : string :=
  "2026-03-01 10:00:" +:+
  String (ascii_of_nat (48 + n / 10)) (String (ascii_of_nat (48 + n mod 10)) "").

Definition env : Env := mkEnv second (fun _ => false).

(** The same clock with a storage failure at the n-th statement. *)
Definition env_failing_at (n : nat) : Env :=
  mkEnv second (fun k => bool_decide (k = n)).

Definition start : World := mkWorld empty_store 0.

(** The world after running [m], whatever its outcome. *)
Definition after {A} (m : M A) (e : Env) (w : World) : World := snd (m e w).

Definition alice_visited_paris : GraphStore.Exchange :=
  GraphStore.mkExchange
    (Some [GraphStore.mkEntityIn (Some "Alice") (Some "PERSON");
           GraphStore.mkEntityIn (Some "Paris") (Some "PLACE")])
    (Some [GraphStore.mkTripleIn (Some "Alice") "visited" (Some "Paris")
             (Some (8 # 10))])
    (Some [(Some "Paris", Some "Alice")])
    None (Some "E1") (Some "2026-03-01").

Definition world1 : World :=
  after (GraphStore.writeExchange alice_visited_paris) env start.

End Sample.

(** ** Observations used to state the properties *)

(** The row of [triples] with a given id. *)
Definition triple_with_id (id : Z) (s : Store) : option Triple.t :=
  head (filter (fun t => Triple.id t = id) (triples s)).

(** The effective arguments of [addTriple]: the normalized key and the
    confidence after [|| 1.0]. *)
Definition effective_confidence (a : GraphStore.TripleArgs) : Q :=
  js_or_num (GraphStore.confidence a) 1.


(** The value [addTriple] stores as [source_date] when it inserts at time
    [now]. *)
Definition effective_date (a : GraphStore.TripleArgs) (now : string) : string :=
  match GraphStore.sourceDate a with
  | Some d => if is_empty d then JsString.prefix 10 now else d
  | None => JsString.prefix 10 now
  end.

(** The key under which [addTriple] looks for an existing row. *)
Definition has_key (a : GraphStore.TripleArgs) (subjectId objectId : string) : Prop :=
  exists s o,
    GraphStore.subject a = Some s /\ GraphStore.object a = Some o /\
    normalizeEntityId s = subjectId /\ normalizeEntityId o = objectId.

(** The ASCII case folding of [LIKE], on a whole string, and the prefixes
    that contain none of its wildcards. *)
Fixpoint fold_string (s : string) : string :=
  match s with
  | EmptyString => EmptyString
  | String c s' => String (Sql.fold_ascii c) (fold_string s')
  end.

Definition not_wildcard (c : ascii) : bool :=
  negb (bool_decide (c = "%"%char)) && negb (bool_decide (c = "_"%char)).

(** Two triples that mention [alice], the older one as subject and the newer
    one as object. *)
Module Sample2.
Definition knows (s o : string) : GraphStore.TripleArgs :=
  GraphStore.mkTripleArgs (Some s) "knows" (Some o) None (Some "E1") None None false.

Definition world : World :=
  Sample.after (GraphStore.addTriple (knows "Carol" "Alice")) Sample.env
    (Sample.after (GraphStore.addTriple (knows "Alice" "Bob")) Sample.env
       Sample.start).
End Sample2.

(** The co-occurrence rows are stored with their two ids in order. *)
Definition cooc_sorted (s : Store) : Prop :=
  Forall (fun c => JsString.leb (Cooc.entity_a c) (Cooc.entity_b c) = true)
    (cooccurrences s).

(** The date [writeExchange] passes to [addTriple], read at time [now]. *)
Definition exchange_date (x : GraphStore.Exchange) (now : string) : string :=
  match GraphStore.x_sourceDate x with
  | Some d => if is_empty d then JsString.prefix 10 now else d
  | None => JsString.prefix 10 now
  end.

(** The row of [triples] that a returned id stands for carries the
    normalized key of the input triple. *)
Definition id_of_triple (aid : string) (s : Store) (t : GraphStore.TripleIn)
    (id : Z) : Prop :=
  exists row subject object,
    triple_with_id id s = Some row /\
    GraphStore.t_subject t = Some subject /\
    GraphStore.t_object t = Some object /\
    Stmt.triple_key (normalizeEntityId subject) (GraphStore.t_predicate t)
      (normalizeEntityId object) aid row.

Definition entity_registered (s : Store) (e : GraphStore.EntityIn) : Prop :=
  exists n,
    GraphStore.name e = Some n /\
    normalizeEntityId n ∈ Entity.id <$> entities s.

Definition pair_counted (s : Store) (ab : option string * option string) : Prop :=
  exists a b,
    ab = (Some a, Some b) /\
    GraphStore.sort_pair (normalizeEntityId a) (normalizeEntityId b)
      ∈ Stmt.cooc_key <$> cooccurrences s.

(** ** What the search adds up, stated per exchange

    The contributions to the scores, in the order in which [search] visits
    them: for each query entity, first one per triple that touches the
    entity, then, for each of its top co-occurrences in turn, one per triple
    of the co-occurring entity. *)

Module Scoring.

Import GraphSearcher.

Inductive Contribution :=
  | Direct (entityName : string) (t : Triple.t)
  | Expansion (cooc : Cooc.t) (t : Triple.t).

Definition triple_of (c : Contribution) : Triple.t :=
  match c with
  | Direct _ t => t
  | Expansion _ t => t
  end.

(** The exchange a contribution goes to; none when the triple carries no
    [source_exchange_id]. *)
Definition exchange (c : Contribution) : option string :=
  exchange_of (triple_of c).

Definition entity_contributions (aid : string) (s : Store) (q : QEntity)
    : list Contribution :=
  (Direct (name q) <$> GraphStore.getTriplesFor (name q) (Some aid) (Some 100) s) ++
  flat_map
    (fun cooc =>
       Expansion cooc <$>
         getTriplesByNormalizedId (other_side (normalizeEntityId (name q)) cooc)
           (Some aid) (Some 20) s)
    (GraphStore.getCooccurrences (name q) (Some 5) s).

Definition all_contributions (aid : string) (s : Store) (qs : list QEntity)
    : list Contribution :=
  flat_map (entity_contributions aid s) qs.

Definition for_exchange (x : string) (cs : list Contribution) : list Contribution :=
  filter (fun c => exchange c = Some x) cs.

(** What one contribution adds to the score: the confidence of the triple
    (1 when it is zero), or the boost times the co-occurrence count. *)
Definition weight (cfg : Config) (c : Contribution) : Q :=
  match c with
  | Direct _ t => js_or_num (Some (Triple.confidence t)) 1
  | Expansion cooc _ =>
      cooccurrenceBoost cfg * inject_Z (js_or_int (Some (Cooc.count cooc)) 1)
  end.






(** The update of the entry that a contribution stands for, and the loop
    over a list of contributions. *)
Definition apply (cfg : Config) (c : Contribution) : Entry -> Entry :=
  match c with
  | Direct n t => direct_hit n t
  | Expansion cooc t => cooc_hit (cooccurrenceBoost cfg) (Cooc.count cooc) t
  end.

Definition accumulate (cfg : Config) (cs : list Contribution) (m : list Entry)
    : list Entry :=
  fold_left (fun m c =>
               match exchange c with
               | Some x => update_entry x (apply cfg c) m
               | None => m
               end) cs m.

Definition summary (cfg : Config) (cs : list Contribution) (x : string) : Entry :=
  fold_left (fun e c => apply cfg c e) (for_exchange x cs) (fresh_entry x).

End Scoring.

(** A store where [bob] co-occurs with [alice]: exchange [E1] mentions
    [alice], exchange [E2] mentions only [bob]. *)
Module Sample3.
Definition exchange1 : GraphStore.Exchange :=
  GraphStore.mkExchange
    (Some [GraphStore.mkEntityIn (Some "Alice") (Some "PERSON");
           GraphStore.mkEntityIn (Some "Bob") (Some "PERSON")])
    (Some [GraphStore.mkTripleIn (Some "Alice") "knows" (Some "Bob") (Some (8 # 10))])
    (Some [(Some "Alice", Some "Bob")])
    None (Some "E1") (Some "2026-03-01").

Definition exchange2 : GraphStore.Exchange :=
  GraphStore.mkExchange
    (Some [GraphStore.mkEntityIn (Some "Bob") (Some "PERSON");
           GraphStore.mkEntityIn (Some "Rome") (Some "PLACE")])
    (Some [GraphStore.mkTripleIn (Some "Bob") "visited" (Some "Rome") (Some (5 # 10))])
    None None (Some "E2") (Some "2026-03-02").

Definition world : World :=
  Sample.after (GraphStore.writeExchange exchange2) Sample.env
    (Sample.after (GraphStore.writeExchange exchange1) Sample.env Sample.start).

Definition config : GraphSearcher.Config := GraphSearcher.mkConfig None None None.

Definition query : list GraphSearcher.QEntity :=
  [GraphSearcher.mkQEntity "Alice" "PERSON"].
End Sample3.


(** ** The store as a state machine

    The mutating methods of [GraphStore], as the calls a client can make,
    and the properties of the rows that they keep. *)

Definition key_of (t : Triple.t) : string * string * string * string :=
  (Triple.subject t, Triple.predicate t, Triple.object t, Triple.agent_id t).

Definition is_normalized (id : string) : Prop := normalizeEntityId id = id.

Record store_inv (s : Store) : Prop := {
  inv_wf : store_wf s;
  (* one row per (subject, predicate, object, agent_id) *)
  inv_keys : NoDup (key_of <$> triples s);
  inv_triples :
    Forall (fun t =>
              is_normalized (Triple.subject t) /\
              is_normalized (Triple.object t) /\
              ~ (Triple.confidence t == 0)%Q /\
              Triple.source_exchange_id t <> Some "" /\
              Triple.agent_id t <> "") (triples s);
  inv_entities :
    Forall (fun e =>
              Entity.id e = normalizeEntityId (Entity.canonical_name e) /\
              1 <= Entity.mention_count e /\
              Entity.agent_id e <> "") (entities s);
  inv_cooccurrences :
    Forall (fun c =>
              JsString.leb (Cooc.entity_a c) (Cooc.entity_b c) = true /\
              is_normalized (Cooc.entity_a c) /\
              is_normalized (Cooc.entity_b c) /\
              1 <= Cooc.count c) (cooccurrences s)
}.

Inductive Call :=
  | UpsertEntity (name type agentId : option string)
  | ResolveEntity (name type agentId : option string)
  | AddTriple (a : GraphStore.TripleArgs)
  | WriteExchange (x : GraphStore.Exchange)
  | DeleteTriplesByExchange (exchangeId : string).

(** One call; its result is dropped, its exception is the outcome. *)
Definition perform (c : Call) : M unit :=
  match c with
  | UpsertEntity name type agentId =>
      _ <- GraphStore.upsertEntity name type agentId ;; ret tt
  | ResolveEntity name type agentId =>
      _ <- GraphStore.resolveEntity name type agentId ;; ret tt
  | AddTriple a => _ <- GraphStore.addTriple a ;; ret tt
  | WriteExchange x => _ <- GraphStore.writeExchange x ;; ret tt
  | DeleteTriplesByExchange exchangeId =>
      _ <- GraphStore.deleteTriplesByExchange exchangeId ;; ret tt
  end.

(** A client that makes the calls one after the other and goes on after an
    exception, as the plugin does around [writeExchange]. *)
Definition perform_all (cs : list Call) (env : Env) (w : World) : World :=
  fold_left (fun w c => snd (perform c env w)) cs w.

(** ** [GraphSearcher.getEntityContext] *)

Module EntityContext.

Record Relationship := mkRelationship {
  subject : string;
  object : string;
  confidence : Q;
  date : string
}.

Record Cooccurring := mkCooccurring {
  entity : string;
  count : Z;
  lastSeen : string
}.

(** The object returned; [relationships] is a plain object used as a map
    from predicate to array. *)
Record t := mk {
  c_entity : Entity.t;
  relationships : gmap string (list Relationship);
  cooccurrences : list Cooccurring;
  tripleCount : Z
}.

(** The property names that every plain object inherits from
    [Object.prototype]: reading one of them on [{}] gives a function (for
    [__proto__], the prototype), never [undefined]. *)
Definition inherited_names : list string :=
  ["constructor"; "__defineGetter__"; "__defineSetter__"; "hasOwnProperty";
   "__lookupGetter__"; "__lookupSetter__"; "isPrototypeOf";
   "propertyIsEnumerable"; "toString"; "valueOf"; "__proto__";
   "toLocaleString"].

Definition relationship_of (t : Triple.t) : Relationship :=
  mkRelationship (Triple.subject t) (Triple.object t) (Triple.confidence t)
    (Triple.source_date t).

(** [if (!relationships[p]) relationships[p] = []; relationships[p].push(r)]:
    an own property is an array and gets the element; an inherited one is
    truthy and has no [push], which throws. *)
Fixpoint group_by_predicate (ts : list Triple.t)
    (relationships : gmap string (list Relationship))
    : error + gmap string (list Relationship) :=
  match ts with
  | [] => inr relationships
  | t :: ts' =>
      let p := Triple.predicate t in
      match relationships !! p with
      | Some rs =>
          group_by_predicate ts' (<[p := rs ++ [relationship_of t]]> relationships)
      | None =>
          if decide (p ∈ inherited_names) then inl TypeError
          else group_by_predicate ts' (<[p := [relationship_of t]]> relationships)
      end
  end.

Definition cooccurring_of (id : string) (c : Cooc.t) : Cooccurring :=
  mkCooccurring
    (if decide (Cooc.entity_a c = id) then Cooc.entity_b c else Cooc.entity_a c)
    (Cooc.count c) (Cooc.last_seen c).

(** [getEntityContext(entityName, agentId)]; [None] is [null]. *)
Definition getEntityContext (entityName : string) (agentId : option string)
    (s : Store) : error + option t :=
  let aid := js_or agentId "main" in
  let id := normalizeEntityId entityName in
  match GraphStore.getEntity id s with
  | None => inr None
  | Some entity =>
      let triples := GraphStore.getTriplesFor entityName (Some aid) (Some 50) s in
      let cooccurrences := GraphStore.getCooccurrences entityName (Some 10) s in
      match group_by_predicate triples ∅ with
      | inl e => inl e
      | inr relationships =>
          inr (Some (mk entity relationships
                       (cooccurring_of id <$> cooccurrences)
                       (Z.of_nat (length triples))))
      end
  end.

End EntityContext.

(** ** The plugin: [getKnownEntities] of [index.js] *)

(** [try { return state.store._recentEntities.all(state.agentId, 200) }
     catch { return [] }] *)
Definition getKnownEntities (agentId : string) : M (list Entity.t) :=
  fun env w =>
    match run (fun _ s => (Stmt.recentEntities agentId 200 s, s)) env w with
    | (inr rows, w') => (inr rows, w')
    | (inl _, w') => (inr [], w')
    end.

(** ** What a later database retains of an earlier one *)

Definition entity_kept (e e' : Entity.t) : Prop :=
  Entity.id e' = Entity.id e /\
  Entity.canonical_name e' = Entity.canonical_name e /\
  Entity.entity_type e' = Entity.entity_type e /\
  Entity.first_seen e' = Entity.first_seen e /\
  Entity.agent_id e' = Entity.agent_id e /\
  Entity.mention_count e <= Entity.mention_count e'.

Definition cooc_kept (c c' : Cooc.t) : Prop :=
  Stmt.cooc_key c' = Stmt.cooc_key c /\ Cooc.count c <= Cooc.count c'.

Definition triple_kept (t t' : Triple.t) : Prop :=
  Triple.id t' = Triple.id t /\
  key_of t' = key_of t /\
  Triple.source_exchange_id t' = Triple.source_exchange_id t /\
  Triple.source_date t' = Triple.source_date t /\
  Triple.created_at t' = Triple.created_at t /\
  (Triple.confidence t <= Triple.confidence t')%Q.

Record grows (s s' : Store) : Prop := {
  grows_seq : triples_seq s <= triples_seq s';
  grows_entities :
    forall e, e ∈ entities s -> exists e', e' ∈ entities s' /\ entity_kept e e';
  grows_cooccurrences :
    forall c, c ∈ cooccurrences s ->
              exists c', c' ∈ cooccurrences s' /\ cooc_kept c c';
  (* a row whose id had been handed out before is the row of then *)
  grows_triples :
    forall t', t' ∈ triples s' -> Triple.id t' <= triples_seq s ->
               exists t, t ∈ triples s /\ triple_kept t t'
}.

(** ** Counting mentions *)

(** The mention count of an id, 0 when it is not registered, and the count
    of a pair, 0 when it has no row. *)
Definition mention_count_of (id : string) (s : Store) : Z :=
  default 0 (Entity.mention_count <$> Stmt.getEntity id s).

Definition cooccurrence_count_of (key : string * string) (s : Store) : Z :=
  default 0 (Cooc.count <$>
               head (filter (fun c => Stmt.cooc_key c = key) (cooccurrences s))).

(** How often a batch mentions an id, and how often it has a pair. *)
Definition mentions_in (id : string) (es : list GraphStore.EntityIn) : nat :=
  length (filter (fun e => normalizeEntityId <$> GraphStore.name e = Some id) es).

Definition pair_key (ab : option string * option string)
    : option (string * string) :=
  match ab with
  | (Some a, Some b) =>
      Some (GraphStore.sort_pair (normalizeEntityId a) (normalizeEntityId b))
  | _ => None
  end.

Definition pairs_in (key : string * string)
    (cs : list (option string * option string)) : nat :=
  length (filter (fun ab => pair_key ab = Some key) cs).

(** Two input triples state the same fact: same normalized subject and
    object, same predicate. *)
Definition same_fact (t1 t2 : GraphStore.TripleIn) : Prop :=
  normalizeEntityId <$> GraphStore.t_subject t1 =
    normalizeEntityId <$> GraphStore.t_subject t2 /\
  GraphStore.t_predicate t1 = GraphStore.t_predicate t2 /\
  normalizeEntityId <$> GraphStore.t_object t1 =
    normalizeEntityId <$> GraphStore.t_object t2.

(** A batch that states one fact twice, in different raw forms, and another
    fact once. *)
Module Sample4.
Definition exchange : GraphStore.Exchange :=
  GraphStore.mkExchange None
    (Some [GraphStore.mkTripleIn (Some "Alice") "visited" (Some "Paris") (Some (8 # 10));
           GraphStore.mkTripleIn (Some "Alice") "likes" (Some "Paris") None;
           GraphStore.mkTripleIn (Some " alice") "visited" (Some "PARIS ") (Some (3 # 10))])
    None None (Some "E9") None.
End Sample4.

(** ** Reading triples *)

(** A filter of [queryTriples] that is given and not the empty string
    holds of a column. *)
Definition filter_holds (filter : option string) (norm : string -> string)
    (column : string) : Prop :=
  forall v, filter = Some v -> v <> "" -> column = norm v.

Definition matches (q : GraphStore.Query) (t : Triple.t) : Prop :=
  filter_holds (GraphStore.q_subject q) normalizeEntityId (Triple.subject t) /\
  filter_holds (GraphStore.q_predicate q) id (Triple.predicate t) /\
  filter_holds (GraphStore.q_object q) normalizeEntityId (Triple.object t) /\
  filter_holds (GraphStore.q_agentId q) id (Triple.agent_id t).

(** The query for one fact of one agent. *)
Definition query_for (a : GraphStore.TripleArgs) (limit : option Z)
    : GraphStore.Query :=
  GraphStore.mkQuery (GraphStore.subject a) (Some (GraphStore.predicate a))
    (GraphStore.object a) (Some (js_or (GraphStore.agentId a) "main")) limit.

(** ** Reading an entity's context *)

(** The number of relationships listed in the groups of a map. *)
Definition group_total (m : gmap string (list EntityContext.Relationship)) : nat :=
  sum_list_with (fun kv => length kv.2) (map_to_list m).

(** The group that the triples [ts] give for predicate [p], in their
    order. *)
Definition group_of (p : string) (ts : list Triple.t)
    : list EntityContext.Relationship :=
  EntityContext.relationship_of <$> filter (fun t => Triple.predicate t = p) ts.

Definition involves (id : string) (r : EntityContext.Relationship) : Prop :=
  EntityContext.subject r = id \/ EntityContext.object r = id.

(** The store of [Sample3] after another agent has written a triple about
    the same entity. *)
Module Sample5.
Definition world : World :=
  Sample.after
    (GraphStore.addTriple
       (GraphStore.mkTripleArgs (Some "Alice") "visited" (Some "Rome") None
          (Some "E7") None (Some "other") false))
    Sample.env Sample3.world.
End Sample5.

(** ** The date of a hit and the weights of a search *)

(** The date of the triple of a contribution. *)
Definition date_of (c : Scoring.Contribution) : string :=
  Triple.source_date (Scoring.triple_of c).

(** What a contribution weighs when no fallback applies. *)
Definition plain_weight (cfg : GraphSearcher.Config) (c : Scoring.Contribution) : Q :=
  match c with
  | Scoring.Direct _ t => Triple.confidence t
  | Scoring.Expansion cooc _ =>
      GraphSearcher.cooccurrenceBoost cfg * inject_Z (Cooc.count cooc)
  end.

(** The name under which the search compares query entities. *)
Definition lower_name (e : GraphSearcher.QEntity) : string :=
  toLowerCase (GraphSearcher.name e).

(** * Properties *)

(** ** Strings and [normalizeEntityId] *)

Example normalizeEntityId_Foo_Bar : normalizeEntityId " Foo  Bar " = "foo_bar".
Proof. reflexivity. Qed.

Example normalizeEntityId_tabs :
  normalizeEntityId (String "009" "New" +:+ String "010" "York ") = "new_york".
Proof. reflexivity. Qed.

(** *** Facts on code units and on the string functions *)

Lemma lower_char_idem c : lower_char (lower_char c) = lower_char c.
Proof. each_char c. Qed.

Lemma is_upper_lower_char c : is_upper (lower_char c) = false.
Proof. each_char c. Qed.

Lemma toLowerCase_idem s : toLowerCase (toLowerCase s) = toLowerCase s.
Proof. induction s as [|c s IH]; simpl; [done|]. by rewrite lower_char_idem, IH. Qed.

Lemma all_chars_toLowerCase s : all_chars is_lower_fixed (toLowerCase s) = true.
Proof.
  induction s as [|c s IH]; simpl; [done|].
  unfold is_lower_fixed at 1. by rewrite is_upper_lower_char, IH.
Qed.

Lemma all_chars_trimStart P s :
  all_chars P s = true -> all_chars P (trimStart s) = true.
Proof.
  induction s as [|c s IH]; simpl; [done|].
  intros [Hc Hs]%andb_true_iff. destruct (is_space c); [by apply IH|].
  simpl. by rewrite Hc, Hs.
Qed.

Lemma all_chars_trimEnd P s :
  all_chars P s = true -> all_chars P (trimEnd s) = true.
Proof.
  induction s as [|c s IH]; simpl; [done|].
  intros [Hc Hs]%andb_true_iff.
  destruct (is_space c && is_empty (trimEnd s)); [done|].
  simpl. by rewrite Hc, IH.
Qed.

Lemma all_chars_replace_ws_runs P sep b s :
  P sep = true -> all_chars P s = true ->
  all_chars P (replace_ws_runs sep b s) = true.
Proof.
  intros Hsep. revert b. induction s as [|c s IH]; intros b; simpl; [done|].
  intros [Hc Hs]%andb_true_iff.
  destruct (is_space c); [destruct b|]; simpl; rewrite ?Hsep, ?Hc; simpl; by apply IH.
Qed.

Lemma no_space_replace_ws_runs sep b s :
  is_space sep = false ->
  all_chars not_space (replace_ws_runs sep b s) = true.
Proof.
  intros Hsep. revert b. induction s as [|c s IH]; intros b; simpl; [done|].
  destruct (is_space c) eqn:Hc; [destruct b|]; simpl; unfold not_space at 1;
    rewrite ?Hsep, ?Hc; simpl; apply IH.
Qed.

Lemma toLowerCase_fixed s :
  all_chars is_lower_fixed s = true -> toLowerCase s = s.
Proof.
  induction s as [|c s IH]; simpl; [done|].
  intros [Hc Hs]%andb_true_iff. rewrite IH by done.
  unfold lower_char. unfold is_lower_fixed in Hc.
  by destruct (is_upper c).
Qed.

Lemma trimStart_no_space s : all_chars not_space s = true -> trimStart s = s.
Proof.
  destruct s as [|c s]; simpl; [done|].
  intros [Hc _]%andb_true_iff. unfold not_space in Hc. by destruct (is_space c).
Qed.

Lemma trimEnd_no_space s : all_chars not_space s = true -> trimEnd s = s.
Proof.
  induction s as [|c s IH]; simpl; [done|].
  intros [Hc Hs]%andb_true_iff. rewrite IH by done.
  unfold not_space in Hc. by destruct (is_space c).
Qed.

Lemma replace_ws_runs_no_space sep b s :
  all_chars not_space s = true -> replace_ws_runs sep b s = s.
Proof.
  revert b. induction s as [|c s IH]; intros b; simpl; [done|].
  intros [Hc Hs]%andb_true_iff. unfold not_space in Hc.
  destruct (is_space c); [done|]. by rewrite IH.
Qed.

Lemma normalizeEntityId_no_space name :
  all_chars not_space (normalizeEntityId name) = true.
Proof. by apply no_space_replace_ws_runs. Qed.

Lemma normalizeEntityId_lower name :
  all_chars is_lower_fixed (normalizeEntityId name) = true.
Proof.
  apply all_chars_replace_ws_runs; [done|].
  apply all_chars_trimEnd, all_chars_trimStart, all_chars_toLowerCase.
Qed.

Lemma normalizeEntityId_fixed s :
  all_chars not_space s = true -> all_chars is_lower_fixed s = true ->
  normalizeEntityId s = s.
Proof.
  intros Hsp Hlo. unfold normalizeEntityId, trim.
  rewrite (toLowerCase_fixed s Hlo), (trimStart_no_space s Hsp),
    (trimEnd_no_space s Hsp). by apply replace_ws_runs_no_space.
Qed.

Lemma normalizeEntityId_idem name :
  normalizeEntityId (normalizeEntityId name) = normalizeEntityId name.
Proof.
  apply normalizeEntityId_fixed;
    [apply normalizeEntityId_no_space | apply normalizeEntityId_lower].
Qed.

(** *** The id is the lowercased words joined by underscores *)

Lemma words_starts_word s : starts_word s = true -> words s <> [].
Proof.
  destruct s as [|c s]; simpl; [done|].
  destruct (is_space c); [done|]. intros _.
  destruct (starts_word s); [by destruct (words s)|done].
Qed.

Lemma trimEnd_empty_words s :
  is_empty (trimEnd s) = true <-> words s = [].
Proof.
  induction s as [|c s IH]; simpl; [done|].
  destruct (is_space c); simpl.
  - destruct (is_empty (trimEnd s)); simpl; [tauto|].
    split; [done|]. intros Hw. by apply IH.
  - split; [done|]. destruct (starts_word s); [by destruct (words s)|done].
Qed.

(** What [replace] makes of a string without trailing white space, by the
    way the string starts. *)
Lemma replace_ws_runs_trimEnd b s :
  replace_ws_runs "_" b (trimEnd s) =
    if starts_word s then String.concat "_" (words s)
    else match words s with
         | [] => ""
         | ws => (if b then "" else "_") +:+ String.concat "_" ws
         end.
Proof.
  revert b. induction s as [|c s IH]; intros b; [done|].
  cbn [trimEnd starts_word words]. destruct (is_space c) eqn:Hc; cbn [negb andb].
  - destruct (is_empty (trimEnd s)) eqn:He.
    { apply trimEnd_empty_words in He as ->. done. }
    assert (words s <> []) as Hne.
    { intros Hw%trimEnd_empty_words. congruence. }
    cbn [replace_ws_runs]. rewrite Hc.
    assert (replace_ws_runs "_" true (trimEnd s) = String.concat "_" (words s))
      as Htl.
    { rewrite IH. destruct (starts_word s); [done|].
      by destruct (words s). }
    destruct (words s) as [|w r] eqn:Hw; [done|].
    destruct b; cbn [replace_ws_runs]; by rewrite Htl.
  - cbn [replace_ws_runs]. rewrite Hc, (IH false).
    destruct (starts_word s) eqn:Hs.
    + pose proof (words_starts_word s Hs).
      destruct (words s) as [|w [|w' r]]; done.
    + destruct (words s) as [|w r]; done.
Qed.

Lemma words_trimStart s : words (trimStart s) = words s.
Proof.
  induction s as [|c s IH]; [done|]. cbn [trimStart].
  destruct (is_space c) eqn:Hc; [|done]. rewrite IH. simpl. by rewrite Hc.
Qed.

Lemma starts_word_trimStart s :
  starts_word (trimStart s) = false -> words (trimStart s) = [].
Proof.
  induction s as [|c s IH]; [done|]. cbn [trimStart].
  destruct (is_space c) eqn:Hc; [done|]. simpl. by rewrite Hc.
Qed.

Lemma normalizeEntityId_words name :
  normalizeEntityId name = String.concat "_" (words (toLowerCase name)).
Proof.
  unfold normalizeEntityId, trim. rewrite replace_ws_runs_trimEnd.
  destruct (starts_word (trimStart (toLowerCase name))) eqn:Hs.
  - by rewrite words_trimStart.
  - pose proof (starts_word_trimStart _ Hs) as Hw. rewrite Hw.
    rewrite words_trimStart in Hw. by rewrite Hw.
Qed.


(** C8.  [normalizeEntityId] is a total function on strings that lowercases,
    trims, and turns every run of white space into one underscore: its
    result is the lowercased words of the name joined by underscores.  It is
    idempotent, it does not see the case of its argument, and the names
    " Foo  Bar " and "foo bar" get the same id. *)
Theorem normalizeEntityId_canonical :
  (forall name,
     normalizeEntityId name = String.concat "_" (words (toLowerCase name))) /\
  (forall name,
     normalizeEntityId (normalizeEntityId name) = normalizeEntityId name) /\
  (forall name, normalizeEntityId (toLowerCase name) = normalizeEntityId name) /\
  normalizeEntityId " Foo  Bar " = normalizeEntityId "foo bar".
Proof.
  split; [exact normalizeEntityId_words|].
  split; [exact normalizeEntityId_idem|].
  split; [|reflexivity].
  intros name. unfold normalizeEntityId. by rewrite toLowerCase_idem.
Qed.

(** ** The relational engine *)

Section order_by_facts.
Context {A : Type} (le : A -> A -> bool).

Lemma insert_sorted_Permutation x l : Sql.insert_sorted le x l ≡ₚ x :: l.
Proof.
  induction l as [|y l IH]; simpl; [done|].
  destruct (le x y); [done|]. rewrite IH. apply Permutation_swap.
Qed.

Lemma order_by_Permutation l : Sql.order_by le l ≡ₚ l.
Proof.
  induction l as [|x l IH]; simpl; [done|].
  by rewrite insert_sorted_Permutation, IH.
Qed.

Lemma elem_of_order_by x l : x ∈ Sql.order_by le l <-> x ∈ l.
Proof. by rewrite order_by_Permutation. Qed.

Lemma length_order_by l : length (Sql.order_by le l) = length l.
Proof. by rewrite order_by_Permutation. Qed.

Hypothesis le_total : forall a b, le a b = true \/ le b a = true.
Hypothesis le_trans : forall a b c, le a b = true -> le b c = true -> le a c = true.

Lemma insert_sorted_sorted x l :
  StronglySorted (fun a b => le a b = true) l ->
  StronglySorted (fun a b => le a b = true) (Sql.insert_sorted le x l).
Proof.
  induction 1 as [|y l Hs IH Hy]; simpl; [by repeat constructor|].
  destruct (le x y) eqn:Hxy.
  - constructor; [by constructor|]. constructor; [done|].
    eapply Forall_impl; [exact Hy|]. intros z Hz. by eapply le_trans.
  - constructor; [done|].
    rewrite insert_sorted_Permutation. constructor; [|done].
    destruct (le_total x y); congruence.
Qed.

Lemma order_by_sorted l :
  StronglySorted (fun a b => le a b = true) (Sql.order_by le l).
Proof.
  induction l as [|x l IH]; simpl; [constructor|].
  by apply insert_sorted_sorted.
Qed.
End order_by_facts.

Lemma StronglySorted_take {A} (R : A -> A -> Prop) n l :
  StronglySorted R l -> StronglySorted R (take n l).
Proof.
  intros Hs. revert n. induction Hs as [|x l Hs IH Hx]; intros [|n]; simpl;
    try constructor; [apply IH|].
  eapply Forall_forall. intros y Hy. eapply Forall_forall; [exact Hx|].
  eapply elem_of_sublist; [exact Hy|apply sublist_take].
Qed.

Lemma limit_sublist {A} n (l : list A) : Sql.limit n l `sublist_of` l.
Proof. unfold Sql.limit. destruct (n <? 0); [done|apply sublist_take]. Qed.

Lemma elem_of_limit {A} n (l : list A) x : x ∈ Sql.limit n l -> x ∈ l.
Proof. intros Hx. eapply elem_of_sublist; [exact Hx|apply limit_sublist]. Qed.

Lemma length_limit {A} n (l : list A) :
  0 <= n -> Z.of_nat (length (Sql.limit n l)) <= n.
Proof.
  intros Hn. unfold Sql.limit. destruct (n <? 0) eqn:Hlt; [lia|].
  rewrite length_take. lia.
Qed.

Lemma StronglySorted_limit {A} (R : A -> A -> Prop) n l :
  StronglySorted R l -> StronglySorted R (Sql.limit n l).
Proof.
  unfold Sql.limit. destruct (n <? 0); [done|apply StronglySorted_take].
Qed.

(** The order of time stamps and dates: code-unit order on strings. *)
Lemma ascii_compare_N a b :
  Ascii.compare a b = (N_of_ascii a ?= N_of_ascii b)%N.
Proof. reflexivity. Qed.

Lemma string_compare_trans c a b d :
  String.compare a b = c -> String.compare b d = c -> String.compare a d = c.
Proof.
  revert b d. induction a as [|x a IH]; intros [|y b] [|z d]; simpl; try congruence.
  rewrite !ascii_compare_N.
  destruct (N.compare_spec (N_of_ascii x) (N_of_ascii y)) as [Hxy|Hxy|Hxy];
  destruct (N.compare_spec (N_of_ascii y) (N_of_ascii z)) as [Hyz|Hyz|Hyz];
  destruct (N.compare_spec (N_of_ascii x) (N_of_ascii z)) as [Hxz|Hxz|Hxz];
    try congruence; try lia; eauto.
Qed.

Lemma string_leb_trans a b c :
  JsString.leb a b = true -> JsString.leb b c = true -> JsString.leb a c = true.
Proof.
  unfold JsString.leb, String.leb.
  destruct (String.compare a b) eqn:Hab;
    destruct (String.compare b c) eqn:Hbc; try done; intros _ _.
  - apply String.compare_eq_iff in Hab as ->. by rewrite Hbc.
  - apply String.compare_eq_iff in Hab as ->. by rewrite Hbc.
  - apply String.compare_eq_iff in Hbc as <-. by rewrite Hab.
  - by rewrite (string_compare_trans Lt a b c).
Qed.

Lemma string_leb_total a b :
  JsString.leb a b = true \/ JsString.leb b a = true.
Proof. apply String.leb_total. Qed.

Lemma newer_first_sorted l :
  StronglySorted (fun a b => Stmt.newer_first a b = true)
    (Sql.order_by Stmt.newer_first l).
Proof.
  apply order_by_sorted; unfold Stmt.newer_first.
  - intros a b. apply string_leb_total.
  - intros a b c Hab Hbc. by eapply string_leb_trans.
Qed.

Lemma more_first_sorted l :
  StronglySorted (fun a b => Stmt.more_first a b = true)
    (Sql.order_by Stmt.more_first l).
Proof.
  apply order_by_sorted; unfold Stmt.more_first; intros; lia.
Qed.

(** ** Running a method *)

Lemma run_ok {A} (stmt : string -> Store -> A * Store) env w :
  fault env (ticks w) = false ->
  run stmt env w =
    (inr (stmt (clock env (ticks w)) (db w)).1,
     mkWorld (stmt (clock env (ticks w)) (db w)).2 (S (ticks w))).
Proof. unfold run. intros ->. by destruct (stmt _ _). Qed.

Lemma run_fault {A} (stmt : string -> Store -> A * Store) env w :
  fault env (ticks w) = true ->
  run stmt env w = (inl SqliteError, mkWorld (db w) (S (ticks w))).
Proof. unfold run. by intros ->. Qed.

(** ** The entity registry *)

Lemma head_filter_id_fmap (k : string) (g : Entity.t -> Entity.t) es :
  (forall e, Entity.id (g e) = Entity.id e) ->
  head (filter (fun e => Entity.id e = k) (g <$> es)) =
  g <$> head (filter (fun e => Entity.id e = k) es).
Proof.
  intros Hg. induction es as [|e es IH]; [done|].
  rewrite fmap_cons, !filter_cons, Hg.
  destruct (decide (Entity.id e = k)); [done|apply IH].
Qed.

Lemma getEntity_Some_id id s row :
  Stmt.getEntity id s = Some row -> Entity.id row = id /\ row ∈ entities s.
Proof.
  unfold Stmt.getEntity. intros Hh.
  assert (row ∈ filter (fun e => Entity.id e = id) (entities s)) as Hin.
  { destruct (filter _ _) as [|r l]; simplify_eq/=. by left. }
  by apply list_elem_of_filter in Hin.
Qed.

Lemma upsertEntity_present now id name type agent s :
  id ∈ Entity.id <$> entities s ->
  entities (Stmt.upsertEntity now id name type agent s) =
    (fun e => if decide (Entity.id e = id) then Stmt.mention now e else e)
      <$> entities s.
Proof. intros Hin. unfold Stmt.upsertEntity. simpl. by rewrite decide_True. Qed.

Lemma upsertEntity_absent now id name type agent s :
  id ∉ Entity.id <$> entities s ->
  entities (Stmt.upsertEntity now id name type agent s) =
    entities s ++ [Entity.mk id name type now now 1 "[]" None agent].
Proof. intros Hin. unfold Stmt.upsertEntity. simpl. by rewrite decide_False. Qed.

Lemma mention_or_keep_id now id e :
  Entity.id (if decide (Entity.id e = id) then Stmt.mention now e else e) =
  Entity.id e.
Proof. by destruct (decide _). Qed.

Lemma getEntity_upsert_present now id name type agent s row :
  Stmt.getEntity id s = Some row ->
  Stmt.getEntity id (Stmt.upsertEntity now id name type agent s) =
    Some (Stmt.mention now row).
Proof.
  intros Hrow. pose proof (getEntity_Some_id _ _ _ Hrow) as [Hid Hin].
  unfold Stmt.getEntity in *. rewrite upsertEntity_present.
  - rewrite head_filter_id_fmap by (intros; apply mention_or_keep_id).
    rewrite Hrow. simpl. by rewrite decide_True.
  - rewrite <- Hid. by apply list_elem_of_fmap_2.
Qed.

Lemma getEntity_upsert_other now id id' name type agent s :
  id' <> id -> id ∈ Entity.id <$> entities s ->
  Stmt.getEntity id' (Stmt.upsertEntity now id name type agent s) =
    Stmt.getEntity id' s.
Proof.
  intros Hne Hin. unfold Stmt.getEntity. rewrite upsertEntity_present by done.
  clear Hin. induction (entities s) as [|e es IH]; [done|].
  rewrite fmap_cons, !filter_cons, mention_or_keep_id.
  destruct (decide (Entity.id e = id')) as [He|He].
  - simpl. rewrite decide_False; [done|congruence].
  - apply IH.
Qed.

Lemma upsertEntity_run env w n type agentId :
  fault env (ticks w) = false ->
  GraphStore.upsertEntity (Some n) type agentId env w =
    (inr (normalizeEntityId n),
     mkWorld (Stmt.upsertEntity (clock env (ticks w)) (normalizeEntityId n) n
                (js_or type "CONCEPT") (js_or agentId "main") (db w))
       (S (ticks w))).
Proof.
  intros Hf. unfold GraphStore.upsertEntity, bind, the_string, ret.
  by rewrite run_ok.
Qed.

(** C10.  When [upsertEntity] is called for an id that is already
    registered, the row of that id keeps its canonical name, entity type,
    first-seen time, aliases, metadata and agent id, whatever name, type and
    agent the call supplies; only [last_seen] (now the time of the call) and
    [mention_count] (one more) change.  No row is added, every other row and
    the two other tables are as before, and mention counts that were at
    least 1 stay so. *)
Theorem upsertEntity_existing_row env w name type agentId n row :
  name = Some n ->
  GraphStore.getEntity (normalizeEntityId n) (db w) = Some row ->
  fault env (ticks w) = false ->
  exists w',
    GraphStore.upsertEntity name type agentId env w = (inr (normalizeEntityId n), w') /\
    GraphStore.getEntity (normalizeEntityId n) (db w') =
      Some (Entity.mk (normalizeEntityId n) (Entity.canonical_name row)
              (Entity.entity_type row) (Entity.first_seen row)
              (clock env (ticks w)) (Entity.mention_count row + 1)
              (Entity.aliases row) (Entity.metadata row) (Entity.agent_id row)) /\
    (forall id', id' <> normalizeEntityId n ->
       GraphStore.getEntity id' (db w') = GraphStore.getEntity id' (db w)) /\
    length (entities (db w')) = length (entities (db w)) /\
    triples (db w') = triples (db w) /\
    cooccurrences (db w') = cooccurrences (db w) /\
    (Forall (fun e => 1 <= Entity.mention_count e) (entities (db w)) ->
     Forall (fun e => 1 <= Entity.mention_count e) (entities (db w'))).
Proof.
  intros -> Hrow Hf. unfold GraphStore.getEntity in *.
  pose proof (getEntity_Some_id _ _ _ Hrow) as [Hid Hin].
  assert (normalizeEntityId n ∈ Entity.id <$> entities (db w)) as Hmem.
  { rewrite <- Hid. by apply list_elem_of_fmap_2. }
  eexists. split; [by apply upsertEntity_run|]. cbn [db].
  split.
  { rewrite (getEntity_upsert_present _ _ _ _ _ _ row Hrow).
    unfold Stmt.mention. by rewrite Hid. }
  split; [intros id' Hne; by apply getEntity_upsert_other|].
  rewrite upsertEntity_present by done.
  split; [by rewrite length_fmap|]. split; [done|]. split; [done|].
  intros Hall. apply Forall_fmap. eapply Forall_impl; [exact Hall|].
  intros e He. unfold compose. simpl in *.
  destruct (decide _); unfold Stmt.mention; simpl; lia.
Qed.

(** The store after [Alice] was registered once, as a [PERSON] of the agent
    [main]; the same entity is then mentioned as " ALICE " with another type
    under another agent. *)
Lemma upsertEntity_existing_row_witness :
  exists w',
    GraphStore.upsertEntity (Some " ALICE ") (Some "PLACE") (Some "b")
      Sample.env Sample.world1 = (inr "alice", w') /\
    GraphStore.getEntity "alice" (db w') =
      Some (Entity.mk "alice" "Alice" "PERSON" "2026-03-01 10:00:00"
              "2026-03-01 10:00:05" 2 "[]" None "main").
Proof.
  destruct (upsertEntity_existing_row Sample.env Sample.world1
              (Some " ALICE ") (Some "PLACE") (Some "b") " ALICE "
              (Entity.mk "alice" "Alice" "PERSON" "2026-03-01 10:00:00"
                 "2026-03-01 10:00:00" 1 "[]" None "main")
              eq_refl eq_refl eq_refl) as (w' & Hrun & Hrow & _).
  exists w'. split; [exact Hrun|exact Hrow].
Defined.

(** C4, as stated, fails: in one store the second agent gets no row of its
    own.  After [Alice] is upserted under agent [a] and then under agent
    [b], there are no two rows, one per agent. *)
Lemma entities_not_agent_scoped :
  let w2 :=
    Sample.after (GraphStore.upsertEntity (Some "Alice") (Some "PERSON") (Some "b"))
      Sample.env
      (Sample.after (GraphStore.upsertEntity (Some "Alice") (Some "PERSON") (Some "a"))
         Sample.env Sample.start) in
  ~ (exists r1 r2,
       r1 ∈ entities (db w2) /\ r2 ∈ entities (db w2) /\
       Entity.agent_id r1 = "a" /\ Entity.agent_id r2 = "b") /\
  GraphStore.getEntityByName "Alice" (Some "b") (db w2) = None /\
  (GraphStore.entityCount (GraphStore.getStats (Some "a") (db w2)) = 1 /\
   GraphStore.entityCount (GraphStore.getStats (Some "b") (db w2)) = 0).
Proof.
  cbv zeta. split; [|split; [reflexivity|split; reflexivity]].
  intros (r1 & r2 & _ & H2 & _ & Hb).
  vm_compute in H2. apply list_elem_of_singleton in H2. subst r2. discriminate Hb.
Qed.

(** C4, amended.  Within one store an entity row is keyed by its normalized
    id alone.  Upserting a name under one agent and then a name with the
    same id under any other agent leaves exactly one row for that id: the
    row of the first call, with its agent id, canonical name and type, a
    mention count of 2, and the time of the second call as [last_seen]. *)
Theorem upsertEntity_keyed_by_id env w n1 n2 t1 t2 a1 a2 :
  normalizeEntityId n1 = normalizeEntityId n2 ->
  normalizeEntityId n1 ∉ Entity.id <$> entities (db w) ->
  fault env (ticks w) = false ->
  fault env (S (ticks w)) = false ->
  exists w1 w2,
    GraphStore.upsertEntity (Some n1) t1 a1 env w = (inr (normalizeEntityId n1), w1) /\
    GraphStore.upsertEntity (Some n2) t2 a2 env w1 = (inr (normalizeEntityId n1), w2) /\
    entities (db w2) =
      entities (db w) ++
      [Entity.mk (normalizeEntityId n1) n1 (js_or t1 "CONCEPT")
         (clock env (ticks w)) (clock env (S (ticks w))) 2 "[]" None
         (js_or a1 "main")].
Proof.
  intros Hid Hnew Hf1 Hf2.
  eexists _, _. split; [by apply upsertEntity_run|].
  split.
  { rewrite upsertEntity_run by done. rewrite <- Hid. reflexivity. }
  cbn [db ticks].
  rewrite upsertEntity_present; rewrite upsertEntity_absent by done.
  - rewrite fmap_app. f_equal.
    + apply list_eq. intros i. rewrite list_lookup_fmap.
      destruct (entities (db w) !! i) as [e|] eqn:He; [|done]. simpl.
      rewrite decide_False; [done|]. intros Heq. apply Hnew. rewrite <- Heq.
      apply list_elem_of_fmap_2. by eapply list_elem_of_lookup_2.
    + simpl. by rewrite decide_True.
  - rewrite fmap_app. apply elem_of_app. right. simpl. by left.
Qed.

Lemma upsertEntity_keyed_by_id_witness :
  exists w1 w2,
    GraphStore.upsertEntity (Some "Alice") (Some "PERSON") (Some "a")
      Sample.env Sample.start = (inr "alice", w1) /\
    GraphStore.upsertEntity (Some " alice") (Some "PLACE") (Some "b")
      Sample.env w1 = (inr "alice", w2) /\
    entities (db w2) =
      [Entity.mk "alice" "Alice" "PERSON" "2026-03-01 10:00:00"
         "2026-03-01 10:00:01" 2 "[]" None "a"].
Proof.
  exact (upsertEntity_keyed_by_id Sample.env Sample.start "Alice" " alice"
           (Some "PERSON") (Some "PLACE") (Some "a") (Some "b")
           eq_refl (not_elem_of_nil _) eq_refl eq_refl).
Defined.

(** ** The triple store *)

Lemma head_filter_fmap {A} (P : A -> Prop) `{!forall x, Decision (P x)}
    (g : A -> A) l :
  (forall x, P (g x) <-> P x) ->
  head (filter P (g <$> l)) = g <$> head (filter P l).
Proof.
  intros Hg. induction l as [|x l IH]; [done|].
  rewrite fmap_cons, !filter_cons.
  destruct (decide (P x)) as [Hx|Hx].
  - by rewrite decide_True by by apply Hg.
  - rewrite decide_False by by rewrite Hg. apply IH.
Qed.

Lemma head_filter_Some_elem {A} (P : A -> Prop) `{!forall x, Decision (P x)} l x :
  head (filter P l) = Some x -> P x /\ x ∈ l.
Proof.
  intros Hh. apply (list_elem_of_filter P).
  destruct (filter P l) as [|y l']; simplify_eq/=. by left.
Qed.

Lemma head_filter_None {A} (P : A -> Prop) `{!forall x, Decision (P x)} l :
  head (filter P l) = None <-> forall x, x ∈ l -> ~ P x.
Proof.
  rewrite head_None. split.
  - intros Hf x Hx HP.
    assert (x ∈ filter P l) as Hin by by apply list_elem_of_filter.
    rewrite Hf in Hin. by apply not_elem_of_nil in Hin.
  - intros Hall. destruct (filter P l) as [|y l'] eqn:Hf; [done|].
    assert (y ∈ filter P l) as [HP Hy]%list_elem_of_filter by (rewrite Hf; by left).
    by destruct (Hall y Hy).
Qed.

(** With unique ids, the first row of a given id is any row of that id. *)
Lemma head_filter_unique {A B} (key : A -> B) `{!EqDecision B} l x :
  NoDup (key <$> l) -> x ∈ l ->
  head (filter (fun y => key y = key x) l) = Some x.
Proof.
  induction l as [|y l IH]; [by intros _ ?%not_elem_of_nil|].
  rewrite fmap_cons, NoDup_cons, filter_cons. intros [Hy Hnd] Hx.
  apply elem_of_cons in Hx as [->|Hx].
  - by rewrite decide_True.
  - rewrite decide_False; [by apply IH|].
    intros Heq. apply Hy. rewrite Heq. by apply list_elem_of_fmap_2.
Qed.

Lemma bump_or_keep_key now c id s p o a t :
  Stmt.triple_key s p o a
    (if decide (Triple.id t = id) then Stmt.bump_confidence now c t else t) <->
  Stmt.triple_key s p o a t.
Proof. by destruct (decide _). Qed.

Lemma bump_or_keep_id now c id t :
  Triple.id (if decide (Triple.id t = id) then Stmt.bump_confidence now c t else t)
  = Triple.id t.
Proof. by destruct (decide _). Qed.

Lemma findTriple_update now c id s p o a st :
  Stmt.findTriple s p o a (Stmt.updateTripleConfidence now c id st) =
  Stmt.findTriple s p o a st.
Proof.
  unfold Stmt.findTriple, Stmt.updateTripleConfidence. cbn [triples].
  rewrite head_filter_fmap by (intros; apply bump_or_keep_key).
  destruct (head _) as [t|]; [|done]. simpl. by rewrite bump_or_keep_id.
Qed.

Lemma triple_with_id_update now c id id' st :
  triple_with_id id' (Stmt.updateTripleConfidence now c id st) =
  (fun t => if decide (id' = id) then Stmt.bump_confidence now c t else t)
    <$> triple_with_id id' st.
Proof.
  unfold triple_with_id, Stmt.updateTripleConfidence. cbn [triples].
  rewrite head_filter_fmap by (intros; by rewrite bump_or_keep_id).
  destruct (head _) as [t|] eqn:Ht; [|done]. simpl.
  apply head_filter_Some_elem in Ht as [-> _].
  by destruct (decide _).
Qed.

Lemma store_wf_update now c id st :
  store_wf st -> store_wf (Stmt.updateTripleConfidence now c id st).
Proof.
  intros [H1 H2 H3 H4]. split; cbn; try done.
  - rewrite <- list_fmap_compose.
    erewrite list_fmap_ext; [exact H1|]. intros i t _. apply bump_or_keep_id.
  - apply Forall_fmap. eapply Forall_impl; [exact H2|].
    intros t Ht. unfold compose. by rewrite bump_or_keep_id.
Qed.

Lemma fresh_triple_id st t :
  store_wf st -> t ∈ triples st -> Triple.id t <> triples_seq st + 1.
Proof.
  intros [_ H2 _ _] Ht. eapply Forall_forall in H2; [|exact Ht]. lia.
Qed.

Lemma store_wf_insert now s p o c src date a pend st :
  store_wf st ->
  store_wf (Stmt.insertTriple now s p o c src date a pend st).2.
Proof.
  intros Hwf. pose proof Hwf as [H1 H2 H3 H4]. split; cbn; try done.
  - rewrite fmap_app. apply NoDup_app. split; [done|]. split.
    + intros id [t [-> Ht]]%list_elem_of_fmap [Heq|[]%not_elem_of_nil]%elem_of_cons.
      by eapply fresh_triple_id.
    + apply NoDup_singleton.
  - apply Forall_app. split.
    + eapply Forall_impl; [exact H2|]. intros t Ht. simpl in *. lia.
    + repeat constructor. simpl. lia.
Qed.

Lemma findTriple_insert now s p o c src date a pend st :
  Stmt.findTriple s p o a st = None ->
  Stmt.findTriple s p o a (Stmt.insertTriple now s p o c src date a pend st).2
  = Some (triples_seq st + 1).
Proof.
  unfold Stmt.findTriple. cbn [snd Stmt.insertTriple triples].
  rewrite filter_app. intros Hnone.
  destruct (head (filter _ (triples st))) eqn:Hh; [done|].
  apply head_None in Hh as ->. rewrite app_nil_l, filter_cons.
  by rewrite decide_True.
Qed.

Lemma triple_with_id_insert now s p o c src date a pend st :
  store_wf st ->
  triple_with_id (triples_seq st + 1)
    (Stmt.insertTriple now s p o c src date a pend st).2 =
  Some (Triple.mk (triples_seq st + 1) s p o c src date now now a pend).
Proof.
  intros Hwf. unfold triple_with_id. cbn [snd Stmt.insertTriple triples].
  rewrite filter_app.
  assert (filter (fun t => Triple.id t = triples_seq st + 1) (triples st) = [])
    as ->.
  { apply head_None, head_filter_None. intros t Ht. by apply fresh_triple_id. }
  rewrite app_nil_l, filter_cons. by rewrite decide_True.
Qed.

Lemma triple_with_id_insert_other now s p o c src date a pend st id' :
  id' <> triples_seq st + 1 ->
  triple_with_id id' (Stmt.insertTriple now s p o c src date a pend st).2 =
  triple_with_id id' st.
Proof.
  intros Hne. unfold triple_with_id. cbn [snd Stmt.insertTriple triples].
  rewrite filter_app, filter_cons, decide_False by (simpl; congruence).
  by rewrite filter_nil, app_nil_r.
Qed.

Lemma findTriple_Some_row s p o a st id :
  store_wf st -> Stmt.findTriple s p o a st = Some id ->
  exists row, triple_with_id id st = Some row /\ Stmt.triple_key s p o a row.
Proof.
  intros [H1 _ _ _]. unfold Stmt.findTriple.
  destruct (head _) as [t|] eqn:Ht; [|done]. intros [= <-].
  apply head_filter_Some_elem in Ht as [Hk Hin].
  exists t. split; [|done]. by apply (head_filter_unique Triple.id).
Qed.

Lemma addTriple_run env w a sid oid :
  has_key a sid oid ->
  fault env (ticks w) = false -> fault env (S (ticks w)) = false ->
  GraphStore.addTriple a env w =
    let now := clock env (S (ticks w)) in
    let aid := js_or (GraphStore.agentId a) "main" in
    match Stmt.findTriple sid (GraphStore.predicate a) oid aid (db w) with
    | Some id =>
        (inr id,
         mkWorld (Stmt.updateTripleConfidence now (effective_confidence a) id (db w))
           (S (S (ticks w))))
    | None =>
        (inr (triples_seq (db w) + 1),
         mkWorld (Stmt.insertTriple now sid (GraphStore.predicate a) oid
                    (effective_confidence a)
                    (GraphStore.or_null (GraphStore.sourceExchangeId a))
                    (effective_date a now) aid
                    (if GraphStore.pendingResolution a then 1 else 0) (db w)).2
           (S (S (ticks w))))
    end.
Proof.
  intros (s & o & Hs & Ho & <- & <-) Hf1 Hf2.
  unfold GraphStore.addTriple, bind, the_string, ret. rewrite Hs, Ho.
  rewrite run_ok by done. cbn [fst snd db ticks].
  destruct (Stmt.findTriple _ _ _ _ _) as [id|].
  - by rewrite run_ok by done.
  - unfold effective_date, today, ret.
    destruct (GraphStore.sourceDate a) as [d|]; [destruct (is_empty d)|];
      by rewrite run_ok by done.
Qed.

Lemma addTriple_ok env w a id w' :
  GraphStore.addTriple a env w = (inr id, w') ->
  exists sid oid,
    has_key a sid oid /\
    fault env (ticks w) = false /\ fault env (S (ticks w)) = false.
Proof.
  unfold GraphStore.addTriple, bind, the_string, ret, throw, has_key.
  destruct (GraphStore.subject a) as [s|]; [|done].
  destruct (GraphStore.object a) as [o|]; [|done].
  unfold run at 1. destruct (fault env (ticks w)) eqn:Hf1; [done|].
  cbn [db ticks]. intros Hrun. exists (normalizeEntityId s), (normalizeEntityId o).
  split; [by exists s, o|]. split; [done|].
  destruct (fault env (S (ticks w))) eqn:Hf2; [|done].
  destruct (Stmt.findTriple _ _ _ _ _).
  - by rewrite run_fault in Hrun.
  - unfold today, ret in Hrun.
    destruct (GraphStore.sourceDate a) as [d|]; [destruct (is_empty d)|];
      by rewrite run_fault in Hrun.
Qed.

(** What one call of [addTriple] does to the row of its key. *)
Lemma addTriple_effect env w a sid oid :
  let aid := js_or (GraphStore.agentId a) "main" in
  let p := GraphStore.predicate a in
  store_wf (db w) -> has_key a sid oid ->
  fault env (ticks w) = false -> fault env (S (ticks w)) = false ->
  exists id w' row',
    GraphStore.addTriple a env w = (inr id, w') /\
    store_wf (db w') /\
    ticks w' = S (S (ticks w)) /\
    Stmt.findTriple sid p oid aid (db w') = Some id /\
    triple_with_id id (db w') = Some row' /\
    entities (db w') = entities (db w) /\
    cooccurrences (db w') = cooccurrences (db w) /\
    match Stmt.findTriple sid p oid aid (db w) with
    | Some id0 =>
        id = id0 /\
        length (triples (db w')) = length (triples (db w)) /\
        (forall id', id' <> id ->
           triple_with_id id' (db w') = triple_with_id id' (db w)) /\
        exists row,
          triple_with_id id (db w) = Some row /\
          row' = Stmt.bump_confidence (clock env (S (ticks w)))
                   (effective_confidence a) row
    | None =>
        id = triples_seq (db w) + 1 /\
        length (triples (db w')) = S (length (triples (db w))) /\
        Triple.confidence row' = effective_confidence a /\
        (forall id', id' <> id ->
           triple_with_id id' (db w') = triple_with_id id' (db w))
    end.
Proof.
  intros aid p Hwf Hkey Hf1 Hf2.
  rewrite (addTriple_run env w a sid oid Hkey Hf1 Hf2). cbv zeta. fold aid p.
  destruct (Stmt.findTriple sid p oid aid (db w)) as [id0|] eqn:Hfind.
  - destruct (findTriple_Some_row _ _ _ _ _ _ Hwf Hfind) as (row & Hrow & Hk).
    eexists id0, _, _. split; [reflexivity|]. cbn [db ticks].
    split; [by apply store_wf_update|]. split; [done|].
    split; [by rewrite findTriple_update|].
    split; [rewrite triple_with_id_update, Hrow; simpl; by rewrite decide_True|].
    split; [done|]. split; [done|]. split; [done|].
    split; [cbn; by rewrite length_fmap|].
    split; [|by exists row].
    intros id' Hne. rewrite triple_with_id_update.
    destruct (triple_with_id id' (db w)); [|done]. simpl. by rewrite decide_False.
  - eexists _, _, _. split; [reflexivity|]. cbn [db ticks].
    split; [by apply store_wf_insert|]. split; [done|].
    split; [by apply findTriple_insert|].
    split; [by apply triple_with_id_insert|].
    split; [done|]. split; [done|].
    split; [done|]. split; [cbn; rewrite length_app; simpl; lia|].
    split; [done|]. intros id' Hne. by apply triple_with_id_insert_other.
Qed.



Lemma length_filter_complement {A} (P : A -> Prop) `{!forall x, Decision (P x)} l :
  (length (filter P l) + length (filter (fun x => ~ P x) l))%nat = length l.
Proof. by rewrite <- length_app, filter_app_complement. Qed.

(** C7.  [deleteTriplesByExchange] removes exactly the triples whose
    [source_exchange_id] is the given id and returns their number, as the
    [changes] of the run.  Afterwards no query of [queryTriples] finds a
    triple of that exchange, and the entity table (with every mention count)
    and the co-occurrence table are what they were. *)
Theorem deleteTriplesByExchange_frame env w exchangeId :
  fault env (ticks w) = false ->
  exists info w',
    GraphStore.deleteTriplesByExchange exchangeId env w = (inr info, w') /\
    GraphStore.changes info =
      Z.of_nat (length (filter (fun t => Triple.source_exchange_id t = Some exchangeId)
                          (triples (db w)))) /\
    triples (db w') =
      filter (fun t => Triple.source_exchange_id t <> Some exchangeId) (triples (db w)) /\
    (forall t, t ∈ triples (db w') <->
               t ∈ triples (db w) /\ Triple.source_exchange_id t <> Some exchangeId) /\
    Z.of_nat (length (triples (db w'))) + GraphStore.changes info =
      Z.of_nat (length (triples (db w))) /\
    (forall q t, t ∈ GraphStore.queryTriples q (db w') ->
                 Triple.source_exchange_id t <> Some exchangeId) /\
    entities (db w') = entities (db w) /\
    (forall id, GraphStore.getEntity id (db w') = GraphStore.getEntity id (db w)) /\
    cooccurrences (db w') = cooccurrences (db w).
Proof.
  intros Hf. unfold GraphStore.deleteTriplesByExchange.
  rewrite run_ok by done. eexists _, _. split; [reflexivity|].
  cbn [fst snd db Stmt.deleteTriplesByExchange triples entities cooccurrences
       GraphStore.changes].
  split; [done|]. split; [done|].
  split. { intros t. rewrite list_elem_of_filter. tauto. }
  split.
  { pose proof (length_filter_complement
      (fun t => Triple.source_exchange_id t = Some exchangeId) (triples (db w))).
    lia. }
  split; [|done].
  intros q t Ht. unfold GraphStore.queryTriples in Ht.
  apply elem_of_limit, elem_of_order_by, list_elem_of_filter in Ht as [_ Ht].
  cbn [triples] in Ht. by apply list_elem_of_filter in Ht as [Ht _].
Qed.

(** Re-extraction of the sample exchange: its one triple goes, [alice]
    stays. *)
Lemma deleteTriplesByExchange_frame_witness :
  exists w',
    GraphStore.deleteTriplesByExchange "E1" Sample.env Sample.world1 =
      (inr (GraphStore.mkRunInfo 1), w') /\
    triples (db w') = [] /\
    GraphStore.queryTriples (GraphStore.mkQuery None None None None None) (db w') = [] /\
    GraphStore.getEntity "alice" (db w') =
      GraphStore.getEntity "alice" (db Sample.world1).
Proof.
  destruct (deleteTriplesByExchange_frame Sample.env Sample.world1 "E1" eq_refl)
    as ([n] & w' & Hrun & Hn & Htr & _ & _ & _ & _ & Hent & _).
  cbn [GraphStore.changes] in Hn. subst n.
  exists w'. split; [exact Hrun|]. split; [exact Htr|].
  split; [|apply Hent].
  unfold GraphStore.queryTriples. by rewrite Htr.
Defined.

(** ** Prefix search *)

Lemma like_literal_prefix p s :
  all_chars not_wildcard p = true ->
  Sql.like (p +:+ "%") s = true ->
  fold_string (JsString.prefix (String.length p) s) = fold_string p.
Proof.
  revert s. induction p as [|c p IH]; intros s Hp Hl.
  { by destruct s. }
  cbn [all_chars] in Hp. apply andb_true_iff in Hp as [Hc Hp].
  unfold not_wildcard in Hc. apply andb_true_iff in Hc as [Hc1 Hc2].
  apply negb_true_iff in Hc1, Hc2.
  change (String c p +:+ "%") with (String c (p +:+ "%")) in Hl.
  cbn [Sql.like] in Hl. rewrite Hc1, Hc2 in Hl.
  destruct s as [|d s]; [done|].
  apply andb_true_iff in Hl as [Hcd Hl].
  unfold Sql.eqb_nocase in Hcd. apply bool_decide_eq_true in Hcd.
  unfold JsString.prefix in *. cbn [String.length String.substring fold_string].
  by rewrite (IH s Hp Hl), Hcd.
Qed.

(** C9, as stated, fails: the comparison is not case-sensitive.  With the
    entity [Alice] registered, the prefix [ali] finds it. *)
Lemma findEntitiesByPrefix_not_case_sensitive :
  ~ (forall prefix e,
       e ∈ GraphStore.findEntitiesByPrefix prefix None (db Sample.world1) ->
       String.prefix prefix (Entity.canonical_name e) = true).
Proof.
  intros H.
  assert (String.prefix "ali" "Alice" = true) as Hp; [|done].
  apply (H "ali" (Entity.mk "alice" "Alice" "PERSON" "2026-03-01 10:00:00"
                    "2026-03-01 10:00:00" 1 "[]" None "main")).
  vm_compute. by left.
Qed.

(** The wildcards of [LIKE] are live in the prefix: an underscore stands for
    any character. *)
Example findEntitiesByPrefix_wildcard :
  Entity.canonical_name <$>
    GraphStore.findEntitiesByPrefix "_L" None (db Sample.world1) = ["Alice"].
Proof. reflexivity. Qed.

(** C9, amended.  [findEntitiesByPrefix] returns at most 10 rows, all of
    them rows of the entity table with the given agent id ([main] when none
    is given), whose stored canonical name matches the [LIKE] pattern made of
    the prefix and a final [%].  When the prefix contains neither [%] nor
    [_], that means: the name starts with the prefix up to the case of the
    ASCII letters. *)
Theorem findEntitiesByPrefix_like prefix agentId s e :
  e ∈ GraphStore.findEntitiesByPrefix prefix agentId s ->
  e ∈ entities s /\
  Entity.agent_id e = js_or agentId "main" /\
  Sql.like (prefix +:+ "%") (Entity.canonical_name e) = true /\
  (all_chars not_wildcard prefix = true ->
   fold_string (JsString.prefix (String.length prefix) (Entity.canonical_name e))
   = fold_string prefix) /\
  (length (GraphStore.findEntitiesByPrefix prefix agentId s) <= 10)%nat.
Proof.
  unfold GraphStore.findEntitiesByPrefix, Stmt.findEntitiesByPrefix. intros He.
  pose proof (elem_of_limit _ _ _ He) as [[Hl Ha] Hin]%list_elem_of_filter.
  repeat split; try done.
  - intros Hp. by apply like_literal_prefix.
  - pose proof (length_limit 10 (filter (fun e0 =>
        Sql.like (prefix +:+ "%") (Entity.canonical_name e0) = true /\
        Entity.agent_id e0 = js_or agentId "main") (entities s))). lia.
Qed.

Lemma findEntitiesByPrefix_like_witness :
  let alice := Entity.mk "alice" "Alice" "PERSON" "2026-03-01 10:00:00"
                 "2026-03-01 10:00:00" 1 "[]" None "main" in
  alice ∈ GraphStore.findEntitiesByPrefix "ALI" None (db Sample.world1) /\
  fold_string (JsString.prefix 3 (Entity.canonical_name alice)) = fold_string "ALI".
Proof.
  intros alice.
  assert (alice ∈ GraphStore.findEntitiesByPrefix "ALI" None (db Sample.world1))
    as Hin by (vm_compute; by left).
  split; [exact Hin|].
  destruct (findEntitiesByPrefix_like "ALI" None (db Sample.world1) alice Hin)
    as (_ & _ & _ & Hfold & _).
  exact (Hfold eq_refl).
Defined.

(** ** Statistics *)

Lemma StronglySorted_take_drop {A} (R : A -> A -> Prop) n l x y :
  StronglySorted R l -> x ∈ take n l -> y ∈ drop n l -> R x y.
Proof.
  intros Hs Hx Hy. rewrite <- (take_drop n l) in Hs.
  apply StronglySorted_app in Hs as (Hall & _ & _). by apply Hall.
Qed.

Lemma StronglySorted_weaken {A} (R R' : A -> A -> Prop) l :
  (forall a b, R a b -> R' a b) -> StronglySorted R l -> StronglySorted R' l.
Proof.
  intros HR. induction 1 as [|x l Hs IH Hx]; constructor; [done|].
  eapply Forall_impl; [exact Hx|]. intros y. apply HR.
Qed.

Lemma limit_complete {A} (R : A -> A -> Prop) n l x :
  StronglySorted R l -> x ∈ l ->
  x ∈ Sql.limit n l \/
  (Z.of_nat (length (Sql.limit n l)) = n /\ forall y, y ∈ Sql.limit n l -> R y x).
Proof.
  unfold Sql.limit. destruct (n <? 0) eqn:Hn; [by left|]. intros Hs Hx.
  apply Z.ltb_ge in Hn.
  rewrite <- (take_drop (Z.to_nat n) l) in Hx.
  apply elem_of_app in Hx as [Hx|Hx]; [by left|]. right. split.
  - rewrite length_take.
    assert (Z.to_nat n < length l)%nat; [|lia].
    destruct (decide (Z.to_nat n < length l)%nat) as [|Hge]; [done|].
    rewrite drop_ge in Hx by lia. by apply not_elem_of_nil in Hx.
  - intros y Hy. by eapply StronglySorted_take_drop.
Qed.

Lemma limit_top {A} (R : A -> A -> Prop) n l x y :
  StronglySorted R l ->
  x ∈ Sql.limit n l -> y ∈ l -> y ∉ Sql.limit n l -> R x y.
Proof.
  unfold Sql.limit. destruct (n <? 0); [done|]. intros Hs Hx Hy Hny.
  eapply StronglySorted_take_drop; [done..|].
  rewrite <- (take_drop (Z.to_nat n) l) in Hy.
  apply elem_of_app in Hy as [Hy|Hy]; done.
Qed.

(** C6.  [getStats] counts the entity rows and the triple rows of the given
    agent ([main] when none is given) and lists at most 10 entities, all of
    that agent, most recently seen first.  Its [topCooccurrences] is the
    first 10 rows of the whole co-occurrence table by decreasing count, so
    that no row left out has a larger count than a listed one: a
    co-occurrence row has no agent column, and the list is the same for
    every agent id. *)
Theorem getStats_scoping agentId s :
  let aid := js_or agentId "main" in
  let stats := GraphStore.getStats agentId s in
  (forall a, agentId = Some a -> a <> "" -> aid = a) /\
  GraphStore.entityCount stats =
    Z.of_nat (length (filter (fun e => Entity.agent_id e = aid) (entities s))) /\
  GraphStore.tripleCount stats =
    Z.of_nat (length (filter (fun t => Triple.agent_id t = aid) (triples s))) /\
  (forall e, e ∈ GraphStore.recentEntities stats ->
             e ∈ entities s /\ Entity.agent_id e = aid) /\
  (length (GraphStore.recentEntities stats) <= 10)%nat /\
  StronglySorted (fun a b => Stmt.seen_later_first a b = true)
    (GraphStore.recentEntities stats) /\
  GraphStore.topCooccurrences stats =
    Sql.limit 10 (Sql.order_by Stmt.more_first (cooccurrences s)) /\
  (forall other,
     GraphStore.topCooccurrences (GraphStore.getStats other s) =
     GraphStore.topCooccurrences stats) /\
  (forall c, c ∈ GraphStore.topCooccurrences stats -> c ∈ cooccurrences s) /\
  (length (GraphStore.topCooccurrences stats) <= 10)%nat /\
  StronglySorted (fun a b => Cooc.count b <= Cooc.count a)
    (GraphStore.topCooccurrences stats) /\
  (forall c c',
     c ∈ GraphStore.topCooccurrences stats -> c' ∈ cooccurrences s ->
     c' ∉ GraphStore.topCooccurrences stats -> Cooc.count c' <= Cooc.count c) /\
  (length (GraphStore.topCooccurrences stats) =
   Nat.min 10 (length (cooccurrences s))).
Proof.
  intros aid stats. subst stats. unfold GraphStore.getStats. fold aid.
  cbn [GraphStore.entityCount GraphStore.tripleCount GraphStore.recentEntities
       GraphStore.topCooccurrences].
  split.
  { intros a -> Ha. unfold aid. simpl. by destruct a. }
  split; [done|]. split; [done|].
  unfold Stmt.recentEntities, Stmt.topCooccurrences.
  split.
  { intros e He%elem_of_limit%elem_of_order_by%list_elem_of_filter. tauto. }
  split.
  { pose proof (length_limit 10 (Sql.order_by Stmt.seen_later_first
      (filter (fun e => Entity.agent_id e = aid) (entities s)))). lia. }
  split.
  { apply StronglySorted_limit, order_by_sorted; unfold Stmt.seen_later_first.
    - intros a b. apply string_leb_total.
    - intros a b c Hab Hbc. by eapply string_leb_trans. }
  split; [done|]. split; [done|].
  split. { by intros c Hc%elem_of_limit%elem_of_order_by. }
  split.
  { pose proof (length_limit 10 (Sql.order_by Stmt.more_first (cooccurrences s))).
    lia. }
  split.
  { apply StronglySorted_limit.
    eapply StronglySorted_weaken; [|apply more_first_sorted].
    intros a b. unfold Stmt.more_first. lia. }
  split.
  { intros c c' Hc Hc' Hnot.
    assert (Stmt.more_first c c' = true) as Hle; [|unfold Stmt.more_first in Hle; lia].
    eapply (limit_top (fun a b => Stmt.more_first a b = true));
      [apply more_first_sorted|exact Hc|by apply elem_of_order_by|exact Hnot]. }
  unfold Sql.limit. simpl. by rewrite length_take, length_order_by.
Qed.

(** ** [getTriplesFor] *)

Lemma filter_ext_elem {A} (P Q : A -> Prop)
    `{!forall x, Decision (P x)} `{!forall x, Decision (Q x)} (l : list A) :
  (forall x, x ∈ l -> (P x <-> Q x)) -> filter P l = filter Q l.
Proof.
  induction l as [|x l IH]; intros Hext; [done|]. rewrite !filter_cons.
  rewrite IH by (intros y Hy; apply Hext; by right).
  destruct (decide (P x)) as [HP|HP].
  - rewrite decide_True; [done|]. apply Hext; [by left|done].
  - rewrite decide_False; [done|]. intros HQ. apply HP, Hext; [by left|done].
Qed.

Lemma dedup_by_id_fresh seen l t :
  t ∈ GraphStore.dedup_by_id seen l -> (Triple.id t ∉ seen) /\ (t ∈ l).
Proof.
  revert seen. induction l as [|x l IH]; intros seen; simpl;
    [by intros ?%not_elem_of_nil|].
  destruct (decide (Triple.id x ∈ seen)) as [Hx|Hx].
  - intros [? ?]%IH. split; [done|by right].
  - intros [->|Ht]%elem_of_cons; [split; [done|by left]|].
    apply IH in Ht as [Hs Ht]. split; [set_solver|by right].
Qed.

Lemma dedup_by_id_NoDup seen l :
  NoDup (Triple.id <$> GraphStore.dedup_by_id seen l).
Proof.
  revert seen. induction l as [|x l IH]; intros seen; simpl; [constructor|].
  destruct (decide (Triple.id x ∈ seen)); [apply IH|].
  rewrite fmap_cons. constructor; [|apply IH].
  intros [t [Hid Ht]]%list_elem_of_fmap.
  apply dedup_by_id_fresh in Ht as [Hs _]. set_solver.
Qed.

Lemma dedup_by_id_filter seen l :
  NoDup (Triple.id <$> l) ->
  GraphStore.dedup_by_id seen l = filter (fun t => Triple.id t ∉ seen) l.
Proof.
  revert seen. induction l as [|x l IH]; intros seen; [done|].
  rewrite fmap_cons, NoDup_cons. intros [Hx Hnd]. simpl. rewrite filter_cons.
  destruct (decide (Triple.id x ∈ seen)) as [Hs|Hs].
  - rewrite decide_False by tauto. by apply IH.
  - rewrite decide_True by done. f_equal. rewrite IH by done.
    apply filter_ext_elem. intros t Ht.
    assert (Triple.id t <> Triple.id x).
    { intros Heq. apply Hx. rewrite <- Heq. by apply list_elem_of_fmap_2. }
    set_solver.
Qed.

Lemma dedup_by_id_app seen l1 l2 :
  GraphStore.dedup_by_id seen (l1 ++ l2) =
  GraphStore.dedup_by_id seen l1 ++
  GraphStore.dedup_by_id (list_to_set (Triple.id <$> l1) ∪ seen) l2.
Proof.
  revert seen. induction l1 as [|x l1 IH]; intros seen; simpl.
  { f_equal. set_solver. }
  destruct (decide (Triple.id x ∈ seen)) as [Hs|Hs].
  - rewrite IH. do 2 f_equal. set_solver.
  - simpl. rewrite IH. do 3 f_equal. set_solver.
Qed.

Lemma scan_NoDup_ids (P : Triple.t -> Prop) `{!forall t, Decision (P t)} lim s :
  store_wf s ->
  NoDup (Triple.id <$> Sql.limit lim (Sql.order_by Stmt.newer_first (filter P (triples s)))).
Proof.
  intros [Hnd _ _ _].
  eapply sublist_NoDup; [|apply fmap_sublist, limit_sublist].
  rewrite order_by_Permutation.
  eapply sublist_NoDup; [exact Hnd|]. apply fmap_sublist, sublist_filter.
Qed.

Lemma scan_length {A} (le : A -> A -> bool) lim (l : list A) :
  0 <= lim -> Z.of_nat (length (Sql.limit lim (Sql.order_by le l))) <= lim.
Proof. apply length_limit. Qed.

(** C5, as stated, fails: the result is not ordered most recently updated
    first.  With an older triple where [alice] is the subject and a newer
    one where it is the object, the older one comes first. *)
Lemma getTriplesFor_not_ordered :
  ~ StronglySorted (fun a b => Stmt.newer_first a b = true)
      (GraphStore.getTriplesFor "Alice" None None (db Sample2.world)).
Proof.
  intros Hs. vm_compute in Hs. inversion Hs as [|? ? _ Hall]; subst.
  apply Forall_cons in Hall as [Hlt _]. discriminate Hlt.
Qed.

(** C5, amended.  [getTriplesFor] returns the rows of the subject scan
    followed by the rows of the object scan whose id the subject scan does
    not have.  Each scan holds rows of the agent with the normalized entity
    as subject (object), is ordered most recently updated first and has at
    most [limit] rows (50 when no limit is given), leaving out a matching row
    only when it is full and none of its rows is older; the concatenation is
    not re-ordered.  Every id occurs at most once, a row is in the result exactly
    when it is in one of the scans, and the result has at most twice [limit]
    rows. *)
Theorem getTriplesFor_union entityName agentId limit s :
  store_wf s ->
  let id := normalizeEntityId entityName in
  let aid := js_or agentId "main" in
  let lim := js_or_int limit 50 in
  let asSubject := Stmt.getTriplesForSubject id aid lim s in
  let asObject := Stmt.getTriplesForObject id aid lim s in
  let result := GraphStore.getTriplesFor entityName agentId limit s in
  result =
    asSubject ++ filter (fun t => Triple.id t ∉ Triple.id <$> asSubject) asObject /\
  NoDup (Triple.id <$> result) /\
  (forall t, t ∈ result <-> t ∈ asSubject \/ t ∈ asObject) /\
  (forall t, t ∈ asSubject ->
     t ∈ triples s /\ Triple.subject t = id /\ Triple.agent_id t = aid) /\
  (forall t, t ∈ asObject ->
     t ∈ triples s /\ Triple.object t = id /\ Triple.agent_id t = aid) /\
  StronglySorted (fun a b => Stmt.newer_first a b = true) asSubject /\
  StronglySorted (fun a b => Stmt.newer_first a b = true) asObject /\
  (forall t,
     t ∈ triples s -> Triple.subject t = id -> Triple.agent_id t = aid ->
     t ∈ asSubject \/
     (Z.of_nat (length asSubject) = lim /\
      forall t', t' ∈ asSubject -> Stmt.newer_first t' t = true)) /\
  (forall t,
     t ∈ triples s -> Triple.object t = id -> Triple.agent_id t = aid ->
     t ∈ asObject \/
     (Z.of_nat (length asObject) = lim /\
      forall t', t' ∈ asObject -> Stmt.newer_first t' t = true)) /\
  (0 <= lim ->
   Z.of_nat (length asSubject) <= lim /\ Z.of_nat (length asObject) <= lim /\
   Z.of_nat (length result) <= 2 * lim).
Proof.
  intros Hwf id aid lim asSubject asObject result.
  assert (NoDup (Triple.id <$> asSubject)) as HndS by by apply scan_NoDup_ids.
  assert (NoDup (Triple.id <$> asObject)) as HndO by by apply scan_NoDup_ids.
  assert (result = asSubject ++
            filter (fun t => Triple.id t ∉ Triple.id <$> asSubject) asObject) as Hres.
  { subst result. unfold GraphStore.getTriplesFor.
    fold id aid lim asSubject asObject.
    rewrite dedup_by_id_app, !dedup_by_id_filter by done.
    f_equal.
    - clear. induction asSubject as [|t l IH]; [done|].
      rewrite filter_cons, decide_True by set_solver. f_equal.
      erewrite list_filter_iff; [exact IH|]. set_solver.
    - apply list_filter_iff. intros t. set_solver. }
  split; [done|].
  split; [apply dedup_by_id_NoDup|].
  split.
  { intros t. rewrite Hres, elem_of_app, list_elem_of_filter.
    split; [tauto|]. intros [Ht|Ht]; [by left|].
    destruct (decide (Triple.id t ∈ Triple.id <$> asSubject)) as [Hin|Hin];
      [|by right].
    left. apply list_elem_of_fmap in Hin as (t' & Hid & Ht').
    assert (t' ∈ triples s) as Hs'.
    { by apply elem_of_limit, elem_of_order_by, list_elem_of_filter in Ht' as [_ ?]. }
    assert (t ∈ triples s) as Hs.
    { by apply elem_of_limit, elem_of_order_by, list_elem_of_filter in Ht as [_ ?]. }
    destruct Hwf as [Hnd _ _ _].
    pose proof (head_filter_unique Triple.id _ _ Hnd Hs) as H1.
    pose proof (head_filter_unique Triple.id _ _ Hnd Hs') as H2.
    rewrite <- Hid in H2. congruence. }
  split.
  { intros t Ht%elem_of_limit%elem_of_order_by%list_elem_of_filter. tauto. }
  split.
  { intros t Ht%elem_of_limit%elem_of_order_by%list_elem_of_filter. tauto. }
  split; [apply StronglySorted_limit, newer_first_sorted|].
  split; [apply StronglySorted_limit, newer_first_sorted|].
  split.
  { intros t Ht Hs Ha.
    apply (limit_complete (fun a b => Stmt.newer_first a b = true));
      [apply newer_first_sorted|].
    apply elem_of_order_by. by apply list_elem_of_filter. }
  split.
  { intros t Ht Ho Ha.
    apply (limit_complete (fun a b => Stmt.newer_first a b = true));
      [apply newer_first_sorted|].
    apply elem_of_order_by. by apply list_elem_of_filter. }
  intros Hlim.
  assert (Z.of_nat (length asSubject) <= lim) as HS by by apply scan_length.
  assert (Z.of_nat (length asObject) <= lim) as HO by by apply scan_length.
  split; [done|]. split; [done|].
  rewrite Hres, length_app.
  pose proof (length_filter (fun t => Triple.id t ∉ Triple.id <$> asSubject) asObject).
  lia.
Qed.

(** With the limit 1, each scan gives one row and the result has two: the
    older row of the subject scan first. *)
Lemma getTriplesFor_union_witness :
  Triple.id <$> GraphStore.getTriplesFor "Alice" None (Some 1) (db Sample2.world)
  = [1; 2] /\
  Triple.updated_at <$> GraphStore.getTriplesFor "Alice" None (Some 1) (db Sample2.world)
  = ["2026-03-01 10:00:01"; "2026-03-01 10:00:03"].
Proof.
  assert (store_wf (db Sample2.world)) as Hwf.
  { split; vm_compute; repeat constructor; set_solver. }
  destruct (getTriplesFor_union "Alice" None (Some 1) (db Sample2.world) Hwf)
    as (Hres & _).
  rewrite Hres. split; reflexivity.
Defined.

(** ** Loops and transactions *)

Lemma bind_inr {A B} (m : M A) (k : A -> M B) env w b w' :
  bind m k env w = (inr b, w') ->
  exists a w1, m env w = (inr a, w1) /\ k a env w1 = (inr b, w').
Proof.
  unfold bind. destruct (m env w) as [[e|a] w1]; [done|]. intros Hk.
  by exists a, w1.
Qed.

Section loop_invariants.
Context {A : Type} (env : Env) (I : World -> Prop).

Lemma for_each_stable (body : A -> M unit) (P : World -> Prop) l w w' :
  (forall x w0 w1, I w0 -> body x env w0 = (inr tt, w1) -> I w1) ->
  (forall x w0 w1, I w0 -> P w0 -> body x env w0 = (inr tt, w1) -> P w1) ->
  I w -> P w -> for_each body l env w = (inr tt, w') -> I w' /\ P w'.
Proof.
  intros HI HP. revert w. induction l as [|x l IH]; intros w Hw HPw; simpl.
  { unfold ret. by intros [= <-]. }
  intros ([] & w1 & Hx & Hl)%bind_inr. eapply IH; [| |exact Hl]; eauto.
Qed.

Lemma for_each_inv (body : A -> M unit) (Q : A -> World -> Prop) l w w' :
  (forall x w0 w1, I w0 -> body x env w0 = (inr tt, w1) -> I w1 /\ Q x w1) ->
  (forall x x' w0 w1,
     I w0 -> Q x w0 -> body x' env w0 = (inr tt, w1) -> Q x w1) ->
  I w -> for_each body l env w = (inr tt, w') ->
  I w' /\ Forall (fun x => Q x w') l.
Proof.
  intros Hstep Hkeep. revert w. induction l as [|x l IH]; intros w Hw; simpl.
  { unfold ret. by intros [= <-]. }
  intros ([] & w1 & Hx & Hl)%bind_inr.
  destruct (Hstep _ _ _ Hw Hx) as [Hw1 HQ].
  destruct (IH _ Hw1 Hl) as [Hw' Hall]. split; [done|].
  constructor; [|done].
  eapply (for_each_stable body (Q x)); [| |exact Hw1|exact HQ|exact Hl].
  - intros y w0 w2 H0 Hy. by destruct (Hstep _ _ _ H0 Hy).
  - intros y w0 w2 H0 HQ0 Hy. by eapply Hkeep.
Qed.

Lemma for_each_push_stable {B} (body : A -> M B) (P : World -> Prop) l w ys w' :
  (forall x y w0 w1, I w0 -> body x env w0 = (inr y, w1) -> I w1) ->
  (forall x y w0 w1, I w0 -> P w0 -> body x env w0 = (inr y, w1) -> P w1) ->
  I w -> P w -> for_each_push body l env w = (inr ys, w') -> I w' /\ P w'.
Proof.
  intros HI HP. revert w ys. induction l as [|x l IH]; intros w ys Hw HPw; simpl.
  { unfold ret. by intros [= <- <-]. }
  intros (y & w1 & Hx & (ys' & w2 & Hl & Hret)%bind_inr)%bind_inr.
  unfold ret in Hret. injection Hret as <- <-.
  eapply IH; [| |exact Hl]; eauto.
Qed.

Lemma for_each_push_inv {B} (body : A -> M B) (Q : A -> B -> World -> Prop)
    l w ys w' :
  (forall x y w0 w1, I w0 -> body x env w0 = (inr y, w1) -> I w1 /\ Q x y w1) ->
  (forall x y x' y' w0 w1,
     I w0 -> Q x y w0 -> body x' env w0 = (inr y', w1) -> Q x y w1) ->
  I w -> for_each_push body l env w = (inr ys, w') ->
  I w' /\ Forall2 (fun x y => Q x y w') l ys.
Proof.
  intros Hstep Hkeep. revert w ys. induction l as [|x l IH]; intros w ys Hw; simpl.
  { unfold ret. intros [= <- <-]. by split. }
  intros (y & w1 & Hx & (ys' & w2 & Hl & Hret)%bind_inr)%bind_inr.
  unfold ret in Hret. injection Hret as <- <-.
  destruct (Hstep _ _ _ _ Hw Hx) as [Hw1 HQ].
  destruct (IH _ _ Hw1 Hl) as [Hw' Hall]. split; [done|].
  constructor; [|done].
  eapply (for_each_push_stable body (Q x y)); [| |exact Hw1|exact HQ|exact Hl].
  - intros x' y' w0 w3 H0 Hy. by destruct (Hstep _ _ _ _ H0 Hy).
  - intros x' y' w0 w3 H0 HQ0 Hy. by eapply Hkeep.
Qed.
End loop_invariants.

Lemma transaction_cases {A} (body : M A) env w :
  (exists a w', body env w = (inr a, w') /\ transaction body env w = (inr a, w')) \/
  (exists e w', transaction body env w = (inl e, w') /\ db w' = db w).
Proof.
  unfold transaction. destruct (body env w) as [[e|a] w1].
  - right. by exists e, (mkWorld (db w) (ticks w1)).
  - left. by exists a, w1.
Qed.

(** ** [writeExchange] *)

Lemma upsertEntity_ok env w name type agentId id w' :
  GraphStore.upsertEntity name type agentId env w = (inr id, w') ->
  exists n,
    name = Some n /\ id = normalizeEntityId n /\
    w' = mkWorld (Stmt.upsertEntity (clock env (ticks w)) (normalizeEntityId n) n
                    (js_or type "CONCEPT") (js_or agentId "main") (db w))
           (S (ticks w)).
Proof.
  unfold GraphStore.upsertEntity, bind, the_string, ret, throw.
  destruct name as [n|]; [|done]. unfold run.
  destruct (fault env (ticks w)); [done|]. intros [= <- <-]. by exists n.
Qed.

Lemma upsertEntity_ids now id n t a s :
  Entity.id <$> entities (Stmt.upsertEntity now id n t a s) =
  if decide (id ∈ Entity.id <$> entities s) then Entity.id <$> entities s
  else (Entity.id <$> entities s) ++ [id].
Proof.
  unfold Stmt.upsertEntity. cbn [entities].
  destruct (decide _) as [Hin|Hin].
  - rewrite <- list_fmap_compose. apply list_fmap_ext.
    intros i e _. apply mention_or_keep_id.
  - by rewrite fmap_app.
Qed.

Lemma upsertEntity_ids_mono now id n t a s id' :
  id' ∈ Entity.id <$> entities s ->
  id' ∈ Entity.id <$> entities (Stmt.upsertEntity now id n t a s).
Proof.
  rewrite upsertEntity_ids. destruct (decide _); [done|].
  intros ?. apply elem_of_app. by left.
Qed.

Lemma upsertEntity_ids_self now id n t a s :
  id ∈ Entity.id <$> entities (Stmt.upsertEntity now id n t a s).
Proof.
  rewrite upsertEntity_ids. destruct (decide _); [done|].
  apply elem_of_app. right. by left.
Qed.

Lemma store_wf_upsertEntity now id n t a s :
  store_wf s -> store_wf (Stmt.upsertEntity now id n t a s).
Proof.
  intros [H1 H2 H3 H4]. split; try done.
  rewrite upsertEntity_ids. destruct (decide _) as [Hin|Hin]; [done|].
  apply NoDup_app. split; [done|]. split; [|apply NoDup_singleton].
  intros id' Hid' ->%list_elem_of_singleton. done.
Qed.

Lemma cooc_update_key now a b c :
  Stmt.cooc_key
    (if decide (Stmt.cooc_key c = (a, b)) then Cooc.mk a b (Cooc.count c + 1) now
     else c) = Stmt.cooc_key c.
Proof. by destruct (decide _) as [->|]. Qed.

Lemma upsertCooccurrence_keys now a b s :
  Stmt.cooc_key <$> cooccurrences (Stmt.upsertCooccurrence now a b s) =
  if decide ((a, b) ∈ Stmt.cooc_key <$> cooccurrences s)
  then Stmt.cooc_key <$> cooccurrences s
  else (Stmt.cooc_key <$> cooccurrences s) ++ [(a, b)].
Proof.
  unfold Stmt.upsertCooccurrence. cbn [cooccurrences].
  destruct (decide _) as [Hin|Hin].
  - rewrite <- list_fmap_compose. apply list_fmap_ext.
    intros i c _. apply cooc_update_key.
  - by rewrite fmap_app.
Qed.

Lemma upsertCooccurrence_keys_mono now a b s k :
  k ∈ Stmt.cooc_key <$> cooccurrences s ->
  k ∈ Stmt.cooc_key <$> cooccurrences (Stmt.upsertCooccurrence now a b s).
Proof.
  rewrite upsertCooccurrence_keys. destruct (decide _); [done|].
  intros ?. apply elem_of_app. by left.
Qed.

Lemma upsertCooccurrence_keys_self now a b s :
  (a, b) ∈ Stmt.cooc_key <$> cooccurrences (Stmt.upsertCooccurrence now a b s).
Proof.
  rewrite upsertCooccurrence_keys. destruct (decide _); [done|].
  apply elem_of_app. right. by left.
Qed.

Lemma store_wf_upsertCooccurrence now a b s :
  store_wf s -> store_wf (Stmt.upsertCooccurrence now a b s).
Proof.
  intros [H1 H2 H3 H4]. split; try done.
  change (NoDup (Stmt.cooc_key <$>
                   cooccurrences (Stmt.upsertCooccurrence now a b s))).
  rewrite upsertCooccurrence_keys. destruct (decide _) as [Hin|Hin]; [done|].
  apply NoDup_app. split; [done|]. split; [|apply NoDup_singleton].
  intros k Hk ->%list_elem_of_singleton. done.
Qed.

Lemma cooc_sorted_upsert now a b s :
  JsString.leb a b = true -> cooc_sorted s ->
  cooc_sorted (Stmt.upsertCooccurrence now a b s).
Proof.
  intros Hab Hs. unfold cooc_sorted, Stmt.upsertCooccurrence in *.
  cbn [cooccurrences]. destruct (decide _).
  - apply Forall_fmap. eapply Forall_impl; [exact Hs|].
    intros c Hc. unfold compose. by destruct (decide _).
  - apply Forall_app. split; [done|]. by repeat constructor.
Qed.

Lemma sort_pair_sorted a b :
  JsString.leb (GraphStore.sort_pair a b).1 (GraphStore.sort_pair a b).2 = true.
Proof.
  unfold GraphStore.sort_pair, JsString.ltb, JsString.leb, String.ltb, String.leb.
  destruct (String.compare b a) eqn:Hba; simpl.
  - apply String.compare_eq_iff in Hba as ->.
    destruct (String.compare a a) eqn:Haa; try done.
    pose proof (String.compare_antisym a a) as Hanti.
    rewrite Haa in Hanti. done.
  - by rewrite Hba.
  - rewrite String.compare_antisym, Hba. done.
Qed.

Lemma register_entities_inv env aid es w w1 :
  store_wf (db w) ->
  GraphStore.register_entities aid es env w = (inr tt, w1) ->
  (store_wf (db w1) /\ triples (db w1) = triples (db w) /\
   triples_seq (db w1) = triples_seq (db w) /\
   cooccurrences (db w1) = cooccurrences (db w)) /\
  Forall (entity_registered (db w1)) es.
Proof.
  intros Hwf. unfold GraphStore.register_entities.
  apply (for_each_inv env
           (fun w0 => store_wf (db w0) /\ triples (db w0) = triples (db w) /\
                      triples_seq (db w0) = triples_seq (db w) /\
                      cooccurrences (db w0) = cooccurrences (db w))
           _ (fun e w0 => entity_registered (db w0) e)); [| |done].
  - intros e w0 w' (Hwf0 & Ht & Hs & Hc) (id & w2 & Hup & Hret)%bind_inr.
    unfold ret in Hret. injection Hret as <-.
    apply upsertEntity_ok in Hup as (n & Hn & -> & ->). cbn [db].
    split; [by split; [apply store_wf_upsertEntity|]|].
    exists n. split; [done|apply upsertEntity_ids_self].
  - intros e e' w0 w' _ (n & Hn & Hin) (id & w2 & Hup & Hret)%bind_inr.
    unfold ret in Hret. injection Hret as <-.
    apply upsertEntity_ok in Hup as (n' & Hn' & -> & ->). cbn [db].
    exists n. split; [done|by apply upsertEntity_ids_mono].
Qed.

Lemma triple_with_id_elem id s row :
  triple_with_id id s = Some row -> Triple.id row = id /\ row ∈ triples s.
Proof. apply (head_filter_Some_elem (fun t => Triple.id t = id)). Qed.

(** A successful [addTriple] keeps every row, with its key. *)
Lemma addTriple_keeps_rows env w a id' w' id row :
  store_wf (db w) ->
  GraphStore.addTriple a env w = (inr id', w') ->
  triple_with_id id (db w) = Some row ->
  exists row',
    triple_with_id id (db w') = Some row' /\
    (forall s p o ag, Stmt.triple_key s p o ag row -> Stmt.triple_key s p o ag row').
Proof.
  intros Hwf Hrun Hrow.
  destruct (addTriple_ok _ _ _ _ _ Hrun) as (sid & oid & Hkey & Hf1 & Hf2).
  destruct (addTriple_effect env w a sid oid Hwf Hkey Hf1 Hf2)
    as (id2 & w2 & row2 & Hrun2 & _ & _ & _ & Hrow2 & _ & _ & Hcase).
  rewrite Hrun in Hrun2. injection Hrun2 as <- <-.
  assert (forall id0, id0 <> id' ->
            triple_with_id id0 (db w') = triple_with_id id0 (db w)) as Hother.
  { destruct (Stmt.findTriple _ _ _ _ _); [by destruct Hcase as (_ & _ & ? & _)|].
    by destruct Hcase as (_ & _ & _ & ?). }
  destruct (decide (id = id')) as [->|Hne].
  - destruct (Stmt.findTriple _ _ _ _ _).
    + destruct Hcase as (_ & _ & _ & row0 & Hrow0 & ->).
      assert (row0 = row) as -> by congruence.
      eexists. split; [exact Hrow2|]. by intros s p o ag Hk.
    + destruct Hcase as (-> & _).
      apply triple_with_id_elem in Hrow as [Hid Hin].
      by destruct (fresh_triple_id _ _ Hwf Hin).
  - exists row. split; [by rewrite Hother|done].
Qed.

Lemma write_triples_inv env aid src date ts w w2 ids :
  store_wf (db w) ->
  GraphStore.write_triples aid src date ts env w = (inr ids, w2) ->
  (store_wf (db w2) /\ entities (db w2) = entities (db w) /\
   cooccurrences (db w2) = cooccurrences (db w)) /\
  Forall2 (id_of_triple (js_or (Some aid) "main") (db w2)) ts ids.
Proof.
  intros Hwf. unfold GraphStore.write_triples.
  apply (for_each_push_inv env
           (fun w0 => store_wf (db w0) /\ entities (db w0) = entities (db w) /\
                      cooccurrences (db w0) = cooccurrences (db w))
           _ (fun t id w0 => id_of_triple (js_or (Some aid) "main") (db w0) t id));
    [| |done].
  - intros t id w0 w' (Hwf0 & He & Hc) Hrun.
    destruct (addTriple_ok _ _ _ _ _ Hrun) as (sid & oid & Hkey & Hf1 & Hf2).
    destruct (addTriple_effect env w0 _ sid oid Hwf0 Hkey Hf1 Hf2)
      as (id2 & w2' & row2 & Hrun2 & Hwf' & _ & Hfind & Hrow2 & He' & Hc' & _).
    rewrite Hrun in Hrun2. injection Hrun2 as <- <-.
    split; [split; [done|split; congruence]|].
    destruct (findTriple_Some_row _ _ _ _ _ _ Hwf' Hfind) as (row & Hrow & Hk).
    destruct Hkey as (s & o & Hs & Ho & <- & <-).
    by exists row, s, o.
  - intros t id t' id' w0 w' (Hwf0 & _) (row & s & o & Hrow & Hs & Ho & Hk) Hrun.
    destruct (addTriple_keeps_rows _ _ _ _ _ _ _ Hwf0 Hrun Hrow) as (row' & Hrow' & Hkeep).
    exists row', s, o. eauto.
Qed.

Lemma update_cooccurrences_inv env cs w w3 :
  store_wf (db w) ->
  GraphStore.update_cooccurrences cs env w = (inr tt, w3) ->
  (store_wf (db w3) /\ triples (db w3) = triples (db w) /\
   entities (db w3) = entities (db w) /\
   (cooc_sorted (db w) -> cooc_sorted (db w3))) /\
  Forall (pair_counted (db w3)) cs.
Proof.
  intros Hwf. unfold GraphStore.update_cooccurrences.
  assert (forall ab w0 w',
    (let '(a, b) := ab in
     aId <- (s <- the_string a;; ret (normalizeEntityId s));;
     bId <- (s <- the_string b;; ret (normalizeEntityId s));;
     let sorted := GraphStore.sort_pair aId bId in
     run (fun now s =>
            (tt, Stmt.upsertCooccurrence now sorted.1 sorted.2 s))) env w0
    = (inr tt, w') ->
    exists a b now,
      ab = (Some a, Some b) /\
      db w' = Stmt.upsertCooccurrence now
                (GraphStore.sort_pair (normalizeEntityId a) (normalizeEntityId b)).1
                (GraphStore.sort_pair (normalizeEntityId a) (normalizeEntityId b)).2
                (db w0)) as Hbody.
  { intros [[a|] [b|]] w0 w'; unfold bind, the_string, ret, throw; try done.
    unfold run. destruct (fault env (ticks w0)); [done|]. intros [= <-].
    by exists a, b, (clock env (ticks w0)). }
  apply (for_each_inv env
           (fun w0 => store_wf (db w0) /\ triples (db w0) = triples (db w) /\
                      entities (db w0) = entities (db w) /\
                      (cooc_sorted (db w) -> cooc_sorted (db w0)))
           _ (fun ab w0 => pair_counted (db w0) ab)); [| |done].
  - intros ab w0 w' (Hwf0 & Ht & He & Hs) (a & b & now & -> & Hdb)%Hbody.
    rewrite Hdb. split.
    + split; [by apply store_wf_upsertCooccurrence|]. split; [done|]. split; [done|].
      intros Hsorted. apply cooc_sorted_upsert; [apply sort_pair_sorted|auto].
    + exists a, b. split; [done|].
      rewrite (surjective_pairing (GraphStore.sort_pair _ _)) at 1.
      apply upsertCooccurrence_keys_self.
  - intros ab ab' w0 w' _ (a & b & -> & Hin) (a' & b' & now & -> & Hdb)%Hbody.
    rewrite Hdb. exists a, b. split; [done|].
    by apply upsertCooccurrence_keys_mono.
Qed.

Lemma writeExchange_transaction env w x :
  GraphStore.writeExchange x env w =
  transaction (
    let aid := js_or (GraphStore.x_agentId x) "main" in
    _ <- GraphStore.register_entities aid (default [] (GraphStore.x_entities x)) ;;
    tripleIds <- GraphStore.write_triples aid (GraphStore.x_sourceExchangeId x)
                   (exchange_date x (clock env (ticks w)))
                   (default [] (GraphStore.x_triples x)) ;;
    _ <- GraphStore.update_cooccurrences (default [] (GraphStore.x_cooccurrences x)) ;;
    ret tripleIds) env w.
Proof.
  unfold GraphStore.writeExchange, exchange_date, bind at 1, today, ret.
  destruct (GraphStore.x_sourceDate x) as [d|]; [destruct (is_empty d)|]; done.
Qed.

Lemma js_or_idem a d : js_or (Some (js_or a d)) d = js_or a d.
Proof.
  unfold js_or. destruct a as [s|]; [destruct (is_empty s) eqn:Hs|];
    try by destruct d. by rewrite Hs.
Qed.


Lemma store_wf_empty : store_wf empty_store.
Proof. split; simpl; constructor. Qed.


(** The same batch with a pair whose second name is missing: the loop over
    the pairs throws after the entities, the triple and the first pair were
    written, and the transaction takes them back. *)
Example writeExchange_undefined_name :
  let x := GraphStore.mkExchange
             (GraphStore.x_entities Sample.alice_visited_paris)
             (GraphStore.x_triples Sample.alice_visited_paris)
             (Some [(Some "Paris", Some "Alice"); (Some "Alice", None)])
             None (Some "E1") None in
  GraphStore.writeExchange x Sample.env Sample.start =
    (inl TypeError, mkWorld empty_store 5).
Proof. reflexivity. Qed.

Example writeExchange_success :
  exists w',
    GraphStore.writeExchange Sample.alice_visited_paris Sample.env Sample.start
      = (inr [1], w') /\
    Entity.id <$> entities (db w') = ["alice"; "paris"] /\
    Stmt.cooc_key <$> cooccurrences (db w') = [("alice", "paris")].
Proof. eexists. split; [reflexivity|]. split; reflexivity. Qed.

(** ** The searcher *)

Section scoring.
Import GraphSearcher Scoring.
Context (cfg : Config).

Lemma score_triples_accumulate (mk : Triple.t -> Contribution) hit ts m :
  (forall t, triple_of (mk t) = t) ->
  (forall t, Scoring.apply cfg (mk t) = hit t) ->
  score_triples hit ts m = accumulate cfg (mk <$> ts) m.
Proof.
  intros Hof Hap. unfold score_triples, accumulate. revert m.
  induction ts as [|t ts IH]; intros m; [done|].
  rewrite fmap_cons. cbn [fold_left]. unfold exchange at 2.
  by rewrite IH, Hof, Hap.
Qed.

Lemma accumulate_app cs1 cs2 m :
  accumulate cfg (cs1 ++ cs2) m = accumulate cfg cs2 (accumulate cfg cs1 m).
Proof. apply fold_left_app. Qed.

Lemma expand_entity_accumulate aid s m q :
  expand_entity cfg aid s m q = accumulate cfg (entity_contributions aid s q) m.
Proof.
  unfold expand_entity, entity_contributions. rewrite accumulate_app.
  rewrite (score_triples_accumulate (Direct (name q))) by done.
  generalize (accumulate cfg
    (Direct (name q) <$> GraphStore.getTriplesFor (name q) (Some aid) (Some 100) s) m).
  induction (GraphStore.getCooccurrences (name q) (Some 5) s) as [|c cs IH];
    intros m'; [done|].
  cbn [fold_left flat_map]. rewrite accumulate_app, IH.
  by rewrite (score_triples_accumulate (Expansion c)).
Qed.

Lemma fold_expand_entity aid s qs m :
  fold_left (expand_entity cfg aid s) qs m =
  accumulate cfg (all_contributions aid s qs) m.
Proof.
  revert m. induction qs as [|q qs IH]; intros m; [done|].
  cbn [fold_left all_contributions flat_map].
  by rewrite accumulate_app, IH, expand_entity_accumulate.
Qed.

Lemma apply_id c e : e_id (Scoring.apply cfg c e) = e_id e.
Proof. by destruct c. Qed.

Lemma update_entry_ids x f m :
  (forall e, e_id (f e) = e_id e) ->
  e_id <$> update_entry x f m =
  if decide (x ∈ e_id <$> m) then e_id <$> m else (e_id <$> m) ++ [x].
Proof.
  intros Hf. unfold update_entry. destruct (decide _).
  - rewrite <- list_fmap_compose. apply list_fmap_ext. intros i ent _. simpl.
    by destruct (decide _).
  - rewrite fmap_app. simpl. by rewrite Hf.
Qed.

Lemma for_exchange_snoc x cs c :
  for_exchange x (cs ++ [c]) =
  for_exchange x cs ++ (if decide (exchange c = Some x) then [c] else []).
Proof. unfold for_exchange. by rewrite filter_app. Qed.

Lemma summary_snoc_same cs c x :
  exchange c = Some x ->
  summary cfg (cs ++ [c]) x = Scoring.apply cfg c (summary cfg cs x).
Proof.
  intros Hx. unfold summary. rewrite for_exchange_snoc, decide_True by done.
  by rewrite fold_left_app.
Qed.

Lemma summary_snoc_other cs c y :
  exchange c <> Some y -> summary cfg (cs ++ [c]) y = summary cfg cs y.
Proof.
  intros Hx. unfold summary. rewrite for_exchange_snoc, decide_False by done.
  by rewrite app_nil_r.
Qed.


(** The map after the loops: one entry per exchange that some contribution
    reached, holding what the contributions of that exchange add up to. *)
Lemma accumulate_summary cs :
  let m := accumulate cfg cs [] in
  NoDup (e_id <$> m) /\
  (forall e, e ∈ m -> e = summary cfg cs (e_id e)) /\
  (forall x, x ∈ e_id <$> m <-> for_exchange x cs <> []).
Proof.
  induction cs as [|c cs IH] using rev_ind.
  { simpl. split; [constructor|]. split; [by intros e ?%not_elem_of_nil|].
    intros x. split; [by intros ?%not_elem_of_nil|done]. }
  cbv zeta in *. rewrite accumulate_app. cbn [accumulate fold_left].
  destruct IH as (Hnd & Hsum & Hmem).
  set (m := accumulate cfg cs []) in *.
  destruct (exchange c) as [x|] eqn:Hx.
  - assert (forall y, for_exchange y (cs ++ [c]) <> [] <->
                      y = x \/ for_exchange y cs <> []) as Hreach.
    { intros y. rewrite for_exchange_snoc, Hx.
      destruct (decide (Some x = Some y)) as [[= ->]|Hne].
      - split; [by left|]. intros _. by destruct (for_exchange y cs).
      - rewrite app_nil_r. split; [by right|]. intros [->|]; done. }
    split; [|split].
    + rewrite update_entry_ids by apply apply_id.
      destruct (decide _) as [Hin|Hin]; [done|].
      apply NoDup_app. split; [done|]. split; [|apply NoDup_singleton].
      by intros y Hy ->%list_elem_of_singleton.
    + intros e. unfold update_entry. destruct (decide _) as [Hin|Hin].
      * intros (e0 & -> & He0)%list_elem_of_fmap.
        destruct (decide (e_id e0 = x)) as [Heq|Hne].
        -- rewrite apply_id, Heq, summary_snoc_same by done.
           f_equal. rewrite <- Heq. by apply Hsum.
        -- rewrite summary_snoc_other by congruence. by apply Hsum.
      * intros [He| ->%list_elem_of_singleton]%elem_of_app.
        -- rewrite summary_snoc_other; [by apply Hsum|].
           rewrite Hx. intros [= ->]. apply Hin. by apply list_elem_of_fmap_2.
        -- rewrite apply_id. cbn [fresh_entry e_id].
           rewrite summary_snoc_same by done. f_equal.
           unfold summary.
           destruct (for_exchange x cs) eqn:Hfx; [done|].
           destruct Hin. apply Hmem. by rewrite Hfx.
    + intros y. rewrite Hreach, update_entry_ids by apply apply_id.
      destruct (decide _) as [Hin|Hin].
      * rewrite Hmem. split; [by right|]. intros [->|]; [by apply Hmem|done].
      * rewrite elem_of_app, list_elem_of_singleton, Hmem. tauto.
  - split; [done|]. split.
    + intros e He. rewrite summary_snoc_other by (rewrite Hx; done). by apply Hsum.
    + intros y. rewrite for_exchange_snoc, Hx, decide_False, app_nil_r by done.
      apply Hmem.
Qed.
End scoring.

Section entry_fields.
Import GraphSearcher Scoring.
Context (cfg : Config).






Lemma rank_elem h m :
  h ∈ rank cfg m <->
  exists e, e ∈ m /\ h = to_hit e /\
            minSharedEntities cfg <= Z.of_nat (length (e_sharedEntities e)).
Proof.
  unfold rank. rewrite elem_of_order_by, list_elem_of_fmap. split.
  - intros (e & -> & [Hmin He]%list_elem_of_filter). by exists e.
  - intros (e & He & -> & Hmin). exists e. split; [done|].
    by apply list_elem_of_filter.
Qed.

End entry_fields.

Section search.
Import GraphSearcher Scoring.


End search.


(** * Further properties of the store and the searcher *)

(** ** What every method keeps *)

Lemma js_or_nonempty a d : d <> "" -> js_or a d <> "".
Proof.
  intros Hd. unfold js_or. destruct a as [s|]; [|done].
  destruct s; [done|]. simpl. done.
Qed.

Lemma js_or_num_nonzero c d : ~ (d == 0)%Q -> ~ (js_or_num c d == 0)%Q.
Proof.
  intros Hd. unfold js_or_num. destruct c as [q|]; [|done].
  destruct (Qeq_bool q 0) eqn:Hq; [done|]. by apply Qeq_bool_neq.
Qed.

Lemma effective_confidence_nonzero a : ~ (effective_confidence a == 0)%Q.
Proof. apply js_or_num_nonzero. done. Qed.

Lemma Qmax_nonzero a b : ~ (a == 0)%Q -> ~ (b == 0)%Q -> ~ (Qmax a b == 0)%Q.
Proof.
  intros Ha Hb. destruct (Q.max_spec a b) as [[_ ->]|[_ ->]]; done.
Qed.

Lemma or_null_not_empty a : GraphStore.or_null a <> Some "".
Proof. destruct a as [[|c s]|]; done. Qed.

Lemma triple_key_key_of s p o a t :
  Stmt.triple_key s p o a t <-> key_of t = (s, p, o, a).
Proof.
  unfold Stmt.triple_key, key_of. split.
  - by intros (-> & -> & -> & ->).
  - by intros [= -> -> -> ->].
Qed.

Lemma findTriple_None_key s p o a st :
  Stmt.findTriple s p o a st = None -> (s, p, o, a) ∉ key_of <$> triples st.
Proof.
  unfold Stmt.findTriple. intros Hf [t [Hk Ht]]%list_elem_of_fmap.
  destruct (head _) eqn:Hh; [done|].
  pose proof (proj1 (head_filter_None (Stmt.triple_key s p o a) (triples st)) Hh)
    as Hnone.
  apply (Hnone t Ht). by apply triple_key_key_of.
Qed.

Lemma store_inv_empty : store_inv empty_store.
Proof. split; simpl; try constructor; apply store_wf_empty. Qed.

Lemma store_inv_upsertEntity now n type agent s :
  agent <> "" -> store_inv s ->
  store_inv (Stmt.upsertEntity now (normalizeEntityId n) n type agent s).
Proof.
  intros Ha [Hwf Hk Ht He Hc]. split; try done.
  - by apply store_wf_upsertEntity.
  - unfold Stmt.upsertEntity. cbn [entities]. destruct (decide _).
    + apply Forall_fmap. eapply Forall_impl; [exact He|].
      intros ent (Hid & Hm & Hag). unfold compose.
      destruct (decide _); [|done]. unfold Stmt.mention. simpl.
      split; [done|]. split; [lia|done].
    + apply Forall_app. split; [done|]. by repeat constructor.
Qed.

Lemma store_inv_update now c id s :
  ~ (c == 0)%Q -> store_inv s ->
  store_inv (Stmt.updateTripleConfidence now c id s).
Proof.
  intros Hc0 [Hwf Hk Ht He Hc]. split; try done.
  - by apply store_wf_update.
  - cbn [Stmt.updateTripleConfidence triples]. rewrite <- list_fmap_compose.
    erewrite list_fmap_ext; [exact Hk|]. intros i t _. simpl.
    by destruct (decide _).
  - cbn [Stmt.updateTripleConfidence triples]. apply Forall_fmap.
    eapply Forall_impl; [exact Ht|]. intros t (H1 & H2 & H3 & H4 & H5).
    unfold compose. destruct (decide _); [|done].
    cbn. split; [done|]. split; [done|]. split; [|done].
    by apply Qmax_nonzero.
Qed.

Lemma store_inv_insert now s p o c src date a pend st :
  Stmt.findTriple s p o a st = None ->
  is_normalized s -> is_normalized o -> ~ (c == 0)%Q -> src <> Some "" ->
  a <> "" -> store_inv st ->
  store_inv (Stmt.insertTriple now s p o c src date a pend st).2.
Proof.
  intros Hf Hs Ho Hc0 Hsrc Ha [Hwf Hk Ht He Hc]. split; try done.
  - by apply store_wf_insert.
  - cbn. rewrite fmap_app. apply NoDup_app. split; [done|].
    split; [|apply NoDup_singleton].
    intros k Hin ->%list_elem_of_singleton.
    by apply (findTriple_None_key _ _ _ _ _ Hf).
  - cbn. apply Forall_app. split; [done|]. by repeat constructor.
Qed.

Lemma sort_pair_cases a b :
  GraphStore.sort_pair a b = (a, b) \/ GraphStore.sort_pair a b = (b, a).
Proof. unfold GraphStore.sort_pair. destruct (JsString.ltb b a); auto. Qed.

Lemma store_inv_upsertCooccurrence now a b s :
  JsString.leb a b = true -> is_normalized a -> is_normalized b ->
  store_inv s -> store_inv (Stmt.upsertCooccurrence now a b s).
Proof.
  intros Hab Hna Hnb [Hwf Hk Ht He Hc]. split; try done.
  - by apply store_wf_upsertCooccurrence.
  - unfold Stmt.upsertCooccurrence. cbn [cooccurrences]. destruct (decide _).
    + apply Forall_fmap. eapply Forall_impl; [exact Hc|].
      intros c (H1 & H2 & H3 & H4). unfold compose.
      destruct (decide _); [|done]. simpl. repeat split; try done. lia.
    + apply Forall_app. split; [done|]. by repeat constructor.
Qed.

Lemma Forall_filter_keep {A} (P : A -> Prop) (Q : A -> Prop)
    `{!forall x, Decision (Q x)} (l : list A) :
  Forall P l -> Forall P (filter Q l).
Proof.
  rewrite !Forall_forall. intros Hall x [_ Hx]%list_elem_of_filter. by apply Hall.
Qed.

Lemma store_inv_delete exchange s :
  store_inv s -> store_inv (Stmt.deleteTriplesByExchange exchange s).2.
Proof.
  intros [[W1 W2 W3 W4] Hk Ht He Hc]. split; try done.
  - split; try done; cbn.
    + eapply sublist_NoDup; [exact W1|]. apply fmap_sublist, sublist_filter.
    + by apply Forall_filter_keep.
  - cbn. eapply sublist_NoDup; [exact Hk|]. apply fmap_sublist, sublist_filter.
  - cbn. by apply Forall_filter_keep.
Qed.

(** *** The outcomes of the methods *)

Lemma upsertEntity_outcome env w name type agentId :
  match GraphStore.upsertEntity name type agentId env w with
  | (inl _, w') => db w' = db w
  | (inr id, w') =>
      exists n,
        name = Some n /\ id = normalizeEntityId n /\
        db w' = Stmt.upsertEntity (clock env (ticks w)) id n
                  (js_or type "CONCEPT") (js_or agentId "main") (db w)
  end.
Proof.
  unfold GraphStore.upsertEntity, bind, the_string, ret, throw.
  destruct name as [n|]; [|done]. unfold run.
  destruct (fault env (ticks w)); [done|]. by exists n.
Qed.

Lemma resolveEntity_outcome env w name type agentId :
  match GraphStore.resolveEntity name type agentId env w with
  | (inl _, w') => db w' = db w
  | (inr (id, isNew), w') =>
      exists n,
        name = Some n /\ id = normalizeEntityId n /\
        isNew = bool_decide (Stmt.getEntity id (db w) = None) /\
        db w' = Stmt.upsertEntity (clock env (S (ticks w))) id n
                  (js_or type "CONCEPT") (js_or agentId "main") (db w)
  end.
Proof.
  unfold GraphStore.resolveEntity, GraphStore.upsertEntity, bind, the_string,
    ret, throw.
  destruct name as [n|]; [|done]. unfold run at 1.
  destruct (fault env (ticks w)); [done|]. cbn [db ticks]. unfold run.
  cbn [db ticks]. destruct (fault env (S (ticks w))); [done|]. by exists n.
Qed.

Ltac failed_call :=
  let H := fresh in
  intros H;
  first [discriminate H
        | injection H as <- <-; reflexivity
        | inversion H; subst; reflexivity].

Lemma addTriple_failure env w a e w' :
  GraphStore.addTriple a env w = (inl e, w') -> db w' = db w.
Proof.
  unfold GraphStore.addTriple, bind, the_string, ret, throw.
  destruct (GraphStore.subject a) as [s|]; [|failed_call].
  destruct (GraphStore.object a) as [o|]; [|failed_call].
  unfold run at 1. destruct (fault env (ticks w)); [failed_call|].
  cbn [db ticks].
  destruct (Stmt.findTriple _ _ _ _ _).
  - cbn beta. unfold run. cbn [db ticks].
    destruct (fault env (S (ticks w))); failed_call.
  - unfold today, ret, run.
    destruct (GraphStore.sourceDate a) as [d|]; [destruct (is_empty d)|];
      cbn beta iota; cbn [db ticks]; destruct (fault env (S (ticks w)));
      failed_call.
Qed.

Lemma has_key_normalized a sid oid :
  has_key a sid oid -> is_normalized sid /\ is_normalized oid.
Proof.
  intros (s & o & _ & _ & <- & <-). split; apply normalizeEntityId_idem.
Qed.

Lemma addTriple_outcome env w a :
  match GraphStore.addTriple a env w with
  | (inl _, w') => db w' = db w
  | (inr id, w') =>
      exists sid oid,
        has_key a sid oid /\
        let now := clock env (S (ticks w)) in
        let aid := js_or (GraphStore.agentId a) "main" in
        match Stmt.findTriple sid (GraphStore.predicate a) oid aid (db w) with
        | Some id0 =>
            id = id0 /\
            db w' = Stmt.updateTripleConfidence now (effective_confidence a) id0 (db w)
        | None =>
            id = triples_seq (db w) + 1 /\
            db w' = (Stmt.insertTriple now sid (GraphStore.predicate a) oid
                       (effective_confidence a)
                       (GraphStore.or_null (GraphStore.sourceExchangeId a))
                       (effective_date a now) aid
                       (if GraphStore.pendingResolution a then 1 else 0) (db w)).2
        end
  end.
Proof.
  destruct (GraphStore.addTriple a env w) as [[e|id] w'] eqn:Hrun.
  { by eapply addTriple_failure. }
  destruct (addTriple_ok _ _ _ _ _ Hrun) as (sid & oid & Hkey & Hf1 & Hf2).
  exists sid, oid. split; [done|].
  rewrite (addTriple_run env w a sid oid Hkey Hf1 Hf2) in Hrun. cbv zeta in *.
  destruct (Stmt.findTriple _ _ _ _ _); injection Hrun as <- <-; done.
Qed.

Lemma deleteTriplesByExchange_outcome env w exchangeId :
  match GraphStore.deleteTriplesByExchange exchangeId env w with
  | (inl _, w') => db w' = db w
  | (inr info, w') =>
      db w' = (Stmt.deleteTriplesByExchange exchangeId (db w)).2
  end.
Proof.
  unfold GraphStore.deleteTriplesByExchange, run.
  destruct (fault env (ticks w)); done.
Qed.

Lemma addTriple_inv env w a :
  store_inv (db w) -> store_inv (db (GraphStore.addTriple a env w).2).
Proof.
  intros Hinv. pose proof (addTriple_outcome env w a) as Hout.
  destruct (GraphStore.addTriple a env w) as [[e|id] w']; cbn [snd].
  { by rewrite Hout. }
  destruct Hout as (sid & oid & Hkey & Hcase). cbv zeta in Hcase.
  destruct (has_key_normalized _ _ _ Hkey) as [Hs Ho].
  destruct (Stmt.findTriple _ _ _ _ _) eqn:Hfind; destruct Hcase as [_ ->].
  - apply store_inv_update; [apply effective_confidence_nonzero|done].
  - apply store_inv_insert; try done.
    + apply effective_confidence_nonzero.
    + apply or_null_not_empty.
    + by apply js_or_nonempty.
Qed.

Lemma upsertEntity_inv env w name type agentId :
  store_inv (db w) ->
  store_inv (db (GraphStore.upsertEntity name type agentId env w).2).
Proof.
  intros Hinv. pose proof (upsertEntity_outcome env w name type agentId) as Hout.
  destruct (GraphStore.upsertEntity _ _ _ _ _) as [[e|id] w']; cbn [snd].
  { by rewrite Hout. }
  destruct Hout as (n & _ & -> & ->).
  apply store_inv_upsertEntity; [by apply js_or_nonempty|done].
Qed.

Lemma resolveEntity_inv env w name type agentId :
  store_inv (db w) ->
  store_inv (db (GraphStore.resolveEntity name type agentId env w).2).
Proof.
  intros Hinv. pose proof (resolveEntity_outcome env w name type agentId) as Hout.
  destruct (GraphStore.resolveEntity _ _ _ _ _) as [[e|[id isNew]] w']; cbn [snd].
  { by rewrite Hout. }
  destruct Hout as (n & _ & -> & _ & ->).
  apply store_inv_upsertEntity; [by apply js_or_nonempty|done].
Qed.

Lemma deleteTriplesByExchange_inv env w exchangeId :
  store_inv (db w) ->
  store_inv (db (GraphStore.deleteTriplesByExchange exchangeId env w).2).
Proof.
  intros Hinv. pose proof (deleteTriplesByExchange_outcome env w exchangeId) as Hout.
  destruct (GraphStore.deleteTriplesByExchange _ _ _) as [[e|info] w']; cbn [snd];
    rewrite Hout; [done|]. by apply store_inv_delete.
Qed.

Lemma cooccurrence_step env a b w0 w' :
  (aId <- (s <- the_string a;; ret (normalizeEntityId s));;
   bId <- (s <- the_string b;; ret (normalizeEntityId s));;
   let sorted := GraphStore.sort_pair aId bId in
   run (fun now s => (tt, Stmt.upsertCooccurrence now sorted.1 sorted.2 s)))
    env w0 = (inr tt, w') ->
  exists sa sb,
    a = Some sa /\ b = Some sb /\
    db w' = Stmt.upsertCooccurrence (clock env (ticks w0))
              (GraphStore.sort_pair (normalizeEntityId sa) (normalizeEntityId sb)).1
              (GraphStore.sort_pair (normalizeEntityId sa) (normalizeEntityId sb)).2
              (db w0).
Proof.
  destruct a as [sa|], b as [sb|]; unfold bind, the_string, ret, throw; try done.
  unfold run. destruct (fault env (ticks w0)); [done|]. intros [= <-].
  by exists sa, sb.
Qed.

Lemma sort_pair_normalized a b :
  is_normalized a -> is_normalized b ->
  is_normalized (GraphStore.sort_pair a b).1 /\
  is_normalized (GraphStore.sort_pair a b).2.
Proof. intros Ha Hb. by destruct (sort_pair_cases a b) as [-> | ->]. Qed.

Lemma writeExchange_inv env w x :
  store_inv (db w) -> store_inv (db (GraphStore.writeExchange x env w).2).
Proof.
  intros Hinv. rewrite writeExchange_transaction. cbv zeta.
  match goal with |- context [transaction ?body env w] =>
    destruct (transaction_cases body env w)
      as [(ids & w' & Hbody & ->)|(e & w' & -> & Hdb)]
  end; cbn [snd]; [|by rewrite Hdb].
  apply bind_inr in Hbody as ([] & w1 & H1 & Hbody).
  apply bind_inr in Hbody as (ids' & w2 & H2 & Hbody).
  apply bind_inr in Hbody as ([] & w3 & H3 & Hret).
  unfold ret in Hret. injection Hret as -> ->.
  assert (store_inv (db w1)) as Hinv1.
  { unfold GraphStore.register_entities in H1.
    eapply (for_each_stable env (fun w0 => store_inv (db w0)) _ (fun _ => True));
      [| |exact Hinv|done|exact H1]; [|done].
    intros e0 w0 w0' Hw0 (id & w0'' & Hup & Hret)%bind_inr.
    unfold ret in Hret. injection Hret as <-.
    pose proof (upsertEntity_inv env w0 (GraphStore.name e0) (GraphStore.type e0)
                  (Some (js_or (GraphStore.x_agentId x) "main")) Hw0) as Hnext.
    by rewrite Hup in Hnext. }
  assert (store_inv (db w2)) as Hinv2.
  { unfold GraphStore.write_triples in H2.
    eapply (for_each_push_stable env (fun w0 => store_inv (db w0)) _ (fun _ => True));
      [| |exact Hinv1|done|exact H2]; [|done].
    intros t id w0 w0' Hw0 Hadd. cbv beta in Hadd.
    match type of Hadd with GraphStore.addTriple ?a _ _ = _ =>
      pose proof (addTriple_inv env w0 a Hw0) as Hnext end.
    by rewrite Hadd in Hnext. }
  unfold GraphStore.update_cooccurrences in H3.
  eapply (for_each_stable env (fun w0 => store_inv (db w0)) _ (fun _ => True));
    [| |exact Hinv2|done|exact H3]; [|done].
  intros [a b] w0 w0' Hw0 (sa & sb & _ & _ & ->)%cooccurrence_step.
  destruct (sort_pair_normalized (normalizeEntityId sa) (normalizeEntityId sb))
    as [Hn1 Hn2]; try apply normalizeEntityId_idem.
  apply store_inv_upsertCooccurrence; try done. apply sort_pair_sorted.
Qed.

Lemma perform_db {A} (m : M A) env w :
  db (snd ((_ <- m ;; ret tt) env w)) = db (snd (m env w)).
Proof. unfold bind, ret. by destruct (m env w) as [[e|a] w']. Qed.

Lemma perform_inv c env w :
  store_inv (db w) -> store_inv (db (snd (perform c env w))).
Proof.
  intros Hinv. destruct c; unfold perform; rewrite perform_db.
  - by apply upsertEntity_inv.
  - by apply resolveEntity_inv.
  - by apply addTriple_inv.
  - by apply writeExchange_inv.
  - by apply deleteTriplesByExchange_inv.
Qed.

Lemma perform_all_inv cs env w :
  store_inv (db w) -> store_inv (db (perform_all cs env w)).
Proof.
  revert w. induction cs as [|c cs IH]; intros w Hinv; [done|].
  simpl. by apply IH, perform_inv.
Qed.

Lemma perform_all_invariant_from_empty cs env :
  store_inv (db (perform_all cs env (mkWorld empty_store 0))).
Proof. apply perform_all_inv, store_inv_empty. Qed.

(** X1.  Whatever calls a client makes, in whatever order, and whether they
    return or throw, the database keeps what the schema and the methods
    establish: the primary keys; one triple row per (subject, predicate,
    object, agent); normalized subjects and objects; confidences that are
    not zero; no empty exchange id or agent id; entity ids that are the
    normalized canonical names, with mention counts of at least 1;
    co-occurrence rows with normalized ids in order and counts of at least
    1. *)
Theorem perform_all_keeps_invariant cs env w :
  store_inv (db w) -> store_inv (db (perform_all cs env w)).
Proof. apply perform_all_inv. Qed.

(** Two batches and a re-extraction, from the empty database, with a
    storage failure on the way. *)
Lemma perform_all_keeps_invariant_witness :
  store_inv
    (db (perform_all
           [WriteExchange Sample.alice_visited_paris;
            WriteExchange Sample3.exchange1;
            DeleteTriplesByExchange "E1";
            WriteExchange Sample3.exchange2]
           (Sample.env_failing_at 7) Sample.start)).
Proof.
  apply (perform_all_keeps_invariant _ (Sample.env_failing_at 7) Sample.start).
  exact store_inv_empty.
Defined.

(** ** Failed calls *)

Lemma writeExchange_failure env w x e w' :
  GraphStore.writeExchange x env w = (inl e, w') -> db w' = db w.
Proof.
  rewrite writeExchange_transaction. cbv zeta. unfold transaction.
  match goal with |- context [match ?b with _ => _ end] =>
    destruct b as [[e0|ids] w0] end; failed_call.
Qed.

Lemma perform_inl {A} (m : M A) env w e w' :
  (_ <- m ;; ret tt) env w = (inl e, w') -> m env w = (inl e, w').
Proof.
  unfold bind, ret. destruct (m env w) as [[e0|a] w0]; cbn; [|discriminate].
  by intros [= -> ->].
Qed.

(** X2.  A call that throws leaves the database as it was: a missing name
    (a [TypeError], raised before or between statements) or a storage
    failure at any statement never leaves a partial write behind, for every
    method and not only for the transaction of [writeExchange]. *)
Theorem perform_failure_unchanged c env w e w' :
  perform c env w = (inl e, w') -> db w' = db w.
Proof.
  destruct c; unfold perform; intros Hrun%perform_inl.
  - pose proof (upsertEntity_outcome env w name type agentId) as Hout.
    by rewrite Hrun in Hout.
  - pose proof (resolveEntity_outcome env w name type agentId) as Hout.
    by rewrite Hrun in Hout.
  - by eapply addTriple_failure.
  - by eapply writeExchange_failure.
  - pose proof (deleteTriplesByExchange_outcome env w exchangeId) as Hout.
    by rewrite Hrun in Hout.
Qed.

(** [resolveEntity] whose upsert hits a storage failure, in a store that
    already has rows. *)
Lemma perform_failure_unchanged_witness :
  exists w',
    perform (ResolveEntity (Some "Rome") None None)
      (Sample.env_failing_at 6) Sample.world1 = (inl SqliteError, w') /\
    db w' = db Sample.world1.
Proof.
  eexists. split; [reflexivity|].
  apply (perform_failure_unchanged (ResolveEntity (Some "Rome") None None)
           (Sample.env_failing_at 6) Sample.world1 SqliteError).
  reflexivity.
Defined.

(** ** Nothing is lost *)

Lemma entity_kept_refl e : entity_kept e e.
Proof. unfold entity_kept. repeat split; lia. Qed.

Lemma cooc_kept_refl c : cooc_kept c c.
Proof. unfold cooc_kept. split; [done|lia]. Qed.

Lemma triple_kept_refl t : triple_kept t t.
Proof. unfold triple_kept. repeat split. apply Qle_refl. Qed.

Lemma grows_refl s : grows s s.
Proof.
  split; [lia|..].
  - intros e He. exists e. split; [done|apply entity_kept_refl].
  - intros c Hc. exists c. split; [done|apply cooc_kept_refl].
  - intros t Ht _. exists t. split; [done|apply triple_kept_refl].
Qed.

Lemma grows_trans s1 s2 s3 : grows s1 s2 -> grows s2 s3 -> grows s1 s3.
Proof.
  intros [A1 A2 A3 A4] [B1 B2 B3 B4]. split; [lia|..].
  - intros e He. destruct (A2 e He) as (e' & He' & K1).
    destruct (B2 e' He') as (e'' & He'' & K2). exists e''. split; [done|].
    unfold entity_kept in *. destruct K1 as (?&?&?&?&?&?), K2 as (?&?&?&?&?&?).
    repeat split; try congruence. lia.
  - intros c Hc. destruct (A3 c Hc) as (c' & Hc' & K1).
    destruct (B3 c' Hc') as (c'' & Hc'' & K2). exists c''. split; [done|].
    unfold cooc_kept in *. destruct K1, K2. split; [congruence|lia].
  - intros t'' Ht'' Hid. destruct (B4 t'' Ht'') as (t' & Ht' & K2); [lia|].
    destruct (A4 t' Ht') as (t & Ht & K1).
    { destruct K2 as (Heq & _). by rewrite <- Heq. }
    exists t. split; [done|]. unfold triple_kept in *.
    destruct K1 as (?&?&?&?&?&?), K2 as (?&?&?&?&?&?).
    repeat split; try congruence. by eapply Qle_trans.
Qed.

Lemma grows_upsertEntity now id n type agent s :
  grows s (Stmt.upsertEntity now id n type agent s).
Proof.
  split; cbn; [lia| |by intros c; exists c; split; [|apply cooc_kept_refl]
                   |by intros t; exists t; split; [|apply triple_kept_refl]].
  intros ent Hent. destruct (decide _).
  - exists (if decide (Entity.id ent = id) then Stmt.mention now ent else ent).
    split; [apply list_elem_of_fmap; by exists ent|].
    destruct (decide _); [|apply entity_kept_refl].
    unfold entity_kept, Stmt.mention. simpl. repeat split. lia.
  - exists ent. split; [apply elem_of_app; by left|apply entity_kept_refl].
Qed.

Lemma grows_upsertCooccurrence now a b s :
  grows s (Stmt.upsertCooccurrence now a b s).
Proof.
  split; cbn; [lia|by intros ent; exists ent; split; [|apply entity_kept_refl]|
              |by intros t; exists t; split; [|apply triple_kept_refl]].
  intros c Hc. destruct (decide _).
  - exists (if decide (Stmt.cooc_key c = (a, b))
            then Cooc.mk a b (Cooc.count c + 1) now else c).
    split; [apply list_elem_of_fmap; by exists c|].
    destruct (decide _) as [Hk|]; [|apply cooc_kept_refl].
    unfold cooc_kept. rewrite Hk. simpl. split; [done|lia].
  - exists c. split; [apply elem_of_app; by left|apply cooc_kept_refl].
Qed.

Lemma grows_update now c id s :
  grows s (Stmt.updateTripleConfidence now c id s).
Proof.
  split; cbn; [lia|by intros ent; exists ent; split; [|apply entity_kept_refl]
              |by intros x; exists x; split; [|apply cooc_kept_refl]|].
  intros t' (t & -> & Ht)%list_elem_of_fmap _. exists t. split; [done|].
  destruct (decide _); [|apply triple_kept_refl].
  unfold triple_kept, key_of. simpl. repeat split. apply Q.le_max_l.
Qed.

Lemma grows_insert now s p o c src date a pend st :
  grows st (Stmt.insertTriple now s p o c src date a pend st).2.
Proof.
  split; cbn; [lia|by intros ent; exists ent; split; [|apply entity_kept_refl]
              |by intros x; exists x; split; [|apply cooc_kept_refl]|].
  intros t' [Ht| ->%list_elem_of_singleton]%elem_of_app Hid.
  - exists t'. split; [done|apply triple_kept_refl].
  - simpl in Hid. lia.
Qed.

Lemma grows_delete exchange s :
  grows s (Stmt.deleteTriplesByExchange exchange s).2.
Proof.
  split; cbn; [lia|by intros ent; exists ent; split; [|apply entity_kept_refl]
              |by intros x; exists x; split; [|apply cooc_kept_refl]|].
  intros t' [_ Ht]%list_elem_of_filter _. exists t'.
  split; [done|apply triple_kept_refl].
Qed.

Lemma grows_addTriple env w a : grows (db w) (db (GraphStore.addTriple a env w).2).
Proof.
  pose proof (addTriple_outcome env w a) as Hout.
  destruct (GraphStore.addTriple a env w) as [[e|id] w']; cbn [snd].
  { rewrite Hout. apply grows_refl. }
  destruct Hout as (sid & oid & Hkey & Hcase). cbv zeta in Hcase.
  destruct (Stmt.findTriple _ _ _ _ _); destruct Hcase as [_ ->].
  - apply grows_update.
  - apply grows_insert.
Qed.

Lemma grows_upsertEntity_call env w name type agentId :
  grows (db w) (db (GraphStore.upsertEntity name type agentId env w).2).
Proof.
  pose proof (upsertEntity_outcome env w name type agentId) as Hout.
  destruct (GraphStore.upsertEntity _ _ _ _ _) as [[e|id] w']; cbn [snd].
  { rewrite Hout. apply grows_refl. }
  destruct Hout as (n & _ & _ & ->). apply grows_upsertEntity.
Qed.

Lemma grows_writeExchange env w x :
  grows (db w) (db (GraphStore.writeExchange x env w).2).
Proof.
  rewrite writeExchange_transaction. cbv zeta.
  match goal with |- context [transaction ?body env w] =>
    destruct (transaction_cases body env w)
      as [(ids & w' & Hbody & ->)|(e & w' & -> & Hdb)]
  end; cbn [snd]; [|rewrite Hdb; apply grows_refl].
  apply bind_inr in Hbody as ([] & w1 & H1 & Hbody).
  apply bind_inr in Hbody as (ids' & w2 & H2 & Hbody).
  apply bind_inr in Hbody as ([] & w3 & H3 & Hret).
  unfold ret in Hret. injection Hret as -> ->.
  assert (grows (db w) (db w1)) as G1.
  { unfold GraphStore.register_entities in H1.
    eapply (for_each_stable env (fun _ => True) _ (fun w0 => grows (db w) (db w0)));
      [done| |done|apply grows_refl|exact H1].
    intros e0 w0 w0' _ Hw0 (id & w0'' & Hup & Hret)%bind_inr.
    unfold ret in Hret. injection Hret as <-.
    eapply grows_trans; [exact Hw0|].
    pose proof (grows_upsertEntity_call env w0 (GraphStore.name e0)
                  (GraphStore.type e0)
                  (Some (js_or (GraphStore.x_agentId x) "main"))) as Hnext.
    by rewrite Hup in Hnext. }
  assert (grows (db w) (db w2)) as G2.
  { unfold GraphStore.write_triples in H2.
    eapply (for_each_push_stable env (fun _ => True) _
              (fun w0 => grows (db w) (db w0)));
      [done| |done|exact G1|exact H2].
    intros t id w0 w0' _ Hw0 Hadd. cbv beta in Hadd.
    eapply grows_trans; [exact Hw0|].
    match type of Hadd with GraphStore.addTriple ?a _ _ = _ =>
      pose proof (grows_addTriple env w0 a) as Hnext end.
    by rewrite Hadd in Hnext. }
  unfold GraphStore.update_cooccurrences in H3.
  eapply (for_each_stable env (fun _ => True) _ (fun w0 => grows (db w) (db w0)));
    [done| |done|exact G2|exact H3].
  intros [a b] w0 w0' _ Hw0 (sa & sb & _ & _ & ->)%cooccurrence_step.
  eapply grows_trans; [exact Hw0|]. apply grows_upsertCooccurrence.
Qed.

Lemma grows_perform c env w : grows (db w) (db (snd (perform c env w))).
Proof.
  destruct c; unfold perform; rewrite perform_db.
  - apply grows_upsertEntity_call.
  - pose proof (resolveEntity_outcome env w name type agentId) as Hout.
    destruct (GraphStore.resolveEntity _ _ _ _ _) as [[e|[id isNew]] w']; cbn [snd].
    { rewrite Hout. apply grows_refl. }
    destruct Hout as (n & _ & _ & _ & ->). apply grows_upsertEntity.
  - apply grows_addTriple.
  - apply grows_writeExchange.
  - pose proof (deleteTriplesByExchange_outcome env w exchangeId) as Hout.
    destruct (GraphStore.deleteTriplesByExchange _ _ _) as [[e|info] w'];
      cbn [snd]; rewrite Hout; [apply grows_refl|apply grows_delete].
Qed.

(** X3.  No sequence of calls loses an entity or a co-occurrence row or
    lowers one of their counts: every entity row is still there with its id,
    canonical name, type, first-seen time and agent, every co-occurrence
    row with its key.  Triple ids are never used twice, even after
    [deleteTriplesByExchange]: the AUTOINCREMENT counter never goes down,
    and a row that carries an id handed out earlier is the row of then, with
    the same fact, exchange, date and creation time and a confidence that is
    not lower. *)
Theorem perform_all_grows cs env w :
  grows (db w) (db (perform_all cs env w)).
Proof.
  revert w. induction cs as [|c cs IH]; intros w; [apply grows_refl|].
  simpl. eapply grows_trans; [apply grows_perform|apply IH].
Qed.

(** ** Registering and finding entities *)

Lemma getEntity_None_ids id s :
  Stmt.getEntity id s = None <-> id ∉ Entity.id <$> entities s.
Proof.
  unfold Stmt.getEntity.
  rewrite (head_filter_None (fun e => Entity.id e = id)). split.
  - intros Hall [e [-> He]]%list_elem_of_fmap. by apply (Hall e He).
  - intros Hid e He <-. apply Hid. by apply list_elem_of_fmap_2.
Qed.

Lemma resolveEntity_run env w n type agentId :
  fault env (ticks w) = false -> fault env (S (ticks w)) = false ->
  GraphStore.resolveEntity (Some n) type agentId env w =
    (inr (normalizeEntityId n,
          bool_decide (Stmt.getEntity (normalizeEntityId n) (db w) = None)),
     mkWorld (Stmt.upsertEntity (clock env (S (ticks w))) (normalizeEntityId n) n
                (js_or type "CONCEPT") (js_or agentId "main") (db w))
       (S (S (ticks w)))).
Proof.
  intros Hf1 Hf2.
  unfold GraphStore.resolveEntity, GraphStore.upsertEntity, bind, the_string, ret.
  rewrite run_ok by done. cbn [fst snd db ticks]. by rewrite run_ok by done.
Qed.

(** X4.  [resolveEntity] reports an entity as new exactly when no row has
    its normalized id, under whatever agent; it registers the entity in
    either case, so that resolving a name with the same id again, with any
    type and agent, reports it as not new. *)
Theorem resolveEntity_reports env w name type agentId n :
  name = Some n ->
  fault env (ticks w) = false -> fault env (S (ticks w)) = false ->
  exists isNew w',
    GraphStore.resolveEntity name type agentId env w =
      (inr (normalizeEntityId n, isNew), w') /\
    (isNew = true <-> normalizeEntityId n ∉ Entity.id <$> entities (db w)) /\
    normalizeEntityId n ∈ Entity.id <$> entities (db w') /\
    forall n2 type2 agentId2,
      normalizeEntityId n2 = normalizeEntityId n ->
      fault env (ticks w') = false -> fault env (S (ticks w')) = false ->
      fst (GraphStore.resolveEntity (Some n2) type2 agentId2 env w') =
        inr (normalizeEntityId n, false).
Proof.
  intros -> Hf1 Hf2. eexists _, _.
  split; [by apply resolveEntity_run|]. cbn [db ticks].
  split; [by rewrite bool_decide_eq_true, getEntity_None_ids|].
  split; [apply upsertEntity_ids_self|].
  intros n2 type2 agentId2 Hn2 Hf3 Hf4.
  rewrite resolveEntity_run by done. cbn [fst db]. rewrite Hn2. do 2 f_equal.
  apply bool_decide_eq_false. rewrite getEntity_None_ids.
  intros Hnot. apply Hnot, upsertEntity_ids_self.
Qed.

(** [Paris] is registered by the agent [main]; another agent resolves
    " PARIS ". *)
Lemma resolveEntity_reports_witness :
  exists w',
    GraphStore.resolveEntity (Some " PARIS ") None (Some "other")
      Sample.env Sample.world1 = (inr ("paris", false), w').
Proof.
  destruct (resolveEntity_reports Sample.env Sample.world1 (Some " PARIS ")
              None (Some "other") " PARIS " eq_refl eq_refl eq_refl)
    as (isNew & w' & Hrun & Hnew & _).
  exists w'. rewrite Hrun. do 2 f_equal.
  destruct isNew; [|done]. exfalso. apply (proj1 Hnew eq_refl).
  vm_compute. set_solver.
Defined.

(** X5.  In a database kept by the methods, a lookup by name agrees with
    the lookup by id: the row that [getEntityByName] finds is the row of the
    normalized name, it carries exactly the name asked for (the raw form of
    its first mention) and the agent asked for ([main] when none is
    given). *)
Theorem getEntityByName_by_id name agentId s row :
  store_inv s ->
  GraphStore.getEntityByName name agentId s = Some row ->
  GraphStore.getEntity (normalizeEntityId name) s = Some row /\
  Entity.canonical_name row = name /\
  Entity.agent_id row = js_or agentId "main".
Proof.
  intros [[_ _ Hids _] _ _ He _] Hrow.
  unfold GraphStore.getEntityByName, Stmt.getEntityByName in Hrow.
  apply (head_filter_Some_elem
           (fun e => Entity.canonical_name e = name /\
                     Entity.agent_id e = js_or agentId "main")) in Hrow
    as [[Hname Hagent] Hin].
  split; [|done].
  eapply Forall_forall in He as (Hid & _); [|exact Hin].
  unfold GraphStore.getEntity, Stmt.getEntity. rewrite <- Hname, <- Hid.
  by apply (head_filter_unique Entity.id).
Qed.

Lemma getEntityByName_by_id_witness :
  GraphStore.getEntity "alice" (db Sample.world1) =
    GraphStore.getEntityByName "Alice" None (db Sample.world1) /\
  GraphStore.getEntityByName "alice" None (db Sample.world1) = None.
Proof.
  assert (store_inv (db Sample.world1)) as Hinv.
  { apply (perform_all_invariant_from_empty
             [WriteExchange Sample.alice_visited_paris] Sample.env). }
  destruct (GraphStore.getEntityByName "Alice" None (db Sample.world1))
    as [row|] eqn:Hrow; [|done].
  destruct (getEntityByName_by_id "Alice" None (db Sample.world1) row Hinv Hrow)
    as (Hid & _).
  split; [exact Hid|reflexivity].
Defined.

(** ** Counting *)

Lemma mention_count_upsert now id0 n t a s id :
  mention_count_of id (Stmt.upsertEntity now id0 n t a s) =
  mention_count_of id s + (if decide (id = id0) then 1 else 0).
Proof.
  unfold mention_count_of.
  destruct (decide (id0 ∈ Entity.id <$> entities s)) as [Hin|Hin].
  - destruct (decide (id = id0)) as [->|Hne].
    + destruct (Stmt.getEntity id0 s) as [row|] eqn:Hrow.
      * by rewrite (getEntity_upsert_present _ _ _ _ _ _ row Hrow).
      * by apply getEntity_None_ids in Hrow.
    + rewrite getEntity_upsert_other by done. lia.
  - unfold Stmt.getEntity at 1. rewrite upsertEntity_absent by done.
    rewrite filter_app, filter_cons. cbn [Entity.id].
    destruct (decide (id0 = id)) as [<-|Hne].
    + rewrite decide_True by done.
      apply getEntity_None_ids in Hin. unfold Stmt.getEntity in *.
      apply head_None in Hin. by rewrite Hin.
    + rewrite decide_False by done. rewrite filter_nil, app_nil_r.
      fold (Stmt.getEntity id s). lia.
Qed.

Lemma cooccurrence_count_upsert now a b s key :
  cooccurrence_count_of key (Stmt.upsertCooccurrence now a b s) =
  cooccurrence_count_of key s + (if decide (key = (a, b)) then 1 else 0).
Proof.
  unfold cooccurrence_count_of, Stmt.upsertCooccurrence. cbn [cooccurrences].
  destruct (decide ((a, b) ∈ Stmt.cooc_key <$> cooccurrences s)) as [Hin|Hin].
  - rewrite (head_filter_fmap (fun c => Stmt.cooc_key c = key))
      by (intros c; by rewrite cooc_update_key).
    destruct (head (filter _ (cooccurrences s))) as [c|] eqn:Hc.
    + apply (head_filter_Some_elem (fun c => Stmt.cooc_key c = key)) in Hc
        as [Hk _].
      simpl. rewrite Hk. destruct (decide (key = (a, b))); simpl; lia.
    + simpl. destruct (decide (key = (a, b))) as [->|]; [|lia].
      pose proof (proj1 (head_filter_None
                           (fun c => Stmt.cooc_key c = (a, b)) _) Hc) as Hnone.
      apply list_elem_of_fmap in Hin as (c & Hk & Hcin).
      by destruct (Hnone c Hcin).
  - rewrite filter_app, filter_cons. cbn [Stmt.cooc_key Cooc.entity_a Cooc.entity_b].
    destruct (decide ((a, b) = key)) as [<-|Hne].
    + rewrite decide_True by done.
      assert (filter (fun c => Stmt.cooc_key c = (a, b)) (cooccurrences s) = [])
        as ->; [|simpl; by rewrite decide_True].
      apply head_None, (head_filter_None (fun c => Stmt.cooc_key c = (a, b))).
      intros c Hc Hk. apply Hin. rewrite <- Hk. by apply list_elem_of_fmap_2.
    + rewrite decide_False by done. rewrite filter_nil, app_nil_r.
      rewrite (decide_False (P := key = (a, b))) by congruence. lia.
Qed.

Lemma addTriple_frame env w a :
  entities (db (GraphStore.addTriple a env w).2) = entities (db w) /\
  cooccurrences (db (GraphStore.addTriple a env w).2) = cooccurrences (db w).
Proof.
  pose proof (addTriple_outcome env w a) as Hout.
  destruct (GraphStore.addTriple a env w) as [[e|id] w']; cbn [snd].
  { by rewrite Hout. }
  destruct Hout as (sid & oid & _ & Hcase). cbv zeta in Hcase.
  by destruct (Stmt.findTriple _ _ _ _ _); destruct Hcase as [_ ->].
Qed.

Lemma register_entities_counts env aid es w w1 :
  GraphStore.register_entities aid es env w = (inr tt, w1) ->
  cooccurrences (db w1) = cooccurrences (db w) /\
  forall id,
    mention_count_of id (db w1) =
    mention_count_of id (db w) + Z.of_nat (mentions_in id es).
Proof.
  unfold GraphStore.register_entities. revert w.
  induction es as [|e0 es IH]; intros w; simpl.
  { unfold ret. intros [= <-]. split; [done|]. intros id. unfold mentions_in.
    simpl. lia. }
  intros ([] & w0 & (id0 & w0' & Hup & Hret)%bind_inr & Hrest)%bind_inr.
  unfold ret in Hret. injection Hret as <-.
  apply upsertEntity_ok in Hup as (n & Hn & -> & ->).
  destruct (IH _ Hrest) as [Hc Hcount]. split; [by rewrite Hc|].
  intros id. rewrite Hcount. cbn [db]. rewrite mention_count_upsert.
  unfold mentions_in. rewrite filter_cons, Hn. cbn [fmap option_fmap option_map].
  destruct (decide (id = normalizeEntityId n)) as [->|Hne].
  - rewrite decide_True by done. cbn [length]. lia.
  - rewrite decide_False by congruence. lia.
Qed.

Lemma write_triples_frame env aid src date ts w w2 ids :
  GraphStore.write_triples aid src date ts env w = (inr ids, w2) ->
  entities (db w2) = entities (db w) /\
  cooccurrences (db w2) = cooccurrences (db w).
Proof.
  unfold GraphStore.write_triples. intros Hrun.
  eapply (for_each_push_stable env (fun _ => True) _
            (fun w0 => entities (db w0) = entities (db w) /\
                       cooccurrences (db w0) = cooccurrences (db w)));
    [done| |done|done|exact Hrun].
  intros t id w0 w0' _ [He Hc] Hadd. cbv beta in Hadd.
  match type of Hadd with GraphStore.addTriple ?a _ _ = _ =>
    destruct (addTriple_frame env w0 a) as [He' Hc'] end.
  rewrite Hadd in He', Hc'. cbn [snd] in *. split; congruence.
Qed.

Lemma update_cooccurrences_counts env cs w w3 :
  GraphStore.update_cooccurrences cs env w = (inr tt, w3) ->
  entities (db w3) = entities (db w) /\
  forall key,
    cooccurrence_count_of key (db w3) =
    cooccurrence_count_of key (db w) + Z.of_nat (pairs_in key cs).
Proof.
  unfold GraphStore.update_cooccurrences. revert w.
  induction cs as [|[a b] cs IH]; intros w; simpl.
  { unfold ret. intros [= <-]. split; [done|]. intros key. unfold pairs_in.
    simpl. lia. }
  intros ([] & w0 & (sa & sb & -> & -> & Hdb)%cooccurrence_step & Hrest)%bind_inr.
  destruct (IH _ Hrest) as [He Hcount]. split; [by rewrite He, Hdb|].
  intros key. rewrite Hcount, Hdb, cooccurrence_count_upsert.
  unfold pairs_in. rewrite filter_cons. cbn [pair_key].
  rewrite <- (surjective_pairing (GraphStore.sort_pair _ _)).
  destruct (decide (key = _)) as [->|Hne].
  - rewrite decide_True by done. cbn [length]. lia.
  - rewrite decide_False by congruence. lia.
Qed.

(** X6.  A batch that [writeExchange] commits raises the mention count of
    every entity id by the number of times the batch names it (from 0 for
    an id that was not registered), and the count of every co-occurrence
    row by the number of times the batch has its pair, in either order
    (from 0 for a pair without a row): one per mention, whatever the
    confidences. *)
Theorem writeExchange_counts env w x tripleIds w' :
  GraphStore.writeExchange x env w = (inr tripleIds, w') ->
  (forall id,
     mention_count_of id (db w') =
     mention_count_of id (db w) +
     Z.of_nat (mentions_in id (default [] (GraphStore.x_entities x)))) /\
  (forall key,
     cooccurrence_count_of key (db w') =
     cooccurrence_count_of key (db w) +
     Z.of_nat (pairs_in key (default [] (GraphStore.x_cooccurrences x)))).
Proof.
  rewrite writeExchange_transaction. cbv zeta. unfold transaction.
  match goal with |- context [match ?b with _ => _ end] =>
    destruct b as [[e0|ids] w0] eqn:Hbody end; [done|].
  intros [= -> ->].
  apply bind_inr in Hbody as ([] & w1 & H1 & Hbody).
  apply bind_inr in Hbody as (ids' & w2 & H2 & Hbody).
  apply bind_inr in Hbody as ([] & w3 & H3 & Hret).
  unfold ret in Hret. injection Hret as -> ->.
  destruct (register_entities_counts _ _ _ _ _ H1) as [Hc1 Hm1].
  destruct (write_triples_frame _ _ _ _ _ _ _ _ H2) as [He2 Hc2].
  destruct (update_cooccurrences_counts _ _ _ _ H3) as [He3 Hm3].
  split.
  - intros id. rewrite <- Hm1. unfold mention_count_of, Stmt.getEntity.
    by rewrite He3, He2.
  - intros key. rewrite Hm3. unfold cooccurrence_count_of.
    by rewrite Hc2, Hc1.
Qed.

(** The second sample batch mentions [bob] once more; the pair of the first
    batch is not in it. *)
Lemma writeExchange_counts_witness :
  mention_count_of "bob" (db Sample3.world) = 2 /\
  mention_count_of "rome" (db Sample3.world) = 1 /\
  cooccurrence_count_of ("alice", "bob") (db Sample3.world) = 1.
Proof.
  pose (w1 := Sample.after (GraphStore.writeExchange Sample3.exchange1)
                Sample.env Sample.start).
  destruct (writeExchange_counts Sample.env w1 Sample3.exchange2 [2]
              Sample3.world eq_refl) as [Hm Hc].
  rewrite !Hm, Hc. repeat split.
Defined.

(** ** The ids of a batch *)

Lemma NoDup_fmap_inj_on {A B} `{!EqDecision B} (f : A -> B) (l : list A) x y :
  NoDup (f <$> l) -> x ∈ l -> y ∈ l -> f x = f y -> x = y.
Proof.
  intros Hnd Hx Hy Hf.
  pose proof (head_filter_unique f l x Hnd Hx) as H1.
  pose proof (head_filter_unique f l y Hnd Hy) as H2.
  rewrite Hf in H1. congruence.
Qed.

Lemma writeExchange_returned env w x ids w' :
  store_wf (db w) ->
  GraphStore.writeExchange x env w = (inr ids, w') ->
  Forall2 (id_of_triple (js_or (GraphStore.x_agentId x) "main") (db w'))
    (default [] (GraphStore.x_triples x)) ids.
Proof.
  intros Hwf. rewrite writeExchange_transaction. cbv zeta. unfold transaction.
  match goal with |- context [match ?b with _ => _ end] =>
    destruct b as [[e0|ids0] w0] eqn:Hbody end; [done|].
  intros [= -> ->].
  apply bind_inr in Hbody as ([] & w1 & H1 & Hbody).
  apply bind_inr in Hbody as (ids' & w2 & H2 & Hbody).
  apply bind_inr in Hbody as ([] & w3 & H3 & Hret).
  unfold ret in Hret. injection Hret as -> ->.
  destruct (register_entities_inv _ _ _ _ _ Hwf H1) as [(Hwf1 & _) _].
  destruct (write_triples_inv _ _ _ _ _ _ _ _ Hwf1 H2) as [(Hwf2 & _) Hts].
  destruct (update_cooccurrences_inv _ _ _ _ Hwf2 H3) as [(_ & Ht3 & _) _].
  rewrite js_or_idem in Hts. eapply Forall2_impl; [exact Hts|].
  intros t id (row & s & o & Hrow & Hrest). exists row, s, o.
  split; [|done]. unfold triple_with_id in *. by rewrite Ht3.
Qed.

(** X7.  In a database kept by the methods, the ids that [writeExchange]
    returns tell the facts of the batch apart: there is one id per input
    triple, and two positions get the same id exactly when their triples
    state the same fact (same normalized subject and object, same
    predicate).  A fact repeated in the batch is stored once. *)
Theorem writeExchange_ids_by_fact env w x tripleIds w' :
  store_inv (db w) ->
  GraphStore.writeExchange x env w = (inr tripleIds, w') ->
  let ts := default [] (GraphStore.x_triples x) in
  length tripleIds = length ts /\
  forall i j t1 t2 id1 id2,
    ts !! i = Some t1 -> ts !! j = Some t2 ->
    tripleIds !! i = Some id1 -> tripleIds !! j = Some id2 ->
    (id1 = id2 <-> same_fact t1 t2).
Proof.
  intros Hinv Hrun ts.
  pose proof (writeExchange_inv env w x Hinv) as Hinv'.
  rewrite Hrun in Hinv'. cbn [snd] in Hinv'.
  pose proof (writeExchange_returned _ _ _ _ _ (inv_wf _ Hinv) Hrun) as Hall.
  fold ts in Hall. split; [symmetry; by eapply Forall2_length|].
  intros i j t1 t2 id1 id2 Ht1 Ht2 Hi1 Hi2.
  destruct (Forall2_lookup_lr _ _ _ _ _ _ Hall Ht1 Hi1)
    as (r1 & s1 & o1 & Hr1 & Hs1 & Ho1 & Hk1).
  destruct (Forall2_lookup_lr _ _ _ _ _ _ Hall Ht2 Hi2)
    as (r2 & s2 & o2 & Hr2 & Hs2 & Ho2 & Hk2).
  apply triple_with_id_elem in Hr1 as Hr1'. destruct Hr1' as [Hid1 Hin1].
  apply triple_with_id_elem in Hr2 as Hr2'. destruct Hr2' as [Hid2 Hin2].
  apply triple_key_key_of in Hk1, Hk2.
  unfold same_fact. rewrite Hs1, Hs2, Ho1, Ho2. simpl. split.
  - intros ->. assert (r1 = r2) as -> by congruence.
    rewrite Hk1 in Hk2. by injection Hk2 as -> -> ->.
  - intros ([= Hs] & Hp & [= Ho]).
    assert (r1 = r2) as ->; [|congruence].
    eapply (NoDup_fmap_inj_on key_of); [apply (inv_keys _ Hinv')|done..|].
    rewrite Hk1, Hk2. by rewrite Hs, Hp, Ho.
Qed.

Lemma writeExchange_ids_by_fact_witness :
  exists w',
    GraphStore.writeExchange Sample4.exchange Sample.env Sample.world1 =
      (inr [1; 2; 1], w').
Proof.
  assert (store_inv (db Sample.world1)) as Hinv.
  { apply (perform_all_invariant_from_empty
             [WriteExchange Sample.alice_visited_paris] Sample.env). }
  destruct (GraphStore.writeExchange Sample4.exchange Sample.env Sample.world1)
    as [[e|ids] w'] eqn:Hrun; [discriminate Hrun|].
  destruct (writeExchange_ids_by_fact Sample.env Sample.world1 Sample4.exchange
              ids w' Hinv Hrun) as [Hlen _].
  exists w'. vm_compute in Hrun. by injection Hrun as <- <-.
Defined.

(** ** Deleting again *)

Lemma filter_filter_same {A} (P : A -> Prop) `{!forall x, Decision (P x)}
    (l : list A) :
  filter P (filter P l) = filter P l.
Proof.
  induction l as [|x l IH]; [done|]. rewrite filter_cons.
  destruct (decide (P x)); [|done]. by rewrite filter_cons, decide_True, IH.
Qed.

Lemma filter_none {A} (P : A -> Prop) `{!forall x, Decision (P x)} (l : list A) :
  (forall x, x ∈ l -> ~ P x) -> filter P l = [].
Proof. intros Hall. by apply head_None, head_filter_None. Qed.

Lemma filter_all {A} (P : A -> Prop) `{!forall x, Decision (P x)} (l : list A) :
  (forall x, x ∈ l -> P x) -> filter P l = l.
Proof.
  induction l as [|x l IH]; intros Hall; [done|].
  rewrite filter_cons, decide_True by (apply Hall; by left).
  f_equal. apply IH. intros y Hy. apply Hall. by right.
Qed.

Lemma deleteTriplesByExchange_run env w exchangeId :
  fault env (ticks w) = false ->
  GraphStore.deleteTriplesByExchange exchangeId env w =
    (inr (GraphStore.mkRunInfo
            (Z.of_nat (length (filter (fun t => Triple.source_exchange_id t = Some exchangeId)
                                 (triples (db w)))))),
     mkWorld (mkStore
                (filter (fun t => Triple.source_exchange_id t <> Some exchangeId)
                   (triples (db w)))
                (triples_seq (db w)) (entities (db w)) (cooccurrences (db w)))
       (S (ticks w))).
Proof. intros Hf. unfold GraphStore.deleteTriplesByExchange. by rewrite run_ok. Qed.

(** X8.  Deleting the triples of an exchange a second time removes nothing
    and changes nothing.  The same holds for a first deletion when no triple
    carries the exchange id, as is the case for the empty id in every
    database kept by the methods: a triple written without an exchange id
    is stored with none and no deletion reaches it. *)
Theorem deleteTriplesByExchange_again env w exchangeId :
  fault env (ticks w) = false -> fault env (S (ticks w)) = false ->
  exists info1 w1 info2 w2,
    GraphStore.deleteTriplesByExchange exchangeId env w = (inr info1, w1) /\
    GraphStore.deleteTriplesByExchange exchangeId env w1 = (inr info2, w2) /\
    GraphStore.changes info2 = 0 /\
    db w2 = db w1 /\
    ((forall t, t ∈ triples (db w) ->
                Triple.source_exchange_id t <> Some exchangeId) ->
     GraphStore.changes info1 = 0 /\ db w1 = db w) /\
    (store_inv (db w) -> exchangeId = "" ->
     GraphStore.changes info1 = 0 /\ db w1 = db w) /\
    (forall t, t ∈ triples (db w) -> Triple.source_exchange_id t = None ->
               t ∈ triples (db w1)).
Proof.
  intros Hf1 Hf2. eexists _, _, _, _.
  split; [by apply deleteTriplesByExchange_run|].
  split; [by apply deleteTriplesByExchange_run|].
  cbn [GraphStore.changes db triples triples_seq entities cooccurrences].
  assert (forall l : list Triple.t,
            (forall t, t ∈ l -> Triple.source_exchange_id t <> Some exchangeId) ->
            filter (fun t => Triple.source_exchange_id t = Some exchangeId) l = [] /\
            filter (fun t => Triple.source_exchange_id t <> Some exchangeId) l = l)
    as Hnone.
  { intros l Hl. split; [apply filter_none|apply filter_all]; [|done].
    intros t Ht Heq. by apply (Hl t Ht). }
  destruct (Hnone (filter (fun t => Triple.source_exchange_id t <> Some exchangeId)
                     (triples (db w)))) as [H1 H2].
  { by intros t [? _]%list_elem_of_filter. }
  split; [by rewrite H1|]. split; [by rewrite H2|].
  assert ((forall t, t ∈ triples (db w) ->
             Triple.source_exchange_id t <> Some exchangeId) ->
          Z.of_nat (length (filter (fun t => Triple.source_exchange_id t = Some exchangeId)
                              (triples (db w)))) = 0 /\
          mkStore (filter (fun t => Triple.source_exchange_id t <> Some exchangeId)
                     (triples (db w)))
            (triples_seq (db w)) (entities (db w)) (cooccurrences (db w)) = db w)
    as Hfirst.
  { intros Hl. destruct (Hnone _ Hl) as [-> ->]. split; [done|]. by destruct (db w). }
  split; [exact Hfirst|]. split.
  - intros Hinv ->. apply Hfirst. intros t Ht.
    pose proof (inv_triples _ Hinv) as Hall.
    eapply Forall_forall in Hall as (_ & _ & _ & Hsrc & _); [|exact Ht]. done.
  - intros t Ht Hsrc. apply list_elem_of_filter. split; [|done]. by rewrite Hsrc.
Qed.

Lemma deleteTriplesByExchange_again_witness :
  exists w1 w2,
    GraphStore.deleteTriplesByExchange "E1" Sample.env Sample.world1 =
      (inr (GraphStore.mkRunInfo 1), w1) /\
    GraphStore.deleteTriplesByExchange "E1" Sample.env w1 =
      (inr (GraphStore.mkRunInfo 0), w2) /\
    db w2 = db w1.
Proof.
  destruct (deleteTriplesByExchange_again Sample.env Sample.world1 "E1"
              eq_refl eq_refl)
    as ([n1] & w1 & [n2] & w2 & H1 & H2 & Hn2 & Hdb & _).
  cbn [GraphStore.changes] in Hn2. subst n2.
  exists w1, w2. split; [|by split].
  rewrite H1. vm_compute in H1. by injection H1 as -> _.
Defined.

(** ** Co-occurrences are unordered pairs *)

Lemma string_leb_ltb a b :
  JsString.leb a b = true -> a <> b -> JsString.ltb a b = true.
Proof.
  unfold JsString.leb, JsString.ltb, String.leb, String.ltb.
  destruct (String.compare a b) eqn:Hab; try done.
  apply String.compare_eq_iff in Hab. done.
Qed.

Lemma string_leb_not_ltb a b :
  JsString.leb a b = true -> JsString.ltb b a = false.
Proof.
  unfold JsString.leb, JsString.ltb, String.leb, String.ltb.
  rewrite (String.compare_antisym a b).
  by destruct (String.compare b a).
Qed.

Lemma string_ltb_irrefl a : JsString.ltb a a = false.
Proof.
  unfold JsString.ltb, String.ltb.
  destruct (String.compare a a) eqn:Haa; try done.
  pose proof (String.compare_antisym a a) as Hanti. rewrite Haa in Hanti. done.
Qed.

Lemma sort_pair_comm a b : GraphStore.sort_pair a b = GraphStore.sort_pair b a.
Proof.
  unfold GraphStore.sort_pair.
  destruct (decide (a = b)) as [->|Hne]; [done|].
  destruct (string_leb_total a b) as [Hab|Hba].
  - by rewrite (string_leb_not_ltb a b), (string_leb_ltb a b).
  - rewrite (string_leb_ltb b a), (string_leb_not_ltb b a) by done. done.
Qed.

Lemma sort_pair_of_sorted a b :
  JsString.leb a b = true -> GraphStore.sort_pair a b = (a, b).
Proof. intros Hab. unfold GraphStore.sort_pair. by rewrite string_leb_not_ltb. Qed.

Lemma getCooccurrences_rows_inv entityName limit s c :
  store_inv s ->
  c ∈ GraphStore.getCooccurrences entityName limit s ->
  c ∈ cooccurrences s /\
  Stmt.cooc_key c =
    GraphStore.sort_pair (normalizeEntityId entityName)
      (GraphSearcher.other_side (normalizeEntityId entityName) c) /\
  1 <= Cooc.count c.
Proof.
  intros Hinv Hc. apply elem_of_limit, elem_of_order_by in Hc.
  apply list_elem_of_filter in Hc as [Hside Hin].
  pose proof (inv_cooccurrences _ Hinv) as Hall.
  eapply Forall_forall in Hall as (Hle & _ & _ & Hcount); [|exact Hin].
  split; [done|]. split; [|done].
  unfold GraphSearcher.other_side, Stmt.cooc_key.
  destruct (decide (Cooc.entity_a c = normalizeEntityId entityName)) as [Ha|Ha].
  - rewrite <- Ha. by rewrite sort_pair_of_sorted.
  - destruct Hside as [?|Hb]; [done|]. rewrite <- Hb.
    by rewrite sort_pair_comm, sort_pair_of_sorted.
Qed.

(** X9.  In a database kept by the methods, the rows that [getCooccurrences]
    gives for a name are rows of the table for the unordered pair of the
    normalized name and the entity on the other side, whichever side the
    name is stored on; no partner comes twice; the rows are in descending
    order of count, at most [limit || 20] of them, and no row of the entity
    that is left out counts more than one that is given. *)
Theorem getCooccurrences_partners entityName limit s :
  store_inv s ->
  let id := normalizeEntityId entityName in
  let lim := js_or_int limit 20 in
  let rows := GraphStore.getCooccurrences entityName limit s in
  (forall c, c ∈ rows ->
     c ∈ cooccurrences s /\
     Stmt.cooc_key c = GraphStore.sort_pair id (GraphSearcher.other_side id c)) /\
  NoDup (GraphSearcher.other_side id <$> rows) /\
  StronglySorted (fun c1 c2 => Cooc.count c2 <= Cooc.count c1) rows /\
  (0 <= lim -> Z.of_nat (length rows) <= lim) /\
  (forall c, c ∈ cooccurrences s ->
     Cooc.entity_a c = id \/ Cooc.entity_b c = id -> c ∉ rows ->
     Z.of_nat (length rows) = lim /\
     forall r, r ∈ rows -> Cooc.count c <= Cooc.count r).
Proof.
  intros Hinv id lim rows.
  assert (forall c, c ∈ rows ->
            c ∈ cooccurrences s /\ (Cooc.entity_a c = id \/ Cooc.entity_b c = id))
    as Hrows.
  { intros c Hc. apply elem_of_limit, elem_of_order_by in Hc.
    by apply list_elem_of_filter in Hc as [? ?]. }
  assert (forall c, c ∈ rows ->
            Stmt.cooc_key c = GraphStore.sort_pair id (GraphSearcher.other_side id c))
    as Hkey.
  { intros c Hc. destruct (Hrows c Hc) as [Hin Hside].
    pose proof (inv_cooccurrences _ Hinv) as Hall.
    eapply Forall_forall in Hall as (Hle & _); [|exact Hin].
    unfold GraphSearcher.other_side, Stmt.cooc_key.
    destruct (decide (Cooc.entity_a c = id)) as [Ha|Ha].
    - rewrite <- Ha. by rewrite sort_pair_of_sorted.
    - destruct Hside as [?|Hb]; [done|]. rewrite <- Hb.
      by rewrite sort_pair_comm, sort_pair_of_sorted. }
  split; [intros c Hc; split; [by apply Hrows|by apply Hkey]|].
  assert (NoDup rows) as Hnd.
  { eapply sublist_NoDup; [|apply limit_sublist].
    rewrite order_by_Permutation. apply NoDup_filter.
    eapply NoDup_fmap_1, (wf_cooc_keys _ (inv_wf _ Hinv)). }
  split.
  { apply NoDup_fmap_2_strong; [|done]. intros c1 c2 H1 H2 Hother.
    apply (NoDup_fmap_inj_on Stmt.cooc_key (cooccurrences s)).
    - apply (wf_cooc_keys _ (inv_wf _ Hinv)).
    - by apply Hrows.
    - by apply Hrows.
    - by rewrite (Hkey c1 H1), (Hkey c2 H2), Hother. }
  split.
  { apply StronglySorted_limit.
    eapply StronglySorted_weaken; [|apply more_first_sorted].
    intros a b. unfold Stmt.more_first. lia. }
  split; [apply length_limit|].
  intros c Hin Hside Hout.
  assert (c ∈ Sql.order_by Stmt.more_first
                (filter (fun c => Cooc.entity_a c = id \/ Cooc.entity_b c = id)
                   (cooccurrences s))) as Hc.
  { apply elem_of_order_by, list_elem_of_filter. by split. }
  destruct (limit_complete _ lim _ c (more_first_sorted _) Hc) as [?|[Hlen Htop]];
    [done|].
  split; [exact Hlen|]. intros r Hr. specialize (Htop r Hr).
  unfold Stmt.more_first in Htop. lia.
Qed.

Lemma getCooccurrences_partners_witness :
  GraphSearcher.other_side "alice"
    <$> GraphStore.getCooccurrences " Alice" None (db Sample.world1) = ["paris"] /\
  GraphSearcher.other_side "paris"
    <$> GraphStore.getCooccurrences "PARIS" None (db Sample.world1) = ["alice"] /\
  NoDup (GraphSearcher.other_side "alice"
           <$> GraphStore.getCooccurrences " Alice" None (db Sample.world1)).
Proof.
  assert (store_inv (db Sample.world1)) as Hinv.
  { apply (perform_all_invariant_from_empty
             [WriteExchange Sample.alice_visited_paris] Sample.env). }
  destruct (getCooccurrences_partners " Alice" None (db Sample.world1) Hinv)
    as (_ & Hnd & _).
  split; [reflexivity|]. split; [reflexivity|]. exact Hnd.
Defined.

Lemma for_each_ext {A B} (body : A -> M unit) (body' : B -> M unit)
    (f : A -> B) l env w :
  (forall x env w, body x env w = body' (f x) env w) ->
  for_each body l env w = for_each body' (f <$> l) env w.
Proof.
  intros Hext. revert w. induction l as [|x l IH]; intros w; [done|].
  rewrite fmap_cons. cbn [for_each]. unfold bind. rewrite Hext.
  destruct (body' (f x) env w) as [[e|[]] w1]; [done|]. apply IH.
Qed.

Lemma bind_ext {A B} (m : M A) (k k' : A -> M B) env w :
  (forall a w1, k a env w1 = k' a env w1) ->
  (a <- m ;; k a) env w = (a <- m ;; k' a) env w.
Proof. intros Hk. unfold bind. destruct (m env w) as [[e|a] w1]; [done|apply Hk]. Qed.

Lemma transaction_ext {A} (body body' : M A) env w :
  body env w = body' env w -> transaction body env w = transaction body' env w.
Proof. intros Hb. unfold transaction. by rewrite Hb. Qed.

(** X10.  The order in which the two entities of a co-occurrence are given
    does not matter: [writeExchange] does the same and returns the same
    when every pair of the batch is swapped, also when it throws. *)
Theorem writeExchange_pair_order x env w :
  GraphStore.writeExchange
    (GraphStore.mkExchange (GraphStore.x_entities x) (GraphStore.x_triples x)
       (fmap (M := list) (fun ab => (ab.2, ab.1)) <$> GraphStore.x_cooccurrences x)
       (GraphStore.x_agentId x) (GraphStore.x_sourceExchangeId x)
       (GraphStore.x_sourceDate x)) env w =
  GraphStore.writeExchange x env w.
Proof.
  assert (forall cs env w,
            GraphStore.update_cooccurrences ((fun ab => (ab.2, ab.1)) <$> cs) env w =
            GraphStore.update_cooccurrences cs env w) as Hsym.
  { intros cs env0 w0. symmetry. unfold GraphStore.update_cooccurrences.
    apply for_each_ext. intros [[a|] [b|]] env1 w1;
      cbn [fst snd]; unfold bind, the_string, ret, throw; try done.
    by rewrite (sort_pair_comm (normalizeEntityId a)). }
  unfold GraphStore.writeExchange.
  cbn [GraphStore.x_entities GraphStore.x_triples GraphStore.x_cooccurrences
       GraphStore.x_agentId GraphStore.x_sourceExchangeId GraphStore.x_sourceDate].
  apply bind_ext. intros date w0. apply transaction_ext.
  apply bind_ext. intros [] w1. apply bind_ext. intros ids w2.
  unfold bind. destruct (GraphStore.x_cooccurrences x) as [cs|]; [|done].
  change (default [] (fmap (M := list) (fun ab => (ab.2, ab.1)) <$> Some cs))
    with ((fun ab : option string * option string => (ab.2, ab.1)) <$> cs).
  by rewrite Hsym.
Qed.

(** ** [queryTriples] *)

Lemma is_empty_true s : is_empty s = true <-> s = "".
Proof. by destruct s. Qed.

Lemma where_eq_holds f norm c :
  GraphStore.where_eq f norm c <-> filter_holds f norm c.
Proof.
  unfold GraphStore.where_eq, filter_holds. destruct f as [v|].
  - destruct v as [|ch v]; simpl.
    + split; [by intros _ v [= <-]|done].
    + split; [by intros -> v' [= <-]|]. intros H. by apply H.
  - split; [by intros _ v|done].
Qed.

Lemma elem_of_queryTriples_scan q s t :
  t ∈ Sql.order_by Stmt.newer_first
        (filter (fun t =>
                   GraphStore.where_eq (GraphStore.q_subject q) normalizeEntityId
                     (Triple.subject t) /\
                   GraphStore.where_eq (GraphStore.q_predicate q) id
                     (Triple.predicate t) /\
                   GraphStore.where_eq (GraphStore.q_object q) normalizeEntityId
                     (Triple.object t) /\
                   GraphStore.where_eq (GraphStore.q_agentId q) id
                     (Triple.agent_id t))
           (triples s)) <->
  t ∈ triples s /\ matches q t.
Proof.
  rewrite elem_of_order_by, list_elem_of_filter. unfold matches.
  rewrite !where_eq_holds. tauto.
Qed.

(** X11.  [queryTriples] gives rows of the table that satisfy every filter
    that is given and not empty (subject and object compared after
    normalization, predicate and agent as they are); a filter that is
    missing or the empty string restricts nothing, the agent included.  The
    rows come newest update first, at most [limit || 50] of them, and a
    matching row that is left out is no newer than any row given. *)
Theorem queryTriples_rows q s :
  let lim := js_or_int (GraphStore.q_limit q) 50 in
  let rows := GraphStore.queryTriples q s in
  (forall t, t ∈ rows -> t ∈ triples s /\ matches q t) /\
  StronglySorted
    (fun t1 t2 => JsString.leb (Triple.updated_at t2) (Triple.updated_at t1) = true)
    rows /\
  (0 <= lim -> Z.of_nat (length rows) <= lim) /\
  (lim < 0 -> forall t, t ∈ triples s -> matches q t -> t ∈ rows) /\
  (forall t, t ∈ triples s -> matches q t -> t ∉ rows ->
     Z.of_nat (length rows) = lim /\
     forall r, r ∈ rows ->
       JsString.leb (Triple.updated_at t) (Triple.updated_at r) = true).
Proof.
  intros lim rows.
  split.
  { intros t Ht. apply elem_of_limit in Ht. by apply elem_of_queryTriples_scan. }
  split; [apply StronglySorted_limit, newer_first_sorted|].
  split; [apply length_limit|].
  split.
  { intros Hneg t Ht Hm. unfold rows, GraphStore.queryTriples, Sql.limit.
    fold lim. apply Z.ltb_lt in Hneg. rewrite Hneg.
    apply elem_of_queryTriples_scan. by split. }
  intros t Ht Hm Hout.
  assert (t ∈ Sql.order_by Stmt.newer_first
                (filter (fun t =>
                   GraphStore.where_eq (GraphStore.q_subject q) normalizeEntityId
                     (Triple.subject t) /\
                   GraphStore.where_eq (GraphStore.q_predicate q) id
                     (Triple.predicate t) /\
                   GraphStore.where_eq (GraphStore.q_object q) normalizeEntityId
                     (Triple.object t) /\
                   GraphStore.where_eq (GraphStore.q_agentId q) id
                     (Triple.agent_id t))
                   (triples s))) as Hin.
  { apply elem_of_queryTriples_scan. by split. }
  destruct (limit_complete _ lim _ t (newer_first_sorted _) Hin) as [?|[Hlen Htop]];
    [done|].
  split; [exact Hlen|]. intros r Hr. exact (Htop r Hr).
Qed.

Lemma filter_key_singleton {A B} `{!EqDecision B} (f : A -> B) (l : list A) x :
  NoDup (f <$> l) -> x ∈ l -> filter (fun y => f y = f x) l = [x].
Proof.
  induction l as [|y l IH]; [by intros _ ?%not_elem_of_nil|].
  rewrite fmap_cons, NoDup_cons, filter_cons. intros [Hy Hnd] Hx.
  destruct (decide (f y = f x)) as [Heq|Hne].
  - assert (x = y) as ->.
    { apply elem_of_cons in Hx as [->|Hx]; [done|].
      destruct Hy. rewrite Heq. by apply list_elem_of_fmap_2. }
    f_equal. apply filter_none. intros z Hz Hfz. destruct Hy. rewrite <- Hfz.
    by apply list_elem_of_fmap_2.
  - apply elem_of_cons in Hx as [->|Hx]; [done|]. by apply IH.
Qed.

Lemma limit_singleton {A} n (x : A) : n <> 0 -> Sql.limit n [x] = [x].
Proof.
  intros Hn. unfold Sql.limit. destruct (n <? 0) eqn:Hlt; [done|].
  apply Z.ltb_ge in Hlt. destruct (Z.to_nat n) as [|k] eqn:Hk; [lia|].
  simpl. by rewrite take_nil.
Qed.

Lemma js_or_int_nonzero n d : d <> 0 -> js_or_int n d <> 0.
Proof.
  intros Hd. unfold js_or_int. destruct n as [z|]; [|done].
  destruct (z =? 0) eqn:Hz; [done|]. by apply Z.eqb_neq in Hz.
Qed.

(** X12.  A triple written by [addTriple] is read back by [queryTriples]:
    when subject, predicate and object are not empty strings, the query for
    them and for the agent the triple went to gives exactly one row, the
    row with the id that [addTriple] returned, whatever the limit. *)
Theorem addTriple_queryTriples env w a id w' s o limit :
  store_inv (db w) ->
  GraphStore.addTriple a env w = (inr id, w') ->
  GraphStore.subject a = Some s -> GraphStore.object a = Some o ->
  s <> "" -> o <> "" -> GraphStore.predicate a <> "" ->
  exists row,
    GraphStore.queryTriples (query_for a limit) (db w') = [row] /\
    Triple.id row = id /\
    key_of row = (normalizeEntityId s, GraphStore.predicate a,
                  normalizeEntityId o, js_or (GraphStore.agentId a) "main").
Proof.
  intros Hinv Hadd Hs Ho Hs0 Ho0 Hp0.
  assert (store_inv (db w')) as Hinv'.
  { pose proof (addTriple_inv env w a Hinv) as H. by rewrite Hadd in H. }
  destruct (addTriple_ok _ _ _ _ _ Hadd) as (sid & oid & Hkey & Hf1 & Hf2).
  destruct (addTriple_effect env w a sid oid (inv_wf _ Hinv) Hkey Hf1 Hf2)
    as (id1 & w1 & row & Hadd1 & _ & _ & Hfind & _).
  rewrite Hadd in Hadd1. injection Hadd1 as <- <-.
  destruct Hkey as (s1 & o1 & Hs1 & Ho1 & <- & <-).
  rewrite Hs in Hs1. rewrite Ho in Ho1. injection Hs1 as <-. injection Ho1 as <-.
  unfold Stmt.findTriple in Hfind.
  destruct (head _) as [found|] eqn:Hhead; [|done]. injection Hfind as Hid.
  apply head_filter_Some_elem in Hhead as [Hk Hin].
  assert (key_of found = (normalizeEntityId s, GraphStore.predicate a,
                          normalizeEntityId o, js_or (GraphStore.agentId a) "main"))
    as Hkf.
  { destruct Hk as (H1 & H2 & H3 & H4). unfold key_of. by rewrite H1, H2, H3, H4. }
  exists found. split; [|done].
  unfold GraphStore.queryTriples, query_for.
  cbn [GraphStore.q_subject GraphStore.q_predicate GraphStore.q_object
       GraphStore.q_agentId GraphStore.q_limit].
  rewrite Hs, Ho.
  rewrite (filter_ext_elem _ (fun y => key_of y = key_of found)).
  - rewrite (filter_key_singleton key_of _ found (inv_keys _ Hinv') Hin).
    simpl. apply limit_singleton. by apply js_or_int_nonzero.
  - intros t Ht. rewrite Hkf, !where_eq_holds. unfold filter_holds, key_of.
    pose proof (js_or_nonempty (GraphStore.agentId a) "main") as Hne.
    split.
    + intros (H1 & H2 & H3 & H4).
      rewrite (H1 s), (H2 (GraphStore.predicate a)), (H3 o),
        (H4 (js_or (GraphStore.agentId a) "main")); try done. by apply Hne.
    + intros [= -> -> -> ->]. repeat split; by intros v [= <-].
Qed.

Lemma addTriple_queryTriples_witness :
  exists w' row,
    GraphStore.addTriple
      (GraphStore.mkTripleArgs (Some "Alice  Smith") "knows" (Some " BOB ")
         None None None None false) Sample.env Sample.world1 = (inr 2, w') /\
    GraphStore.queryTriples
      (GraphStore.mkQuery (Some "Alice  Smith") (Some "knows") (Some " BOB ")
         (Some "main") (Some 1)) (db w') = [row] /\
    Triple.id row = 2 /\
    key_of row = ("alice_smith", "knows", "bob", "main").
Proof.
  assert (store_inv (db Sample.world1)) as Hinv.
  { apply (perform_all_invariant_from_empty
             [WriteExchange Sample.alice_visited_paris] Sample.env). }
  destruct (GraphStore.addTriple
              (GraphStore.mkTripleArgs (Some "Alice  Smith") "knows" (Some " BOB ")
                 None None None None false) Sample.env Sample.world1)
    as [r w'] eqn:Hadd.
  assert (r = inr 2) as -> by (vm_compute in Hadd; by injection Hadd as <- _).
  destruct (addTriple_queryTriples Sample.env Sample.world1 _ 2 w'
              "Alice  Smith" " BOB " (Some 1) Hinv Hadd eq_refl eq_refl)
    as (row & Hq & Hid & Hkey); [done..|].
  exists w', row. split; [done|]. split; [exact Hq|]. split; [exact Hid|].
  exact Hkey.
Defined.

(** ** [getEntityContext] *)

Lemma group_total_insert_fresh m p rs :
  m !! p = None -> group_total (<[p := rs]> m) = (length rs + group_total m)%nat.
Proof. intros Hp. unfold group_total. by rewrite map_to_list_insert. Qed.

Lemma group_total_insert_push m p rs r :
  m !! p = Some rs ->
  group_total (<[p := rs ++ [r]]> m) = S (group_total m).
Proof.
  intros Hp. unfold group_total.
  rewrite <- insert_delete_eq.
  rewrite map_to_list_insert by apply lookup_delete_eq.
  rewrite <- (map_to_list_delete m p rs Hp). simpl. rewrite length_app. simpl. lia.
Qed.

Lemma group_by_predicate_spec ts m :
  match EntityContext.group_by_predicate ts m with
  | inr m' =>
      (forall t, t ∈ ts -> m !! Triple.predicate t = None ->
                 Triple.predicate t ∉ EntityContext.inherited_names) /\
      (forall p,
         m' !! p =
         match m !! p with
         | Some rs => Some (rs ++ group_of p ts)
         | None => if group_of p ts is [] then None else Some (group_of p ts)
         end) /\
      group_total m' = (group_total m + length ts)%nat
  | inl e =>
      e = TypeError /\
      exists t, t ∈ ts /\ m !! Triple.predicate t = None /\
                Triple.predicate t ∈ EntityContext.inherited_names
  end.
Proof.
  revert m. induction ts as [|t ts IH]; intros m.
  { simpl. split; [by intros t ?%not_elem_of_nil|]. split; [|lia].
    intros p. unfold group_of. simpl. destruct (m !! p); [|done].
    by rewrite app_nil_r. }
  cbn [EntityContext.group_by_predicate]. cbv zeta.
  assert (forall p, group_of p (t :: ts) =
                    if decide (Triple.predicate t = p)
                    then EntityContext.relationship_of t :: group_of p ts
                    else group_of p ts) as Hgroup.
  { intros p. unfold group_of. rewrite filter_cons. by destruct (decide _). }
  destruct (m !! Triple.predicate t) as [rs|] eqn:Hm.
  - specialize (IH (<[Triple.predicate t := rs ++ [EntityContext.relationship_of t]]> m)).
    destruct (EntityContext.group_by_predicate ts _) as [e|m'].
    + destruct IH as (-> & t' & Hin & Hnone & Hinh). split; [done|].
      exists t'. split; [by right|]. split; [|done].
      destruct (decide (Triple.predicate t = Triple.predicate t')) as [Heq|Hne].
      * rewrite <- Heq, lookup_insert_eq in Hnone. done.
      * by rewrite lookup_insert_ne in Hnone.
    + destruct IH as (Hok & Hlook & Htotal). split; [|split].
      * intros t' [->|Hin]%elem_of_cons Hnone; [congruence|].
        apply Hok; [done|].
        destruct (decide (Triple.predicate t = Triple.predicate t')) as [Heq|Hne];
          [congruence|]. by rewrite lookup_insert_ne.
      * intros p. rewrite Hlook, Hgroup.
        destruct (decide (Triple.predicate t = p)) as [<-|Hne].
        -- rewrite lookup_insert_eq, Hm. by rewrite <- app_assoc.
        -- by rewrite lookup_insert_ne.
      * rewrite Htotal, (group_total_insert_push m _ rs) by done. simpl. lia.
  - destruct (decide _) as [Hinh|Hinh].
    { split; [done|]. exists t. split; [by left|]. done. }
    specialize (IH (<[Triple.predicate t := [EntityContext.relationship_of t]]> m)).
    destruct (EntityContext.group_by_predicate ts _) as [e|m'].
    + destruct IH as (-> & t' & Hin & Hnone & Hinh'). split; [done|].
      exists t'. split; [by right|]. split; [|done].
      destruct (decide (Triple.predicate t = Triple.predicate t')) as [Heq|Hne].
      * rewrite <- Heq, lookup_insert_eq in Hnone. done.
      * by rewrite lookup_insert_ne in Hnone.
    + destruct IH as (Hok & Hlook & Htotal). split; [|split].
      * intros t' [->|Hin]%elem_of_cons Hnone; [done|].
        destruct (decide (Triple.predicate t = Triple.predicate t')) as [Heq|Hne];
          [by rewrite <- Heq|].
        apply Hok; [done|]. by rewrite lookup_insert_ne.
      * intros p. rewrite Hlook, Hgroup.
        destruct (decide (Triple.predicate t = p)) as [<-|Hne].
        -- by rewrite lookup_insert_eq, Hm.
        -- by rewrite lookup_insert_ne.
      * rewrite Htotal, group_total_insert_fresh by done. simpl. lia.
Qed.

Lemma elem_of_getTriplesFor entityName agentId limit s t :
  t ∈ GraphStore.getTriplesFor entityName agentId limit s ->
  t ∈ triples s /\
  (Triple.subject t = normalizeEntityId entityName \/
   Triple.object t = normalizeEntityId entityName) /\
  Triple.agent_id t = js_or agentId "main".
Proof.
  unfold GraphStore.getTriplesFor. intros [_ Hin]%dedup_by_id_fresh.
  apply elem_of_app in Hin as [Hin|Hin];
    apply elem_of_limit, elem_of_order_by, list_elem_of_filter in Hin
      as [[Hid Hag] Hin]; auto.
Qed.

(** X13.  [getEntityContext] gives [null] exactly when the normalized name
    is not registered, under whatever agent.  Otherwise it throws a
    [TypeError] exactly when one of the entity's triples has a predicate
    that names a property every object inherits ([constructor],
    [toString], ...); and when it returns, the entity is the registered
    row, the group of each predicate is the list of the relationships of
    the entity's triples with that predicate, in the order of
    [getTriplesFor], a predicate without such a triple has no group,
    every relationship has the entity as subject or object, and
    [tripleCount] is the total size of the groups. *)
Theorem getEntityContext_groups entityName agentId s :
  let id := normalizeEntityId entityName in
  let aid := js_or agentId "main" in
  let ts := GraphStore.getTriplesFor entityName (Some aid) (Some 50) s in
  match EntityContext.getEntityContext entityName agentId s with
  | inr None => GraphStore.getEntity id s = None
  | inl e =>
      e = TypeError /\ GraphStore.getEntity id s <> None /\
      exists t, t ∈ ts /\ Triple.predicate t ∈ EntityContext.inherited_names
  | inr (Some c) =>
      GraphStore.getEntity id s = Some (EntityContext.c_entity c) /\
      (forall t, t ∈ ts -> Triple.predicate t ∉ EntityContext.inherited_names) /\
      (forall p,
         EntityContext.relationships c !! p =
         if group_of p ts is [] then None else Some (group_of p ts)) /\
      (forall p rs r, EntityContext.relationships c !! p = Some rs -> r ∈ rs ->
                      involves id r) /\
      EntityContext.tripleCount c =
        Z.of_nat (group_total (EntityContext.relationships c)) /\
      EntityContext.cooccurrences c =
        EntityContext.cooccurring_of id
          <$> GraphStore.getCooccurrences entityName (Some 10) s
  end.
Proof.
  intros id aid ts. unfold EntityContext.getEntityContext. fold id aid.
  destruct (GraphStore.getEntity id s) as [entity|] eqn:Hent; [|done].
  fold ts. pose proof (group_by_predicate_spec ts ∅) as Hspec.
  destruct (EntityContext.group_by_predicate ts ∅) as [e|m].
  - destruct Hspec as (-> & t & Hin & _ & Hinh). split; [done|]. split; [done|].
    by exists t.
  - destruct Hspec as (Hok & Hlook & Htotal).
    cbn [EntityContext.c_entity EntityContext.relationships
         EntityContext.tripleCount EntityContext.cooccurrences].
    assert (forall p, m !! p = if group_of p ts is [] then None
                               else Some (group_of p ts)) as Hgroups.
    { intros p. rewrite Hlook. by rewrite lookup_empty. }
    split; [done|]. split.
    { intros t Ht. apply Hok; [done|apply lookup_empty]. }
    split; [exact Hgroups|]. split.
    { intros p rs r Hp Hr. rewrite Hgroups in Hp.
      assert (rs = group_of p ts) as -> by (by destruct (group_of p ts); simplify_eq).
      unfold group_of in Hr.
      apply list_elem_of_fmap in Hr as (t & -> & [_ Ht]%list_elem_of_filter).
      apply elem_of_getTriplesFor in Ht as (_ & Hside & _). exact Hside. }
    split; [|done].
    rewrite Htotal. unfold group_total. rewrite map_to_list_empty. simpl. done.
Qed.

(** ** [getKnownEntities] *)

Lemma seen_later_first_sorted l :
  StronglySorted (fun a b => Stmt.seen_later_first a b = true)
    (Sql.order_by Stmt.seen_later_first l).
Proof.
  apply order_by_sorted; unfold Stmt.seen_later_first.
  - intros a b. apply string_leb_total.
  - intros a b c Hab Hbc. by eapply string_leb_trans.
Qed.

(** X14.  [getKnownEntities] never throws and never changes the database.
    When the storage layer fails it gives the empty list; otherwise it
    gives entities of the agent, most recently seen first, at most 200 of
    them, and an entity of the agent that is left out was seen no later
    than any that is given. *)
Theorem getKnownEntities_total agentId env w :
  exists rows w',
    getKnownEntities agentId env w = (inr rows, w') /\
    db w' = db w /\
    (fault env (ticks w) = true -> rows = []) /\
    (forall e, e ∈ rows -> e ∈ entities (db w) /\ Entity.agent_id e = agentId) /\
    StronglySorted
      (fun e1 e2 => JsString.leb (Entity.last_seen e2) (Entity.last_seen e1) = true)
      rows /\
    (length rows <= 200)%nat /\
    (fault env (ticks w) = false ->
     forall e, e ∈ entities (db w) -> Entity.agent_id e = agentId -> e ∉ rows ->
       length rows = 200%nat /\
       forall r, r ∈ rows ->
         JsString.leb (Entity.last_seen e) (Entity.last_seen r) = true).
Proof.
  unfold getKnownEntities, run.
  destruct (fault env (ticks w)) eqn:Hf.
  - eexists [], _. split; [reflexivity|]. split; [done|]. split; [done|].
    split; [by intros e ?%not_elem_of_nil|]. split; [constructor|].
    split; [simpl; lia|done].
  - eexists _, _. split; [reflexivity|]. cbn [db]. split; [done|].
    split; [done|]. split.
    { intros e He.
      apply elem_of_limit, elem_of_order_by, list_elem_of_filter in He as [? ?].
      done. }
    split; [apply StronglySorted_limit, seen_later_first_sorted|].
    split.
    { pose proof (length_limit 200
        (Sql.order_by Stmt.seen_later_first
           (filter (fun e => Entity.agent_id e = agentId) (entities (db w)))))
        as Hlen. unfold Stmt.recentEntities. lia. }
    intros _ e Hin Hag Hout.
    assert (e ∈ Sql.order_by Stmt.seen_later_first
                  (filter (fun e => Entity.agent_id e = agentId) (entities (db w))))
      as He.
    { apply elem_of_order_by, list_elem_of_filter. by split. }
    destruct (limit_complete _ 200 _ e (seen_later_first_sorted _) He)
      as [?|[Hlen Htop]]; [done|].
    split; [unfold Stmt.recentEntities; lia|]. intros r Hr. exact (Htop r Hr).
Qed.

(** ** What the search reads *)

Section search_reads.
Variables (agentId : option string) (s1 s2 : Store).
Let aid := js_or agentId "main".
Hypothesis same_triples :
  filter (fun t => Triple.agent_id t = aid) (triples s1) =
  filter (fun t => Triple.agent_id t = aid) (triples s2).
Hypothesis same_cooccurrences : cooccurrences s1 = cooccurrences s2.

Lemma agent_scan_eq (P : Triple.t -> Prop) `{!forall t, Decision (P t)} :
  filter (fun t => P t /\ Triple.agent_id t = aid) (triples s1) =
  filter (fun t => P t /\ Triple.agent_id t = aid) (triples s2).
Proof. by rewrite <- !list_filter_filter, same_triples. Qed.

Lemma getTriplesFor_agent_eq name lim :
  GraphStore.getTriplesFor name (Some aid) lim s1 =
  GraphStore.getTriplesFor name (Some aid) lim s2.
Proof.
  unfold GraphStore.getTriplesFor, Stmt.getTriplesForSubject,
    Stmt.getTriplesForObject.
  assert (js_or (Some aid) "main" = aid) as -> by apply js_or_idem.
  by rewrite
    (agent_scan_eq (fun t => Triple.subject t = normalizeEntityId name)),
    (agent_scan_eq (fun t => Triple.object t = normalizeEntityId name)).
Qed.

Lemma getTriplesByNormalizedId_agent_eq id lim :
  GraphSearcher.getTriplesByNormalizedId id (Some aid) lim s1 =
  GraphSearcher.getTriplesByNormalizedId id (Some aid) lim s2.
Proof.
  unfold GraphSearcher.getTriplesByNormalizedId.
  assert (js_or (Some aid) "main" = aid) as -> by apply js_or_idem.
  by rewrite (agent_scan_eq (fun t => Triple.subject t = id \/ Triple.object t = id)).
Qed.

Lemma getCooccurrences_eq name lim :
  GraphStore.getCooccurrences name lim s1 = GraphStore.getCooccurrences name lim s2.
Proof.
  unfold GraphStore.getCooccurrences, Stmt.getCooccurrences.
  by rewrite same_cooccurrences.
Qed.

Lemma expand_entity_agent_eq cfg m q :
  GraphSearcher.expand_entity cfg aid s1 m q =
  GraphSearcher.expand_entity cfg aid s2 m q.
Proof.
  unfold GraphSearcher.expand_entity.
  rewrite getTriplesFor_agent_eq, getCooccurrences_eq.
  generalize (GraphSearcher.score_triples
                (GraphSearcher.direct_hit (GraphSearcher.name q))
                (GraphStore.getTriplesFor (GraphSearcher.name q) (Some aid)
                   (Some 100) s2) m).
  induction (GraphStore.getCooccurrences (GraphSearcher.name q) (Some 5) s2)
    as [|c cs IH]; intros m0; [done|].
  cbn [fold_left]. by rewrite getTriplesByNormalizedId_agent_eq, IH.
Qed.

Lemma search_agent_eq cfg extracted gazetteered limit :
  GraphSearcher.search cfg extracted gazetteered agentId limit s1 =
  GraphSearcher.search cfg extracted gazetteered agentId limit s2.
Proof.
  unfold GraphSearcher.search. fold aid.
  destruct (GraphSearcher.merge_entities extracted gazetteered) as [|q qs]; [done|].
  do 2 f_equal.
  generalize (@nil GraphSearcher.Entry).
  induction (q :: qs) as [|q0 qs0 IH]; intros m; [done|].
  cbn [fold_left]. by rewrite expand_entity_agent_eq, IH.
Qed.
End search_reads.

(** X15.  The search reads the triples of its own agent and the
    co-occurrence table, nothing else: on two databases that agree on
    those it gives the same result, whatever the triples of other agents
    and the entity registry are. *)
Theorem search_reads_own_agent cfg extracted gazetteered agentId limit s1 s2 :
  filter (fun t => Triple.agent_id t = js_or agentId "main") (triples s1) =
  filter (fun t => Triple.agent_id t = js_or agentId "main") (triples s2) ->
  cooccurrences s1 = cooccurrences s2 ->
  GraphSearcher.search cfg extracted gazetteered agentId limit s1 =
  GraphSearcher.search cfg extracted gazetteered agentId limit s2.
Proof.
  intros Ht Hc. unfold GraphSearcher.search.
  destruct (GraphSearcher.merge_entities extracted gazetteered) as [|q qs] eqn:Hq;
    [done|].
  pose proof (search_agent_eq agentId s1 s2 Ht Hc cfg extracted gazetteered limit)
    as Heq.
  unfold GraphSearcher.search in Heq. by rewrite Hq in Heq.
Qed.

Lemma search_reads_own_agent_witness :
  triples (db Sample5.world) <> triples (db Sample3.world) /\
  GraphSearcher.search Sample3.config Sample3.query [] None None (db Sample5.world) =
  GraphSearcher.search Sample3.config Sample3.query [] None None (db Sample3.world).
Proof.
  split; [by vm_compute|].
  apply (search_reads_own_agent Sample3.config Sample3.query [] None None
           (db Sample5.world) (db Sample3.world)); reflexivity.
Defined.

(** ** The date of a hit *)

Lemma string_ltb_leb a b : JsString.ltb a b = true -> JsString.leb a b = true.
Proof.
  unfold JsString.leb, JsString.ltb, String.leb, String.ltb.
  by destruct (String.compare a b).
Qed.

Lemma string_not_ltb_leb a b : JsString.ltb a b = false -> JsString.leb b a = true.
Proof.
  unfold JsString.leb, JsString.ltb, String.leb, String.ltb.
  rewrite (String.compare_antisym a b). by destruct (String.compare b a).
Qed.

Lemma string_leb_refl a : JsString.leb a a = true.
Proof. by destruct (string_leb_total a a). Qed.

Lemma string_leb_empty a : JsString.leb "" a = true.
Proof. by destruct a. Qed.

Lemma newer_date_max sd d :
  exists r, GraphSearcher.newer_date sd (Some d) = Some r /\
            (r = sd \/ r = d) /\
            JsString.leb sd r = true /\ JsString.leb d r = true.
Proof.
  unfold GraphSearcher.newer_date. destruct (is_empty d) eqn:Hd; simpl.
  - apply is_empty_true in Hd as ->. exists sd. split; [done|].
    split; [by left|]. split; [apply string_leb_refl|apply string_leb_empty].
  - destruct (JsString.ltb d sd) eqn:Hlt.
    + exists sd. split; [done|]. split; [by left|].
      split; [apply string_leb_refl|by apply string_ltb_leb].
    + exists d. split; [done|]. split; [by right|].
      split; [by apply string_not_ltb_leb|apply string_leb_refl].
Qed.

Lemma fold_newer_date cs d :
  exists r,
    fold_left (fun d c => GraphSearcher.newer_date (date_of c) d) cs (Some d) = Some r /\
    (r = d \/ exists c, c ∈ cs /\ r = date_of c) /\
    JsString.leb d r = true /\
    forall c, c ∈ cs -> JsString.leb (date_of c) r = true.
Proof.
  revert d. induction cs as [|c cs IH]; intros d.
  { exists d. split; [done|]. split; [by left|]. split; [apply string_leb_refl|].
    by intros c ?%not_elem_of_nil. }
  cbn [fold_left].
  destruct (newer_date_max (date_of c) d) as (r0 & -> & Hr0 & Hc & Hd).
  destruct (IH r0) as (r & Hfold & Hr & Hle & Hall). exists r.
  split; [exact Hfold|]. split; [|split].
  - destruct Hr as [->|(c' & Hin & ->)].
    + destruct Hr0 as [->| ->]; [right; exists c; split; [by left|done]|by left].
    + right. exists c'. split; [by right|done].
  - by eapply string_leb_trans.
  - intros c' [->|Hin]%elem_of_cons; [by eapply string_leb_trans|by apply Hall].
Qed.

Lemma fold_apply_date cfg cs e0 :
  GraphSearcher.e_newestDate (fold_left (fun e c => Scoring.apply cfg c e) cs e0) =
  fold_left (fun d c => GraphSearcher.newer_date (date_of c) d) cs
    (GraphSearcher.e_newestDate e0).
Proof.
  revert e0. induction cs as [|c cs IH]; intros e0; [done|].
  cbn [fold_left]. rewrite IH. by destruct c.
Qed.

Lemma summary_date cfg cs x :
  Scoring.for_exchange x cs <> [] ->
  exists c,
    c ∈ Scoring.for_exchange x cs /\
    GraphSearcher.e_newestDate (Scoring.summary cfg cs x) = Some (date_of c) /\
    forall c', c' ∈ Scoring.for_exchange x cs ->
               JsString.leb (date_of c') (date_of c) = true.
Proof.
  unfold Scoring.summary. rewrite fold_apply_date.
  destruct (Scoring.for_exchange x cs) as [|c0 l]; [done|]. intros _.
  cbn [fold_left GraphSearcher.fresh_entry GraphSearcher.e_newestDate
       GraphSearcher.newer_date].
  destruct (fold_newer_date l (date_of c0)) as (r & -> & Hr & Hle & Hall).
  destruct Hr as [->|(c & Hin & ->)].
  - exists c0. split; [by left|]. split; [done|].
    intros c' [->|Hin]%elem_of_cons; [apply string_leb_refl|by apply Hall].
  - exists c. split; [by right|]. split; [done|].
    intros c' [->|Hin']%elem_of_cons; [done|by apply Hall].
Qed.

Lemma elem_of_slice0 {A} n (l : list A) x : x ∈ GraphSearcher.slice0 n l -> x ∈ l.
Proof.
  unfold GraphSearcher.slice0. destruct (n <? 0); intros Hx;
    (eapply elem_of_sublist; [exact Hx|apply sublist_take]).
Qed.

(** X16.  The date of a hit is the newest [source_date] among the triples
    that reached its exchange, those found through a co-occurrence
    included: it is the date of one of them, and none has a later one. *)
Theorem search_date cfg extracted gazetteered agentId limit s :
  let aid := js_or agentId "main" in
  let contributions :=
    Scoring.all_contributions aid s
      (GraphSearcher.merge_entities extracted gazetteered) in
  Forall (fun h =>
            let mine := Scoring.for_exchange (GraphSearcher.id h) contributions in
            exists c,
              c ∈ mine /\
              GraphSearcher.date h = Some (date_of c) /\
              forall c', c' ∈ mine ->
                         JsString.leb (date_of c') (date_of c) = true)
    (GraphSearcher.exchanges
       (GraphSearcher.search cfg extracted gazetteered agentId limit s)).
Proof.
  intros aid contributions. apply Forall_forall. intros h Hh.
  unfold GraphSearcher.search in Hh. fold aid in Hh.
  rewrite fold_expand_entity in Hh. fold contributions in Hh.
  assert (h ∈ GraphSearcher.rank cfg (Scoring.accumulate cfg contributions []))
    as Hrank.
  { destruct (GraphSearcher.merge_entities extracted gazetteered);
      [by apply not_elem_of_nil in Hh|].
    cbn [GraphSearcher.exchanges] in Hh. by apply elem_of_slice0 in Hh. }
  apply rank_elem in Hrank as (e & He & -> & _).
  destruct (accumulate_summary cfg contributions) as (_ & Hsum & Hmem).
  cbn [GraphSearcher.to_hit GraphSearcher.id GraphSearcher.date].
  destruct (summary_date cfg contributions (GraphSearcher.e_id e))
    as (c & Hc & Hdate & Hall).
  { apply Hmem. by apply list_elem_of_fmap_2. }
  rewrite <- (Hsum e He) in Hdate. by exists c.
Qed.

(** ** The fallbacks of the search *)

Lemma js_or_num_plain q d : ~ (q == 0)%Q -> js_or_num (Some q) d = q.
Proof.
  intros Hq. unfold js_or_num. destruct (Qeq_bool q 0) eqn:Heq; [|done].
  by apply Qeq_bool_iff in Heq.
Qed.

Lemma js_or_int_plain z d : 1 <= z -> js_or_int (Some z) d = z.
Proof.
  intros Hz. unfold js_or_int. destruct (z =? 0) eqn:Heq; [|done].
  apply Z.eqb_eq in Heq. lia.
Qed.

Lemma or_null_plain a : a <> Some "" -> GraphStore.or_null a = a.
Proof. intros Ha. destruct a as [[|c s]|]; done. Qed.

Lemma elem_of_getTriplesByNormalizedId id agentId limit s t :
  t ∈ GraphSearcher.getTriplesByNormalizedId id agentId limit s ->
  t ∈ triples s /\
  (Triple.subject t = id \/ Triple.object t = id) /\
  Triple.agent_id t = js_or agentId "main".
Proof.
  unfold GraphSearcher.getTriplesByNormalizedId. intros Hin.
  apply elem_of_limit, elem_of_order_by, list_elem_of_filter in Hin
    as [[Hid Hag] Hin]. auto.
Qed.

Lemma elem_of_getCooccurrences name limit s c :
  c ∈ GraphStore.getCooccurrences name limit s ->
  c ∈ cooccurrences s /\
  (Cooc.entity_a c = normalizeEntityId name \/
   Cooc.entity_b c = normalizeEntityId name).
Proof.
  unfold GraphStore.getCooccurrences, Stmt.getCooccurrences. intros Hin.
  apply elem_of_limit, elem_of_order_by, list_elem_of_filter in Hin as [? ?].
  done.
Qed.

(** X17.  In a database kept by the methods the fallbacks of the search
    never apply.  Every triple that the search visits is a triple of the
    agent that touches the query entity, or the entity on the other side of
    one of its co-occurrences; it counts with its stored confidence, or with
    the boost times the stored count, not with the defaults for zero; and
    it goes to the exchange it is stored with, none being the only case
    that is skipped. *)
Theorem search_weights_plain cfg agentId s qs :
  store_inv s ->
  let aid := js_or agentId "main" in
  Forall (fun c =>
            Scoring.weight cfg c = plain_weight cfg c /\
            Scoring.exchange c = Triple.source_exchange_id (Scoring.triple_of c) /\
            Scoring.triple_of c ∈ triples s /\
            Triple.agent_id (Scoring.triple_of c) = aid /\
            match c with
            | Scoring.Direct n t =>
                (exists q, q ∈ qs /\ GraphSearcher.name q = n) /\
                (Triple.subject t = normalizeEntityId n \/
                 Triple.object t = normalizeEntityId n)
            | Scoring.Expansion cooc t =>
                cooc ∈ cooccurrences s /\
                exists q, q ∈ qs /\
                  let id := normalizeEntityId (GraphSearcher.name q) in
                  Stmt.cooc_key cooc =
                    GraphStore.sort_pair id (GraphSearcher.other_side id cooc) /\
                  (Triple.subject t = GraphSearcher.other_side id cooc \/
                   Triple.object t = GraphSearcher.other_side id cooc)
            end)
    (Scoring.all_contributions aid s qs).
Proof.
  intros Hinv aid. apply Forall_forall. intros c Hc.
  unfold Scoring.all_contributions in Hc.
  apply list_elem_of_In, in_flat_map in Hc as (q & Hq%list_elem_of_In & Hc).
  apply list_elem_of_In in Hc. unfold Scoring.entity_contributions in Hc.
  assert (js_or (Some aid) "main" = aid) as Haid by apply js_or_idem.
  assert (forall t, t ∈ triples s ->
            js_or_num (Some (Triple.confidence t)) 1 = Triple.confidence t /\
            GraphSearcher.exchange_of t = Triple.source_exchange_id t) as Hplain.
  { intros t Ht. pose proof (inv_triples _ Hinv) as Hall.
    eapply Forall_forall in Hall as (_ & _ & Hconf & Hsrc & _); [|exact Ht].
    split; [by apply js_or_num_plain|by apply or_null_plain]. }
  apply elem_of_app in Hc as [Hc|Hc].
  - apply list_elem_of_fmap in Hc as (t & -> & Ht).
    apply elem_of_getTriplesFor in Ht as (Hin & Hside & Hag).
    rewrite Haid in Hag. destruct (Hplain t Hin) as [Hw Hx].
    cbn [Scoring.weight plain_weight Scoring.triple_of]. unfold Scoring.exchange.
    cbn [Scoring.triple_of]. repeat split; try done. by exists q.
  - apply list_elem_of_In, in_flat_map in Hc as (cooc & Hcooc%list_elem_of_In & Hc).
    apply list_elem_of_In, list_elem_of_fmap in Hc as (t & -> & Ht).
    apply elem_of_getTriplesByNormalizedId in Ht as (Hin & Hside & Hag).
    rewrite Haid in Hag. destruct (Hplain t Hin) as [_ Hx].
    destruct (getCooccurrences_rows_inv (GraphSearcher.name q) (Some 5) s cooc
                Hinv Hcooc) as (Hcin & Hkey & Hcount).
    cbn [Scoring.weight plain_weight Scoring.triple_of]. unfold Scoring.exchange.
    cbn [Scoring.triple_of]. rewrite (js_or_int_plain _ _ Hcount).
    repeat split; try done. by exists q.
Qed.

Lemma search_weights_plain_witness :
  Forall (fun c => Scoring.weight Sample3.config c = plain_weight Sample3.config c)
    (Scoring.all_contributions "main" (db Sample3.world) Sample3.query).
Proof.
  assert (store_inv (db Sample3.world)) as Hinv.
  { apply (perform_all_invariant_from_empty
             [WriteExchange Sample3.exchange1; WriteExchange Sample3.exchange2]
             Sample.env). }
  eapply Forall_impl;
    [exact (search_weights_plain Sample3.config None (db Sample3.world)
              Sample3.query Hinv)|].
  by intros c (Hw & _).
Defined.

(** ** The query entities *)

Lemma push_new_spec seen gs :
  GraphSearcher.push_new seen gs `sublist_of` gs /\
  NoDup (lower_name <$> GraphSearcher.push_new seen gs) /\
  (forall g, g ∈ GraphSearcher.push_new seen gs -> lower_name g ∉ seen) /\
  (forall g, g ∈ gs ->
     lower_name g ∈ seen \/
     lower_name g ∈ lower_name <$> GraphSearcher.push_new seen gs).
Proof.
  revert seen. induction gs as [|g gs IH]; intros seen.
  { simpl. split; [done|]. split; [constructor|].
    split; by intros g ?%not_elem_of_nil. }
  cbn [GraphSearcher.push_new]. fold (lower_name g).
  destruct (decide (lower_name g ∈ seen)) as [Hin|Hin].
  - destruct (IH seen) as (Hsub & Hnd & Hfresh & Hall).
    split; [by apply sublist_cons|]. split; [done|]. split; [done|].
    intros g' [->|Hg']%elem_of_cons; [by left|by apply Hall].
  - destruct (IH ({[lower_name g]} ∪ seen)) as (Hsub & Hnd & Hfresh & Hall).
    split; [by apply sublist_skip|]. split; [|split].
    + rewrite fmap_cons. apply NoDup_cons. split; [|done].
      intros (g' & Heq & Hg')%list_elem_of_fmap.
      apply Hfresh in Hg'. rewrite <- Heq in Hg'. set_solver.
    + intros g' [->|Hg']%elem_of_cons; [done|].
      apply Hfresh in Hg'. set_solver.
    + intros g' [->|Hg']%elem_of_cons.
      * right. rewrite fmap_cons. by left.
      * destruct (Hall g' Hg') as [Hs|Hp].
        -- apply elem_of_union in Hs as [->%elem_of_singleton|Hs]; [|by left].
           right. rewrite fmap_cons. by left.
        -- right. rewrite fmap_cons. by right.
Qed.

(** X18.  The query entities of a search are the extracted ones, as they
    are and in their order, followed by gazetteer matches: each of these is
    a match whose lowercased name no extracted entity and no earlier match
    has, so no two of them share a name up to case, and every gazetteer
    match is represented by a query entity of the same lowercased name. *)
Theorem merge_entities_names extracted gazetteered :
  exists pushed,
    GraphSearcher.merge_entities extracted gazetteered = extracted ++ pushed /\
    pushed `sublist_of` gazetteered /\
    NoDup (lower_name <$> pushed) /\
    (forall g, g ∈ pushed -> lower_name g ∉ lower_name <$> extracted) /\
    (forall g, g ∈ gazetteered ->
       lower_name g ∈
         lower_name <$> GraphSearcher.merge_entities extracted gazetteered) /\
    (NoDup (lower_name <$> extracted) ->
     NoDup (lower_name <$> GraphSearcher.merge_entities extracted gazetteered)).
Proof.
  unfold GraphSearcher.merge_entities.
  change (fun e => toLowerCase (GraphSearcher.name e)) with lower_name.
  destruct (push_new_spec (list_to_set (lower_name <$> extracted)) gazetteered)
    as (Hsub & Hnd & Hfresh & Hall).
  eexists. split; [reflexivity|]. split; [done|]. split; [done|].
  assert (forall g, g ∈ GraphSearcher.push_new
                          (list_to_set (lower_name <$> extracted)) gazetteered ->
                    lower_name g ∉ lower_name <$> extracted) as Hnew.
  { intros g Hg Hin. apply (Hfresh g Hg). by apply elem_of_list_to_set. }
  split; [exact Hnew|]. split.
  - intros g Hg. rewrite fmap_app, elem_of_app.
    destruct (Hall g Hg) as [Hs|Hp]; [left|by right].
    by apply elem_of_list_to_set in Hs.
  - intros Hex. rewrite fmap_app. apply NoDup_app. split; [done|]. split; [|done].
    intros x Hx (g & -> & Hg)%list_elem_of_fmap. by apply (Hnew g Hg).
Qed.
